(** * Mirrored buffer cache and message hub: a shallow embedding

    The development follows two translation units of the repository:
    - [arch/runtime/message_hub.cc], the cross-thread message hub with its
      priority scheduler ([Module Hub]), and
    - [buffer_cache/mirrored/mirrored.hpp], the declarations of the mirrored
      cache ([Module Cache]).

    Definitions come first, theorems afterwards. *)

From Stdlib Require Import ZArith Lia Sorted.
From stdpp Require Import base tactics option numbers list.

Local Open Scope Z_scope.

(** ** The message hub ([arch/runtime/message_hub.cc]) *)
Module Hub.

(** [linux_thread_message_t].  A message is an object threaded on intrusive
    lists; [msg_id] stands for the identity (address) of that object.  The
    field [reloop_count_] exists in debug builds only. *)
Record linux_thread_message_t := Msg {
  msg_id : nat;
  priority : Z;
  is_ordered : bool;
  reloop_count_ : Z;
}.

#[global] Instance linux_thread_message_eq_dec : EqDecision linux_thread_message_t.
Proof. solve_decision. Defined.

(** [msg_list_t]: an intrusive list, used through [head], [remove(head)],
    [push_back], [append_and_clear], [size] and [empty]. *)
Abbreviation msg_list_t := (list linux_thread_message_t).

Definition set_is_ordered (b : bool) (m : linux_thread_message_t) :=
  Msg (msg_id m) (priority m) b (reloop_count_ m).

Definition set_reloop_count_ (c : Z) (m : linux_thread_message_t) :=
  Msg (msg_id m) (priority m) (is_ordered m) c.

(** [linux_message_hub_t].  [queues_] holds one [msg_local_list] per target
    thread, [priority_msg_lists_] one list per scheduler priority, [event_]
    counts the wake-ups written to the notification descriptor and not yet
    consumed. *)
Record linux_message_hub_t := HubState {
  queues_ : list msg_list_t;
  priority_msg_lists_ : list msg_list_t;
  incoming_messages_ : msg_list_t;
  is_woken_up_ : bool;
  event_ : nat;
  current_thread_ : nat;
}.

Definition set_queues_ (q : list msg_list_t) (h : linux_message_hub_t) :=
  HubState q (priority_msg_lists_ h) (incoming_messages_ h)
           (is_woken_up_ h) (event_ h) (current_thread_ h).

Definition set_priority_msg_lists_ (p : list msg_list_t) (h : linux_message_hub_t) :=
  HubState (queues_ h) p (incoming_messages_ h)
           (is_woken_up_ h) (event_ h) (current_thread_ h).

Definition set_incoming_messages_ (i : msg_list_t) (h : linux_message_hub_t) :=
  HubState (queues_ h) (priority_msg_lists_ h) i
           (is_woken_up_ h) (event_ h) (current_thread_ h).

Definition set_is_woken_up_ (b : bool) (h : linux_message_hub_t) :=
  HubState (queues_ h) (priority_msg_lists_ h) (incoming_messages_ h)
           b (event_ h) (current_thread_ h).

Definition set_event_ (e : nat) (h : linux_message_hub_t) :=
  HubState (queues_ h) (priority_msg_lists_ h) (incoming_messages_ h)
           (is_woken_up_ h) e (current_thread_ h).

(** [linux_thread_pool_t], as far as the hubs go:
    [thread_pool_->threads[i]->message_hub] is the hub of thread [i]. *)
Abbreviation thread_pool_t := (list linux_message_hub_t).

(** What a message's [on_thread_switch] callback may do to the hub it runs
    on: calls of the two public store functions. *)
Inductive store_call :=
| call_store_message_ordered (nthread : nat) (msg : linux_thread_message_t)
| call_store_message_sometime (nthread : nat) (msg : linux_thread_message_t).

(** One processed message, as seen by an observer of [on_event]: either its
    [on_thread_switch] ran, or (debug builds) it was sent round the loop
    again.  [from_priority] is the priority list it was taken from. *)
Inductive hub_event :=
| ev_on_thread_switch (from_priority : Z) (m : linux_thread_message_t)
| ev_reloop (from_priority : Z) (m : linux_thread_message_t).

Definition event_priority (e : hub_event) : Z :=
  match e with
  | ev_on_thread_switch p _ => p
  | ev_reloop p _ => p
  end.

Definition event_msg (e : hub_event) : linux_thread_message_t :=
  match e with
  | ev_on_thread_switch _ m => m
  | ev_reloop _ m => m
  end.

(** Messages whose [on_thread_switch] ran, in order. *)
Fixpoint delivered (tr : list hub_event) : msg_list_t :=
  match tr with
  | [] => []
  | ev_on_thread_switch _ m :: tr' => m :: delivered tr'
  | ev_reloop _ _ :: tr' => delivered tr'
  end.

(** Messages taken from the list of priority [p], in order. *)
Fixpoint processed_at (p : Z) (tr : list hub_event) : msg_list_t :=
  match tr with
  | [] => []
  | e :: tr' =>
      if decide (event_priority e = p)
      then event_msg e :: processed_at p tr'
      else processed_at p tr'
  end.

Section Scheduler.

(** The scheduler constants live in [config/args.hpp]. *)
Variables MESSAGE_SCHEDULER_MIN_PRIORITY MESSAGE_SCHEDULER_MAX_PRIORITY : Z.
Variable MESSAGE_SCHEDULER_ORDERED_PRIORITY : Z.
Variable NUM_SCHEDULER_PRIORITIES : Z.
Variable MESSAGE_SCHEDULER_GRANULARITY : Z.

(** The virtual [linux_thread_message_t::on_thread_switch]. *)
Variable on_thread_switch : linux_thread_message_t -> list store_call.

(** The relations between the constants that the hub relies on. *)
Definition scheduler_args_ok : Prop :=
  MESSAGE_SCHEDULER_MIN_PRIORITY <= MESSAGE_SCHEDULER_ORDERED_PRIORITY
  /\ MESSAGE_SCHEDULER_ORDERED_PRIORITY <= MESSAGE_SCHEDULER_MAX_PRIORITY
  /\ NUM_SCHEDULER_PRIORITIES =
     MESSAGE_SCHEDULER_MAX_PRIORITY - MESSAGE_SCHEDULER_MIN_PRIORITY + 1
  /\ 0 <= MESSAGE_SCHEDULER_GRANULARITY.

(** Constructor: every list is empty and nobody has woken the hub. *)
Definition hub_init (n_threads current_thread : nat) : linux_message_hub_t :=
  HubState (replicate n_threads [])
           (replicate (Z.to_nat NUM_SCHEDULER_PRIORITIES) [])
           [] false 0 current_thread.

(** [queues_[nthread.threadnum].msg_local_list.push_back(msg)]; the
    [rassert] bounds [nthread] by the number of threads. *)
Definition do_store_message (nthread : nat) (msg : linux_thread_message_t)
           (h : linux_message_hub_t) : linux_message_hub_t :=
  set_queues_ (alter (fun q => q ++ [msg]) nthread (queues_ h)) h.

(** [RDB_RELOOP_MESSAGES] is defined to 0, so both store functions reset
    [reloop_count_] to 0. *)
Definition store_message_ordered (nthread : nat) (msg : linux_thread_message_t)
           (h : linux_message_hub_t) : linux_message_hub_t :=
  do_store_message nthread (set_is_ordered true (set_reloop_count_ 0 msg)) h.

Definition store_message_sometime (nthread : nat) (msg : linux_thread_message_t)
           (h : linux_message_hub_t) : linux_message_hub_t :=
  do_store_message nthread (set_reloop_count_ 0 msg) h.

Definition check_and_set_is_woken_up (h : linux_message_hub_t)
  : bool * linux_message_hub_t :=
  (is_woken_up_ h, set_is_woken_up_ true h).

(** [event_.wakey_wakey()] when [do_wake_up] holds. *)
Definition wakey_wakey_if (do_wake_up : bool) (h : linux_message_hub_t) :=
  if do_wake_up then set_event_ (S (event_ h)) h else h.

Definition insert_external_message (msg : linux_thread_message_t)
           (h : linux_message_hub_t) : linux_message_hub_t :=
  let '(was_woken_up, h1) := check_and_set_is_woken_up h in
  let do_wake_up := negb was_woken_up in
  let h2 := set_incoming_messages_ (incoming_messages_ h1 ++ [msg]) h1 in
  wakey_wakey_if do_wake_up h2.

(** [get_priority_msg_list]: the index into [priority_msg_lists_]; the two
    [rassert]s make a priority outside the scheduler's range an error. *)
Definition priority_index (priority : Z) : option nat :=
  if decide (MESSAGE_SCHEDULER_MIN_PRIORITY <= priority
             /\ priority <= MESSAGE_SCHEDULER_MAX_PRIORITY)
  then Some (Z.to_nat (priority - MESSAGE_SCHEDULER_MIN_PRIORITY))
  else None.

Definition get_priority_msg_list (priority : Z) (h : linux_message_hub_t)
  : msg_list_t :=
  match priority_index priority with
  | Some i => default [] (priority_msg_lists_ h !! i)
  | None => []
  end.

(** Writing through the reference returned by [get_priority_msg_list]. *)
Definition update_priority_msg_list (priority : Z)
           (f : msg_list_t -> msg_list_t) (h : linux_message_hub_t)
  : linux_message_hub_t :=
  match priority_index priority with
  | Some i => set_priority_msg_lists_ (alter f i (priority_msg_lists_ h)) h
  | None => h
  end.

(** Step 2 of [sort_incoming_messages_by_priority]: the [while] loop over
    [new_messages]. *)
Definition effective_priority (m : linux_thread_message_t) : Z :=
  if is_ordered m then MESSAGE_SCHEDULER_ORDERED_PRIORITY else priority m.

(** The message as it is pushed onto its priority list: [is_ordered] is
    reset. *)
Definition sorted_msg (m : linux_thread_message_t) : linux_thread_message_t :=
  if is_ordered m then set_is_ordered false m else m.

Fixpoint sort_new_messages (new_messages : msg_list_t)
         (h : linux_message_hub_t) : linux_message_hub_t :=
  match new_messages with
  | [] => h
  | m :: rest =>
      sort_new_messages rest
        (update_priority_msg_list (effective_priority m)
                                  (fun l => l ++ [sorted_msg m]) h)
  end.

Definition sort_incoming_messages_by_priority (reset_is_woken_up : bool)
           (h : linux_message_hub_t) : linux_message_hub_t :=
  let new_messages := incoming_messages_ h in
  let h1 := set_incoming_messages_ [] h in
  let h2 := if reset_is_woken_up then set_is_woken_up_ false h1 else h1 in
  sort_new_messages new_messages h2.

(** [deliver_local_messages]; [thread_pool_->thread_id] is the id of the
    calling thread, which is the hub's own thread. *)
Definition deliver_local_messages (h : linux_message_hub_t)
  : linux_message_hub_t :=
  let local_thread := current_thread_ h in
  match default [] (queues_ h !! local_thread) with
  | [] => h
  | local =>
      let h1 := set_incoming_messages_ (incoming_messages_ h ++ local) h in
      let h2 := set_queues_ (<[local_thread := []]> (queues_ h1)) h1 in
      let '(was_woken_up, h3) := check_and_set_is_woken_up h2 in
      wakey_wakey_if (negb was_woken_up) h3
  end.

(** The stores a callback performs, on the hub the callback runs on. *)
Definition run_store_call (c : store_call) (h : linux_message_hub_t)
  : linux_message_hub_t :=
  match c with
  | call_store_message_ordered nthread msg => store_message_ordered nthread msg h
  | call_store_message_sometime nthread msg => store_message_sometime nthread msg h
  end.

Definition run_on_thread_switch (m : linux_thread_message_t)
           (h : linux_message_hub_t) : linux_message_hub_t :=
  foldl (fun h c => run_store_call c h) h (on_thread_switch m).

(** The local state of [on_event] together with what it has done so far. *)
Record pass_state := PassState {
  ps_hub : linux_message_hub_t;
  ps_left : list Z;   (* num_initial_msgs_left_to_process *)
  ps_trace : list hub_event;
}.

(** [if (n > 0) --n] on a counter of [num_initial_msgs_left_to_process]. *)
Definition decrement_if_positive (n : Z) : Z :=
  if decide (0 < n) then n - 1 else n.

(** The body of the inner [for] loop of [on_event], for the message [m] at
    the head of the list of [current_priority]. *)
Definition process_message (current_priority : Z) (m : linux_thread_message_t)
           (st : pass_state) : pass_state :=
  let h1 := update_priority_msg_list current_priority (drop 1) (ps_hub st) in
  let left1 :=
    match priority_index current_priority with
    | Some i => alter decrement_if_positive i (ps_left st)
    | None => ps_left st
    end in
  if decide (0 < reloop_count_ m)
  then
    let m' := set_reloop_count_ (reloop_count_ m - 1) m in
    PassState (do_store_message (current_thread_ h1) m' h1) left1
              (ps_trace st ++ [ev_reloop current_priority m])
  else
    PassState (run_on_thread_switch m h1) left1
              (ps_trace st ++ [ev_on_thread_switch current_priority m]).

(** The inner [for] loop: it stops when the list is empty or when
    [to_process_from_priority] has been counted down to 0. *)
Fixpoint process_priority (to_process_from_priority : nat)
         (current_priority : Z) (st : pass_state) : pass_state :=
  match to_process_from_priority with
  | O => st
  | S n =>
      match get_priority_msg_list current_priority (ps_hub st) with
      | [] => st
      | m :: _ =>
          process_priority n current_priority
                           (process_message current_priority m st)
      end
  end.

(** [std::max(1ul, effective_granularity >> priority_exponent)]. *)
Definition to_process_from_priority (effective_granularity : Z)
           (current_priority : Z) : Z :=
  let priority_exponent := MESSAGE_SCHEDULER_MAX_PRIORITY - current_priority in
  Z.max 1 (Z.shiftr effective_granularity priority_exponent).

(** The outer [for] loop, from [MESSAGE_SCHEDULER_MAX_PRIORITY] down to
    [MESSAGE_SCHEDULER_MIN_PRIORITY]; [n] counts the remaining levels. *)
Fixpoint process_priorities (n : nat) (effective_granularity : Z)
         (current_priority : Z) (st : pass_state) : pass_state :=
  match n with
  | O => st
  | S k =>
      process_priorities k effective_granularity (current_priority - 1)
        (process_priority
           (Z.to_nat (to_process_from_priority effective_granularity
                                               current_priority))
           current_priority st)
  end.

Definition total_pending_msgs (h : linux_message_hub_t) : Z :=
  foldl (fun acc l => acc + Z.of_nat (length l)) 0
        (take (Z.to_nat NUM_SCHEDULER_PRIORITIES) (priority_msg_lists_ h)).

Definition effective_granularity (h : linux_message_hub_t) : Z :=
  Z.min (total_pending_msgs h) MESSAGE_SCHEDULER_GRANULARITY.

(** The sizes recorded in the initial pass. *)
Definition initial_msgs_left (h : linux_message_hub_t) : list Z :=
  (fun l => Z.of_nat (length l)) <$>
    take (Z.to_nat NUM_SCHEDULER_PRIORITIES) (priority_msg_lists_ h).

(** The last [for] loop of the body: is every counter 0? *)
Definition initial_batch_has_been_processed (left : list Z) : bool :=
  forallb (fun n => negb (0 <? n))
          (take (Z.to_nat NUM_SCHEDULER_PRIORITIES) left).

(** The part of the loop body after the messages have been pulled:
    counting, computing the granularity and processing. *)
Definition process_pass (initial_pass : bool) (st : pass_state) : pass_state :=
  let h := ps_hub st in
  let left := if initial_pass then initial_msgs_left h else ps_left st in
  process_priorities
    (Z.to_nat (MESSAGE_SCHEDULER_MAX_PRIORITY
               - MESSAGE_SCHEDULER_MIN_PRIORITY + 1))
    (effective_granularity h)
    MESSAGE_SCHEDULER_MAX_PRIORITY
    (PassState h left (ps_trace st)).

(** Messages that other threads append to [incoming_messages_] (under the
    spinlock) while [on_event] runs: [arrivals k] gives those that arrive
    before, and those that arrive after, [deliver_local_messages] of pass
    [k] and before that pass pulls the incoming list. *)
Definition arrivals_t := nat -> msg_list_t * msg_list_t.

(** The critical section of [push_messages] (and of
    [deliver_local_messages]) on the receiving hub. *)
Definition receive_pushed (msgs : msg_list_t) (h : linux_message_hub_t)
  : linux_message_hub_t :=
  let '(was_woken_up, h1) := check_and_set_is_woken_up h in
  let h2 := set_incoming_messages_ (incoming_messages_ h1 ++ msgs) h1 in
  wakey_wakey_if (negb was_woken_up) h2.

(** What the arrivals of one window do to the hub: the threads that have
    something for it run that critical section ([push_messages], or
    [insert_external_message], which has the same one), so the hub is
    flagged and woken up once; with nothing arriving it is not touched. *)
Definition receive (msgs : msg_list_t) (h : linux_message_hub_t)
  : linux_message_hub_t :=
  match msgs with
  | [] => h
  | _ :: _ => receive_pushed msgs h
  end.

(** The first half of an iteration of the [do ... while] loop of
    [on_event]: local messages are delivered (not in the initial pass) and
    the incoming list is pulled and sorted. *)
Definition pull_pass (initial_pass : bool)
           (arrived : msg_list_t * msg_list_t) (h : linux_message_hub_t)
  : linux_message_hub_t :=
  let h0 := receive (fst arrived) h in
  let h1 := if initial_pass then h0 else deliver_local_messages h0 in
  let h2 := receive (snd arrived) h1 in
  sort_incoming_messages_by_priority initial_pass h2.

(** One iteration of the [do ... while] loop of [on_event]. *)
Definition on_event_pass (initial_pass : bool)
           (arrived : msg_list_t * msg_list_t) (st : pass_state) : pass_state :=
  process_pass initial_pass
    (PassState (pull_pass initial_pass arrived (ps_hub st))
               (ps_left st) (ps_trace st)).

(** The [do ... while (!initial_batch_has_been_processed)] loop; [fuel]
    bounds the number of iterations, [k] numbers them. *)
Fixpoint on_event_loop (fuel : nat) (arrivals : arrivals_t) (k : nat)
         (initial_pass : bool) (st : pass_state) : option pass_state :=
  match fuel with
  | O => None
  | S fuel' =>
      let st' := on_event_pass initial_pass (arrivals k) st in
      if initial_batch_has_been_processed (ps_left st')
      then Some st'
      else on_event_loop fuel' arrivals (S k) false st'
  end.

(** [on_event]: consume the wake-ups, then loop.  The result carries the
    hub, the final value of [num_initial_msgs_left_to_process] and the
    messages processed, in order. *)
Definition on_event (fuel : nat) (arrivals : arrivals_t)
           (h : linux_message_hub_t) : option pass_state :=
  on_event_loop fuel arrivals 0 true (PassState (set_event_ 0 h) [] []).

(** *** Vocabulary of the statements about [on_event] *)

(** The priority list with index [i]. *)
Definition priority_msg_list_at (h : linux_message_hub_t) (i : nat) : msg_list_t :=
  default [] (priority_msg_lists_ h !! i).

(** The quota of a pass as a number of loop iterations. *)
Definition quota (effective_granularity current_priority : Z) : nat :=
  Z.to_nat (to_process_from_priority effective_granularity current_priority).

(** The messages of [new_messages] that sorting pushes onto the priority
    list with index [i], in order. *)
Definition sorted_onto (i : nat) (new_messages : msg_list_t) : msg_list_t :=
  new_messages ≫= (fun m =>
    if decide (priority_index (effective_priority m) = Some i)
    then [sorted_msg m] else []).

(** A trace entry agrees with the debug counter of its message. *)
Definition event_ok (e : hub_event) : Prop :=
  match e with
  | ev_on_thread_switch _ m => reloop_count_ m <= 0
  | ev_reloop _ m => 0 < reloop_count_ m
  end.

(** The hub has its array of priority lists. *)
Definition hub_ok (h : linux_message_hub_t) : Prop :=
  length (priority_msg_lists_ h) = Z.to_nat NUM_SCHEDULER_PRIORITIES.

(** The state of the hub when the initial pass of [on_event] counts its
    messages: the incoming list has been pulled and sorted. *)
Definition at_initial_count (arrivals : arrivals_t) (h : linux_message_hub_t)
  : linux_message_hub_t :=
  pull_pass true (arrivals 0%nat) (set_event_ 0 h).

(** The loop invariant of [on_event], relative to the priority lists
    [init] that the initial pass counted: the messages taken from a list
    followed by those still on it start with the counted ones, and the
    counter says how many counted ones are still to be taken. *)
Definition on_event_inv (init : nat -> msg_list_t) (st : pass_state) : Prop :=
  hub_ok (ps_hub st)
  /\ length (ps_left st) = Z.to_nat NUM_SCHEDULER_PRIORITIES
  /\ Forall event_ok (ps_trace st)
  /\ forall p i, priority_index p = Some i ->
       (exists later,
           processed_at p (ps_trace st) ++ priority_msg_list_at (ps_hub st) i
           = init i ++ later)
       /\ ps_left st !! i =
          Some (Z.max 0 (Z.of_nat (length (init i))
                         - Z.of_nat (length (processed_at p (ps_trace st))))).

(** No counter of [num_initial_msgs_left_to_process] exceeds [b]. *)
Definition left_bounded (b : nat) (st : pass_state) : Prop :=
  forall i c, ps_left st !! i = Some c -> c <= Z.of_nat b.

(** *** The thread pool *)

Definition thread_pool_init (n_threads : nat) : thread_pool_t :=
  (fun i => hub_init n_threads i) <$> seq 0 n_threads.

(** The body of the loop of [push_messages], run by thread [me] for the
    target thread [i]; [append_and_clear] empties the local list. *)
Definition push_messages_to (me i : nat) (pool : thread_pool_t) : thread_pool_t :=
  match pool !! me with
  | None => pool
  | Some this =>
      match default [] (queues_ this !! i) with
      | [] => pool
      | msgs =>
          alter (fun h => set_queues_ (<[i := []]> (queues_ h)) h) me
                (alter (receive_pushed msgs) i pool)
      end
  end.

Definition push_messages (me : nat) (pool : thread_pool_t) : thread_pool_t :=
  foldl (fun pool i => push_messages_to me i pool) pool (seq 0 (length pool)).

(** What the threads of a pool do to its hubs, one call at a time.  The
    three steps of a pass of [on_event] are separate actions, so that the
    calls of other threads interleave with them as the spinlock allows. *)
Inductive action :=
| act_store_message_ordered (me nthread : nat) (msg : linux_thread_message_t)
| act_store_message_sometime (me nthread : nat) (msg : linux_thread_message_t)
| act_insert_external_message (target : nat) (msg : linux_thread_message_t)
| act_push_messages (me : nat)
| act_deliver_local_messages (me : nat)
| act_sort_incoming_messages_by_priority (me : nat) (reset_is_woken_up : bool)
| act_process_pass (me : nat) (initial_pass : bool) (num_left : list Z).

(** The history of a pool: which messages were handed to which store
    function, and which messages had their [on_thread_switch] run. *)
Inductive log_entry :=
| log_store (ordered : bool) (me nthread : nat) (msg : linux_thread_message_t)
| log_insert_external (target : nat) (msg : linux_thread_message_t)
| log_on_thread_switch (me : nat) (msg : linux_thread_message_t).

Definition log_of_store_call (me : nat) (c : store_call) : log_entry :=
  match c with
  | call_store_message_ordered nthread msg => log_store true me nthread msg
  | call_store_message_sometime nthread msg => log_store false me nthread msg
  end.

Definition log_of_event (me : nat) (e : hub_event) : list log_entry :=
  match e with
  | ev_on_thread_switch _ m =>
      log_on_thread_switch me m :: (log_of_store_call me <$> on_thread_switch m)
  | ev_reloop _ _ => []
  end.

Definition log_of_trace (me : nat) (tr : list hub_event) : list log_entry :=
  tr ≫= log_of_event me.

Definition run_action (a : action) (s : thread_pool_t * list log_entry)
  : thread_pool_t * list log_entry :=
  let '(pool, log) := s in
  match a with
  | act_store_message_ordered me nthread msg =>
      (alter (store_message_ordered nthread msg) me pool,
       log ++ [log_store true me nthread msg])
  | act_store_message_sometime me nthread msg =>
      (alter (store_message_sometime nthread msg) me pool,
       log ++ [log_store false me nthread msg])
  | act_insert_external_message target msg =>
      (alter (insert_external_message msg) target pool,
       log ++ [log_insert_external target msg])
  | act_push_messages me => (push_messages me pool, log)
  | act_deliver_local_messages me => (alter deliver_local_messages me pool, log)
  | act_sort_incoming_messages_by_priority me reset =>
      (alter (sort_incoming_messages_by_priority reset) me pool, log)
  | act_process_pass me initial_pass num_left =>
      match pool !! me with
      | None => (pool, log)
      | Some h =>
          let st := process_pass initial_pass (PassState h num_left []) in
          (<[me := ps_hub st]> pool, log ++ log_of_trace me (ps_trace st))
      end
  end.

Definition run_actions (acts : list action) (s : thread_pool_t * list log_entry)
  : thread_pool_t * list log_entry :=
  foldl (fun s a => run_action a s) s acts.

(** The messages handed to [store_message_ordered] by thread [src] for
    thread [tgt], and the messages delivered on thread [tgt], as they
    appear in a log. *)
Definition stored_ordered (src tgt : nat) (log : list log_entry) : list nat :=
  log ≫= (fun e =>
    match e with
    | log_store true me nthread msg =>
        if decide (me = src /\ nthread = tgt) then [msg_id msg] else []
    | _ => []
    end).

Definition switched_on (tgt : nat) (log : list log_entry) : list nat :=
  log ≫= (fun e =>
    match e with
    | log_on_thread_switch me msg =>
        if decide (me = tgt) then [msg_id msg] else []
    | _ => []
    end).

(** Every message object that was ever handed to the hubs of the pool. *)
Definition handed_over (log : list log_entry) : list nat :=
  log ≫= (fun e =>
    match e with
    | log_store _ _ _ msg => [msg_id msg]
    | log_insert_external _ msg => [msg_id msg]
    | log_on_thread_switch _ _ => []
    end).

(** The messages handed to [store_message_ordered] for thread [tgt] by
    any thread. *)
Definition stored_ordered_to (tgt : nat) (log : list log_entry) : list nat :=
  log ≫= (fun e =>
    match e with
    | log_store true _ nthread msg =>
        if decide (nthread = tgt) then [msg_id msg] else []
    | _ => []
    end).

(** [a] occurs in [l] at an earlier position than [b]. *)
Definition occurs_before (a b : nat) (l : list nat) : Prop :=
  exists l1 l2 l3, l = l1 ++ a :: l2 ++ b :: l3.

(** The [rassert] of [do_store_message]: thread numbers are those of the
    pool. *)
Definition action_ok (n_threads : nat) (a : action) : Prop :=
  match a with
  | act_store_message_ordered me nthread _
  | act_store_message_sometime me nthread _ =>
      (me < n_threads)%nat /\ (nthread < n_threads)%nat
  | act_insert_external_message me _
  | act_push_messages me
  | act_deliver_local_messages me
  | act_sort_incoming_messages_by_priority me _
  | act_process_pass me _ _ => (me < n_threads)%nat
  end.

Definition store_call_thread (c : store_call) : nat :=
  match c with
  | call_store_message_ordered nthread _ => nthread
  | call_store_message_sometime nthread _ => nthread
  end.

Definition callbacks_ok (n_threads : nat) : Prop :=
  forall m c, c ∈ on_thread_switch m -> (store_call_thread c < n_threads)%nat.

(** The shape of a pool of [n_threads] threads. *)
Definition pool_ok (n_threads : nat) (pool : thread_pool_t) : Prop :=
  length pool = n_threads
  /\ forall u h, pool !! u = Some h ->
       length (queues_ h) = n_threads /\ hub_ok h /\ current_thread_ h = u.

(** Where a message can be: on the local list of thread [u] for thread
    [j], on the incoming list of thread [u], or on the priority list with
    index [i] of thread [u]. *)
Inductive slot :=
| slot_queue (u j : nat)
| slot_incoming (u : nat)
| slot_priority (u i : nat).

#[global] Instance slot_eq_dec : EqDecision slot.
Proof. solve_decision. Defined.

Definition slot_thread (s : slot) : nat :=
  match s with
  | slot_queue u _ | slot_incoming u | slot_priority u _ => u
  end.

Definition content_hub (h : linux_message_hub_t) (s : slot) : msg_list_t :=
  match s with
  | slot_queue _ j => default [] (queues_ h !! j)
  | slot_incoming _ => incoming_messages_ h
  | slot_priority _ i => priority_msg_list_at h i
  end.

Definition content (pool : thread_pool_t) (s : slot) : msg_list_t :=
  match pool !! slot_thread s with
  | Some h => content_hub h s
  | None => []
  end.

Definition upd (c : slot -> msg_list_t) (s : slot) (l : msg_list_t)
  : slot -> msg_list_t :=
  fun s' => if decide (s' = s) then l else c s'.

(** The way of an ordered message from thread [src] to thread [tgt]: the
    local list of [src], the incoming list of [tgt], the priority list of
    [MESSAGE_SCHEDULER_ORDERED_PRIORITY] (with index [io]) of [tgt]. *)
Definition on_the_way (src tgt io : nat) (s : slot) : Prop :=
  s = slot_priority tgt io \/ s = slot_incoming tgt \/ s = slot_queue src tgt.

Definition the_way (src tgt io : nat) (c : slot -> msg_list_t) : msg_list_t :=
  c (slot_priority tgt io) ++ c (slot_incoming tgt) ++ c (slot_queue src tgt).

(** The invariant behind the order of ordered messages, for the messages
    of [src] to [tgt]: those delivered, followed by those on the way, are
    the stored ones in the order of storing; none of them is anywhere
    else. *)
Record ordered_inv (src tgt io : nat) (c : slot -> msg_list_t)
       (log : list log_entry) : Prop := {
  inv_order :
    filter (fun x => x ∈ stored_ordered src tgt log)
           (switched_on tgt log ++ (msg_id <$> the_way src tgt io c))
    = stored_ordered src tgt log;
  inv_elsewhere :
    forall s m, ~ on_the_way src tgt io s -> m ∈ c s ->
                msg_id m ∉ stored_ordered src tgt log;
  inv_is_ordered :
    forall m, m ∈ c (slot_incoming tgt) ++ c (slot_queue src tgt) ->
              msg_id m ∈ stored_ordered src tgt log -> is_ordered m = true;
  inv_reloop :
    forall m, m ∈ the_way src tgt io c ->
              msg_id m ∈ stored_ordered src tgt log -> reloop_count_ m <= 0;
  inv_known :
    forall s m, m ∈ c s -> msg_id m ∈ handed_over log;
  inv_switched_known :
    forall x, x ∈ switched_on tgt log -> x ∈ handed_over log;
}.

(** A step from [(c, log)] to [(c', log')] that only extends the log and
    keeps the invariant, as long as no message object is handed over
    twice. *)
Definition safe_step (src tgt io : nat)
           (s s' : (slot -> msg_list_t) * list log_entry) : Prop :=
  (exists ext, snd s' = snd s ++ ext)
  /\ (ordered_inv src tgt io (fst s) (snd s) ->
      NoDup (handed_over (snd s')) ->
      ordered_inv src tgt io (fst s') (snd s')).

(** The same for a step between two states of a pool of [n_threads]
    threads, which also keeps the shape of the pool. *)
Definition step_ok (n_threads src tgt io : nat)
           (s s' : thread_pool_t * list log_entry) : Prop :=
  pool_ok n_threads (fst s) ->
  pool_ok n_threads (fst s')
  /\ safe_step src tgt io (content (fst s), snd s) (content (fst s'), snd s').

(** The state of the pool while thread [me] is inside a pass of
    [on_event] that started from [(pool, log)]. *)
Definition lift_pass (me : nat) (pool : thread_pool_t) (log : list log_entry)
           (st : pass_state) : thread_pool_t * list log_entry :=
  (<[me := ps_hub st]> pool, log ++ log_of_trace me (ps_trace st)).

(** *** The constructor's check and the destructor's guarantees *)

(** The debug check of the constructor,
    [MESSAGE_SCHEDULER_GRANULARITY < (1 << (NUM_SCHEDULER_PRIORITIES))]: when
    it holds, the constructor logs that the granularity is too small to
    honor some of the lower priorities. *)
Definition constructor_warns : bool :=
  MESSAGE_SCHEDULER_GRANULARITY <? Z.shiftl 1 NUM_SCHEDULER_PRIORITIES.

(** [msg_list_t::empty]. *)
Definition msg_list_empty (l : msg_list_t) : bool :=
  match l with
  | [] => true
  | _ :: _ => false
  end.

(** The three [guarantee]s of the destructor: the local list for every
    thread of the pool, the list of every priority from
    [MESSAGE_SCHEDULER_MIN_PRIORITY] to [MESSAGE_SCHEDULER_MAX_PRIORITY], and
    the incoming list are empty. *)
Definition destructor_guarantees (n_threads : nat) (h : linux_message_hub_t)
  : bool :=
  forallb (fun i => msg_list_empty (default [] (queues_ h !! i)))
          (seq 0 n_threads)
  && forallb (fun k => msg_list_empty
                         (get_priority_msg_list
                            (MESSAGE_SCHEDULER_MIN_PRIORITY + Z.of_nat k) h))
             (seq 0 (Z.to_nat (MESSAGE_SCHEDULER_MAX_PRIORITY
                               - MESSAGE_SCHEDULER_MIN_PRIORITY + 1)))
  && msg_list_empty (incoming_messages_ h).

(** *** Vocabulary of the statements about waking up *)

(** At most one wake-up is pending on [event_], and none unless
    [is_woken_up_] is set. *)
Definition wake_ok (h : linux_message_hub_t) : Prop :=
  (event_ h <= if is_woken_up_ h then 1 else 0)%nat.

(** No other thread hands anything to the hub while [on_event] runs. *)
Definition silent_arrivals : arrivals_t := fun _ => ([], []).

(** Every action but the pull of the initial pass of [on_event], which is
    the one place where [is_woken_up_] is reset. *)
Definition no_reset (a : action) : Prop :=
  match a with
  | act_sort_incoming_messages_by_priority _ true => False
  | _ => True
  end.

End Scheduler.

(** *** A concrete scheduler

    Five priorities from -2 to 2, ordered messages at priority 0, a
    granularity of 32; [example_hub] is the hub of thread 0 of two threads
    with seven messages on its incoming list, one of them ordered. *)
Definition example_on_thread_switch (m : linux_thread_message_t) : list store_call :=
  if decide (msg_id m = 1%nat)
  then [call_store_message_ordered 0 (Msg 100 2 false 0)]
  else [].

Definition example_hub : linux_message_hub_t :=
  HubState [[]; []] [[]; []; []; []; []]
           [Msg 1 (-2) false 0; Msg 2 (-2) false 0; Msg 3 (-2) false 0;
            Msg 4 2 false 0; Msg 5 0 false 0; Msg 6 2 true 0; Msg 7 1 false 0]
           true 1 0.

Definition example_arrivals : arrivals_t :=
  fun k => match k with
           | 1%nat => ([Msg 50 1 false 0], [])
           | _ => ([], [])
           end.

(** Thread 0 hands two ordered messages for thread 1 to its hub and pushes
    them; thread 1 runs two passes of [on_event]. *)
Definition example_actions_one_thread : list action :=
  [act_store_message_ordered 0 1 (Msg 1 2 false 0);
   act_store_message_ordered 0 1 (Msg 2 (-2) false 0);
   act_push_messages 0;
   act_sort_incoming_messages_by_priority 1 true;
   act_process_pass 1 true [];
   act_sort_incoming_messages_by_priority 1 false;
   act_process_pass 1 false []].

(** Thread 0 hands an ordered message for thread 1 to its hub; then thread
    1 hands one for itself to its own hub, pushes it and runs a pass of
    [on_event]; only then thread 0 pushes, and thread 1 runs another pass. *)
Definition example_actions_two_threads : list action :=
  [act_store_message_ordered 0 1 (Msg 1 0 false 0);
   act_store_message_ordered 1 1 (Msg 2 0 false 0);
   act_push_messages 1;
   act_sort_incoming_messages_by_priority 1 true;
   act_process_pass 1 true [];
   act_push_messages 0;
   act_sort_incoming_messages_by_priority 1 true;
   act_process_pass 1 true []].

End Hub.

(** ** The mirrored cache ([buffer_cache/mirrored/mirrored.hpp]) *)
Module Cache.

Local Open Scope N_scope.

(** [mc_inner_buf_t::version_id_t] is [uint64_t]; [faux_version_id] is
    smaller than any valid version id.  Versions are only compared here. *)
Abbreviation version_id_t := N.

Definition faux_version_id : version_id_t := 0.

(** [void *data]: the address of a block-sized buffer. *)
Abbreviation data_ptr := nat.

(** [mc_transaction_t *]. *)
Abbreviation txn_ptr := nat.

(** *** [mc_cache_t]: the registry of active snapshots *)

(** [snapshots_map_t] is [std::map<version_id_t, mc_transaction_t*>]: the
    sequence of its entries in iteration order, which is the order of the
    keys.  An iterator is a position in that sequence, [end()] the length. *)
Abbreviation snapshots_map_t := (list (version_id_t * txn_ptr)).

(** The keys of a [std::map] are strictly increasing along the iteration. *)
Definition map_ok (m : snapshots_map_t) : Prop :=
  StronglySorted (fun a b => a.1 < b.1) m.

(** [std::map::lower_bound]: the first entry whose key is not less than
    [k]. *)
Fixpoint lower_bound (k : version_id_t) (m : snapshots_map_t) : nat :=
  match m with
  | [] => O
  | (k', _) :: rest => if k <=? k' then O else S (lower_bound k rest)
  end.

(** [std::map::upper_bound]: the first entry whose key is greater than
    [k]. *)
Fixpoint upper_bound (k : version_id_t) (m : snapshots_map_t) : nat :=
  match m with
  | [] => O
  | (k', _) :: rest => if k <? k' then O else S (upper_bound k rest)
  end.

(** [std::map::insert]: the entry goes to its place in the order; a key
    that is present keeps its value. *)
Fixpoint map_insert (k : version_id_t) (t : txn_ptr) (m : snapshots_map_t)
  : snapshots_map_t :=
  match m with
  | [] => [(k, t)]
  | (k', t') :: rest =>
      if k <? k' then (k, t) :: m
      else if k =? k' then m
      else (k', t') :: map_insert k t rest
  end.

Record mc_cache_t := McCache {
  shutting_down : bool;
  num_live_transactions : Z;
  max_patches_size_ratio : N;
  active_snapshots : snapshots_map_t;
  next_snapshot_version : version_id_t;
}.

Definition get_current_version_id (c : mc_cache_t) : version_id_t :=
  next_snapshot_version c.

(** [no_active_snapshots()]: [active_snapshots.empty()]. *)
Definition no_active_snapshots (c : mc_cache_t) : bool :=
  match active_snapshots c with
  | [] => true
  | _ :: _ => false
  end.

(** [active_snapshots.begin()->first], behind the emptiness test. *)
Definition get_min_snapshot_version (default_version : version_id_t)
           (c : mc_cache_t) : version_id_t :=
  if no_active_snapshots c then default_version
  else match head (active_snapshots c) with
       | Some (k, _) => k
       | None => default_version
       end.

(** [active_snapshots.rbegin()->first], behind the emptiness test. *)
Definition get_max_snapshot_version (default_version : version_id_t)
           (c : mc_cache_t) : version_id_t :=
  if no_active_snapshots c then default_version
  else match last (active_snapshots c) with
       | Some (k, _) => k
       | None => default_version
       end.

(** The overload [no_active_snapshots(from_version, to_version)]: the two
    iterators are equal. *)
Definition no_active_snapshots_between (from_version to_version : version_id_t)
           (c : mc_cache_t) : bool :=
  Nat.eqb (lower_bound from_version (active_snapshots c))
          (upper_bound to_version (active_snapshots c)).

(** *** [mc_inner_buf_t] *)

(** Modelled from the spec: [access_t] of [concurrency/access.hpp], which
    is not part of the sources at hand; the spec (4.3) names the modes read,
    read-outdated-OK and write/intent. *)
Inductive access_t :=
| rwi_read
| rwi_read_outdated_ok
| rwi_write
| rwi_intent.

(** Modelled from the spec: [rwi_lock_t] of [concurrency/rwi_lock.hpp],
    which is not part of the sources at hand.  The spec (4.3) asks for
    several readers or one writer, and calls the lock idle when nobody
    holds it or waits for it. *)
Record rwi_lock_t := RwiLock {
  lock_readers : N;
  lock_writer : bool;
  lock_waiting : list access_t;
}.

Definition lock_idle (l : rwi_lock_t) : bool :=
  (lock_readers l =? 0) && negb (lock_writer l)
  && match lock_waiting l with [] => true | _ :: _ => false end.

(** [mc_inner_buf_t::buf_snapshot_info_t]. *)
Record buf_snapshot_info_t := BufSnapshotInfo {
  snap_data : data_ptr;
  snapshotted_version : version_id_t;
  snap_refcount : N;
}.

(** [snapshot_data_list_t] is [std::list<buf_snapshot_info_t>]. *)
Abbreviation snapshot_data_list_t := (list buf_snapshot_info_t).

(** The data members of [mc_inner_buf_t]; [dirty] is
    [writeback_buf.dirty]. *)
Record mc_inner_buf_t := McInnerBuf {
  block_id : N;
  data : data_ptr;
  version_id : version_id_t;
  lock : rwi_lock_t;
  next_patch_counter : N;
  refcount : N;
  do_delete : bool;
  write_empty_deleted_block : bool;
  cow_will_be_needed : bool;
  dirty : bool;
  snapshots : snapshot_data_list_t;
}.

(** The constructors: a buffer starts without snapshots, without holders,
    with an idle lock. *)
Definition mc_inner_buf_init (block : N) (d : data_ptr) (v : version_id_t)
  : mc_inner_buf_t :=
  McInnerBuf block d v (RwiLock 0 false []) 0 0 false false false false [].

(** Modelled from the spec: [mc_inner_buf_t::safe_to_unload], declared in
    the header and defined in [mirrored.cc], which is not part of the
    sources at hand.  Spec (3): a buffer with no acquisition outstanding, no
    snapshot, clean and with an idle lock is safe to evict. *)
Definition safe_to_unload (b : mc_inner_buf_t) : bool :=
  (refcount b =? 0)
  && match snapshots b with [] => true | _ :: _ => false end
  && negb (dirty b)
  && lock_idle (lock b).

(** *** Transactions and the writeback *)

(** The [state] of [mc_transaction_t]. *)
Inductive transaction_state :=
| state_open
| state_in_commit_call
| state_committing
| state_committed.

Record mc_transaction_t := McTransaction {
  txn : txn_ptr;
  access : access_t;
  state : transaction_state;
  snapshot_version : version_id_t;
  txn_snapshotted : bool;
}.

Definition set_state (st : transaction_state) (t : mc_transaction_t) :=
  McTransaction (txn t) (access t) st (snapshot_version t) (txn_snapshotted t).

(** Spec (3): the access of a transaction is read or write; a read-only
    transaction is one without write access. *)
Definition write_access (a : access_t) : bool :=
  match a with
  | rwi_write | rwi_intent => true
  | rwi_read | rwi_read_outdated_ok => false
  end.

(** Modelled from the spec: the part of [writeback_t]
    ([writeback/writeback.hpp], not part of the sources at hand) that
    notifies transactions.  Spec (4.6): [sync_callbacks] holds the
    transactions in [committing] that wait for the next flush pass, in the
    order in which they were handed over; [flushes] holds the flush passes
    in flight (the header names [writeback_t::concurrent_flush_t]), each
    with the transactions whose writes it contains. *)
Record writeback_t := Writeback {
  sync_callbacks : list txn_ptr;
  flushes : list (list txn_ptr);
}.

(** Spec (4.6, steps 1 and 5): a pass gates write transactions from
    entering [committing] from its first step until it releases the quiesce
    in its last; the gate is open when no pass is in flight. *)
Definition gate_open (w : writeback_t) : bool :=
  match flushes w with
  | [] => true
  | _ :: _ => false
  end.

(** What an observer sees: a transaction enters [state_committing], or its
    [on_sync] is called. *)
Inductive wb_event :=
| ev_committing (t : txn_ptr)
| ev_on_sync (t : txn_ptr).

Record cache_state := CacheState {
  writeback : writeback_t;
  transactions : list mc_transaction_t;
  history : list wb_event;
}.

Definition update_txn (t : txn_ptr) (f : mc_transaction_t -> mc_transaction_t)
           (ts : list mc_transaction_t) : list mc_transaction_t :=
  (fun x => if decide (txn x = t) then f x else x) <$> ts.

Definition lookup_txn (t : txn_ptr) (ts : list mc_transaction_t)
  : option mc_transaction_t :=
  head (filter (fun x => txn x = t) ts).

(** Modelled from the spec: [mc_transaction_t::on_sync], declared in the
    header: the sync callback through which the writeback notifies a
    transaction (4.6, step 5); the transaction is committed and its commit
    callback fires. *)
Definition on_sync (t : txn_ptr) (s : cache_state) : cache_state :=
  CacheState (writeback s)
             (update_txn t (set_state state_committed) (transactions s))
             (history s ++ [ev_on_sync t]).

(** The transition into [committing]. *)
Definition enter_committing (t : txn_ptr) (s : cache_state) : cache_state :=
  CacheState (writeback s)
             (update_txn t (set_state state_committing) (transactions s))
             (history s ++ [ev_committing t]).

(** Handing a write transaction to the writeback: it waits in line for the
    next flush pass. *)
Definition hand_to_writeback (t : txn_ptr) (s : cache_state) : cache_state :=
  CacheState (Writeback (sync_callbacks (writeback s) ++ [t]) (flushes (writeback s)))
             (transactions s) (history s).

(** Modelled from the spec: [mc_transaction_t::commit], declared in the
    header and defined in [mirrored.cc], which is not part of the sources at
    hand.  Spec (4.6): the transaction goes from [open] to [in_commit_call]
    to [committing] and is handed to the writeback, which fires the callback
    after the next flush, or immediately for a read-only transaction; while
    a flush pass gates them, write transactions do not enter [committing]
    and stay in [in_commit_call].  Committing a transaction that is not
    open is a contract violation (7) and is left out; the [bool] that the
    header has [commit] return is not modelled. *)
Definition commit (t : txn_ptr) (s : cache_state) : cache_state :=
  match lookup_txn t (transactions s) with
  | Some tx =>
      match state tx with
      | state_open =>
          let s1 := CacheState (writeback s)
                               (update_txn t (set_state state_in_commit_call)
                                           (transactions s))
                               (history s) in
          if write_access (access tx)
          then if gate_open (writeback s)
               then hand_to_writeback t (enter_committing t s1)
               else s1
          else on_sync t (enter_committing t s1)
      | _ => s
      end
  | None => s
  end.

(** Modelled from the spec: what the release of the quiesce (4.6, step 5)
    allows: a write transaction that the gate held in [in_commit_call]
    enters [committing] and is handed to the writeback.  The spec does not
    say in which order the transactions held by the gate go on. *)
Definition pass_gate (t : txn_ptr) (s : cache_state) : cache_state :=
  match lookup_txn t (transactions s) with
  | Some tx =>
      match state tx with
      | state_in_commit_call =>
          if write_access (access tx) && gate_open (writeback s)
          then hand_to_writeback t (enter_committing t s)
          else s
      | _ => s
      end
  | None => s
  end.

(** Modelled from the spec: the start of a flush pass of the writeback
    (4.6, steps 1 and 2): the gate closes and the pass takes what is there
    to flush, so it contains the writes of the transactions waiting in
    line. *)
Definition flush_begin (s : cache_state) : cache_state :=
  CacheState (Writeback [] (flushes (writeback s) ++ [sync_callbacks (writeback s)]))
             (transactions s) (history s).

(** Modelled from the spec: the end of a flush pass (4.6, step 5), for the
    pass at position [k] of those in flight: the pass is over and its
    transactions are notified through their sync callback, in the order in
    which their requests entered the writeback. *)
Definition flush_end (k : nat) (s : cache_state) : cache_state :=
  match flushes (writeback s) !! k with
  | Some batch =>
      foldl (fun s t => on_sync t s)
            (CacheState (Writeback (sync_callbacks (writeback s))
                                   (delete k (flushes (writeback s))))
                        (transactions s) (history s))
            batch
  | None => s
  end.

Inductive cache_op :=
| op_commit (t : txn_ptr)
| op_pass_gate (t : txn_ptr)
| op_flush_begin
| op_flush_end (k : nat).

Definition run_op (o : cache_op) (s : cache_state) : cache_state :=
  match o with
  | op_commit t => commit t s
  | op_pass_gate t => pass_gate t s
  | op_flush_begin => flush_begin s
  | op_flush_end k => flush_end k s
  end.

Definition run_ops (ops : list cache_op) (s : cache_state) : cache_state :=
  foldl (fun s o => run_op o s) s ops.

Definition cache_init (ts : list mc_transaction_t) : cache_state :=
  CacheState (Writeback [] []) ts [].

(** The transactions that entered [state_committing], and those whose
    [on_sync] was called, in order. *)
Definition committing_order (h : list wb_event) : list txn_ptr :=
  h ≫= (fun e => match e with ev_committing t => [t] | ev_on_sync _ => [] end).

Definition on_sync_order (h : list wb_event) : list txn_ptr :=
  h ≫= (fun e => match e with ev_on_sync t => [t] | ev_committing _ => [] end).

(** *** Vocabulary of the statements about the cache *)

(** The transaction [t] of [ts] has write access. *)
Definition writes (ts : list mc_transaction_t) (t : txn_ptr) : bool :=
  match lookup_txn t ts with
  | Some tx => write_access (access tx)
  | None => false
  end.

(** The write transactions among [l], in order. *)
Definition writers (ts : list mc_transaction_t) (l : list txn_ptr) : list txn_ptr :=
  filter (fun t => writes ts t = true) l.

(** In the history [h], every entry of a read-only transaction into
    [committing] is followed at once by its notification. *)
Definition read_only_notified_at_once (ts : list mc_transaction_t)
           (h : list wb_event) : Prop :=
  forall t h1 h2,
    writes ts t = false -> h = h1 ++ ev_committing t :: h2 ->
    exists h3, h2 = ev_on_sync t :: h3.

(** The invariant behind the order of notifications: the write
    transactions that entered [committing] are those notified, then those
    of the passes in flight, then those waiting in line; only the oldest
    pass in flight holds transactions, and nobody waits in line while a
    pass is in flight; the writeback holds write transactions only. *)
Definition fifo_inv (ts : list mc_transaction_t) (s : cache_state) : Prop :=
  (fun x => (txn x, access x)) <$> transactions s
  = (fun x => (txn x, access x)) <$> ts
  /\ writers ts (committing_order (history s))
     = writers ts (on_sync_order (history s))
       ++ concat (flushes (writeback s)) ++ sync_callbacks (writeback s)
  /\ Forall (fun b => b = []) (tail (flushes (writeback s)))
  /\ (gate_open (writeback s) = false -> sync_callbacks (writeback s) = [])
  /\ Forall (fun t => writes ts t = true)
            (concat (flushes (writeback s)) ++ sync_callbacks (writeback s))
  /\ read_only_notified_at_once ts (history s).

(** *** Concrete caches and buffers *)

Definition example_cache : mc_cache_t :=
  McCache false 3 2 (map_insert 7 1 (map_insert 3 2 (map_insert 5 3 []))) 8.

Definition example_idle_buf : mc_inner_buf_t := mc_inner_buf_init 9 20 5.

(** Two write transactions and a read-only one. *)
Definition example_transactions : list mc_transaction_t :=
  [McTransaction 1 rwi_write state_open 0 false;
   McTransaction 2 rwi_read state_open 0 false;
   McTransaction 3 rwi_write state_open 0 false].

End Cache.

(** * Theorems *)

(** ** The message hub: passes of [on_event] *)
Module HubFacts.
Import Hub.

Section Scheduler.

Set Default Proof Using "Type".

Variables MESSAGE_SCHEDULER_MIN_PRIORITY MESSAGE_SCHEDULER_MAX_PRIORITY : Z.
Variable MESSAGE_SCHEDULER_ORDERED_PRIORITY : Z.
Variable NUM_SCHEDULER_PRIORITIES : Z.
Variable MESSAGE_SCHEDULER_GRANULARITY : Z.
Variable on_thread_switch : linux_thread_message_t -> list store_call.

Local Abbreviation MIN := MESSAGE_SCHEDULER_MIN_PRIORITY.
Local Abbreviation MAX := MESSAGE_SCHEDULER_MAX_PRIORITY.
Local Abbreviation ORD := MESSAGE_SCHEDULER_ORDERED_PRIORITY.
Local Abbreviation NUM := NUM_SCHEDULER_PRIORITIES.
Local Abbreviation GRAN := MESSAGE_SCHEDULER_GRANULARITY.
Local Abbreviation args_ok := (scheduler_args_ok MIN MAX ORD NUM GRAN).
Local Abbreviation index_of := (priority_index MIN MAX).
Local Abbreviation list_of := (get_priority_msg_list MIN MAX).
Local Abbreviation update_list := (update_priority_msg_list MIN MAX).
Local Abbreviation callbacks := (run_on_thread_switch on_thread_switch).
Local Abbreviation process_message := (Hub.process_message MIN MAX on_thread_switch).
Local Abbreviation process_priority := (Hub.process_priority MIN MAX on_thread_switch).
Local Abbreviation process_priorities := (Hub.process_priorities MIN MAX on_thread_switch).
Local Abbreviation process_pass := (Hub.process_pass MIN MAX NUM GRAN on_thread_switch).
Local Abbreviation quota_of := (quota MAX).
Local Abbreviation to_process := (to_process_from_priority MAX).
Local Abbreviation eff_gran := (effective_granularity NUM GRAN).
Local Abbreviation sort_new := (sort_new_messages MIN MAX ORD).
Local Abbreviation sort_incoming := (sort_incoming_messages_by_priority MIN MAX ORD).
Local Abbreviation eff_priority := (effective_priority ORD).
Local Abbreviation sorted_onto := (Hub.sorted_onto MIN MAX ORD).
Local Abbreviation on_event_pass := (Hub.on_event_pass MIN MAX ORD NUM GRAN on_thread_switch).
Local Abbreviation on_event_loop := (Hub.on_event_loop MIN MAX ORD NUM GRAN on_thread_switch).
Local Abbreviation on_event := (Hub.on_event MIN MAX ORD NUM GRAN on_thread_switch).
Local Abbreviation hub_ok := (Hub.hub_ok NUM).
Local Abbreviation plist := priority_msg_list_at.
Local Abbreviation pull_pass := (Hub.pull_pass MIN MAX ORD).
Local Abbreviation at_initial_count := (Hub.at_initial_count MIN MAX ORD).
Local Abbreviation on_event_inv := (Hub.on_event_inv MIN MAX NUM).
Local Abbreviation initial_left := (initial_msgs_left NUM).
Local Abbreviation batch_done := (initial_batch_has_been_processed NUM).

Implicit Types (h : linux_message_hub_t) (st : pass_state) (m : linux_thread_message_t).
Implicit Types (p : Z) (i : nat) (l : msg_list_t).

(** *** Priorities and indices *)

Lemma priority_index_Some p i :
  index_of p = Some i <-> (MIN <= p <= MAX) /\ i = Z.to_nat (p - MIN).
Proof.
  unfold priority_index. case_decide; split; intros H1.
  - inversion H1. auto.
  - destruct H1 as [_ ->]. reflexivity.
  - discriminate.
  - tauto.
Qed.

Lemma priority_index_inj p q i :
  index_of p = Some i -> index_of q = Some i -> p = q.
Proof.
  rewrite !priority_index_Some. lia.
Qed.

Lemma priority_index_lt p i :
  args_ok -> index_of p = Some i -> (i < Z.to_nat NUM)%nat.
Proof.
  intros (_ & _ & -> & _). rewrite priority_index_Some. lia.
Qed.

Lemma priority_index_of_nat i :
  args_ok -> (i < Z.to_nat NUM)%nat -> index_of (MIN + Z.of_nat i) = Some i.
Proof.
  intros (_ & _ & -> & _) Hi. apply priority_index_Some. lia.
Qed.

Lemma get_priority_msg_list_at p i h :
  index_of p = Some i -> list_of p h = plist h i.
Proof. unfold get_priority_msg_list. intros ->. reflexivity. Qed.

(** *** Altering one entry of an array of lists *)

Lemma alter_fixed {A} (f : A -> A) i (L : list A) :
  (forall x, L !! i = Some x -> f x = x) -> alter f i L = L.
Proof.
  intros Hf. apply list_eq. intros j.
  destruct (decide (i = j)) as [<- | Hne].
  - rewrite list_lookup_alter_eq. destruct (L !! i) eqn:E; simpl; [|done].
    f_equal. auto.
  - by rewrite list_lookup_alter_ne.
Qed.

Lemma plist_alter f i j (L : list msg_list_t) :
  default [] (alter f i L !! j) =
  if decide (i = j /\ (j < length L)%nat) then f (default [] (L !! j))
  else default [] (L !! j).
Proof.
  case_decide as H.
  - destruct H as [<- Hlt]. rewrite list_lookup_alter_eq.
    destruct (lookup_lt_is_Some_2 L i Hlt) as [x ->]. reflexivity.
  - destruct (decide (i = j)) as [<- | Hne].
    + rewrite list_lookup_alter_eq.
      rewrite (lookup_ge_None_2 L i) by lia. reflexivity.
    + by rewrite list_lookup_alter_ne.
Qed.

(** *** Callbacks touch the local queues only *)

Lemma do_store_message_lists nthread m h :
  priority_msg_lists_ (do_store_message nthread m h) = priority_msg_lists_ h
  /\ incoming_messages_ (do_store_message nthread m h) = incoming_messages_ h
  /\ current_thread_ (do_store_message nthread m h) = current_thread_ h.
Proof. done. Qed.

Lemma run_on_thread_switch_lists m h :
  priority_msg_lists_ (callbacks m h) = priority_msg_lists_ h
  /\ incoming_messages_ (callbacks m h) = incoming_messages_ h
  /\ current_thread_ (callbacks m h) = current_thread_ h.
Proof.
  unfold run_on_thread_switch. generalize (on_thread_switch m) as cs.
  intros cs. revert h. induction cs as [|c cs IH]; intros h; simpl; [done|].
  destruct (IH (run_store_call c h)) as (-> & -> & ->).
  destruct c; done.
Qed.

(** *** One message *)

Lemma process_message_hub p i m st :
  index_of p = Some i ->
  priority_msg_lists_ (ps_hub (process_message p m st))
    = alter (drop 1) i (priority_msg_lists_ (ps_hub st))
  /\ incoming_messages_ (ps_hub (process_message p m st))
     = incoming_messages_ (ps_hub st)
  /\ current_thread_ (ps_hub (process_message p m st))
     = current_thread_ (ps_hub st)
  /\ ps_left (process_message p m st)
     = alter decrement_if_positive i (ps_left st).
Proof.
  intros Hi. unfold Hub.process_message, update_priority_msg_list.
  rewrite Hi. case_decide; simpl.
  - done.
  - destruct (run_on_thread_switch_lists m
      (set_priority_msg_lists_ (alter (drop 1) i (priority_msg_lists_ (ps_hub st))) (ps_hub st)))
      as (-> & -> & ->). done.
Qed.

Lemma process_message_trace p m st :
  exists e, ps_trace (process_message p m st) = ps_trace st ++ [e]
            /\ event_priority e = p /\ event_msg e = m
            /\ (reloop_count_ m <= 0 -> e = ev_on_thread_switch p m)
            /\ event_ok e.
Proof.
  unfold Hub.process_message. case_decide; simpl.
  - exists (ev_reloop p m). repeat split; auto. lia.
  - exists (ev_on_thread_switch p m). repeat split; auto. simpl. lia.
Qed.

(** *** The inner loop: one priority *)

Lemma decrement_iter_nonneg k c :
  0 <= c -> Nat.iter k decrement_if_positive c = Z.max 0 (c - Z.of_nat k).
Proof.
  intros Hc. induction k as [|k IH].
  - simpl. lia.
  - rewrite Nat.iter_succ, IH. unfold decrement_if_positive.
    case_decide; lia.
Qed.

Lemma process_priority_invalid n p st :
  index_of p = None -> process_priority n p st = st.
Proof.
  intros Hp. destruct n as [|n]; [done|]. simpl.
  unfold get_priority_msg_list. by rewrite Hp.
Qed.

Lemma process_priority_spec n p i st :
  index_of p = Some i ->
  let l := plist (ps_hub st) i in
  let st' := process_priority n p st in
  priority_msg_lists_ (ps_hub st') = alter (drop n) i (priority_msg_lists_ (ps_hub st))
  /\ incoming_messages_ (ps_hub st') = incoming_messages_ (ps_hub st)
  /\ current_thread_ (ps_hub st') = current_thread_ (ps_hub st)
  /\ ps_left st' = alter (Nat.iter (n `min` length l) decrement_if_positive) i (ps_left st)
  /\ exists tr, ps_trace st' = ps_trace st ++ tr
                /\ event_msg <$> tr = take n l
                /\ Forall (fun e => event_priority e = p) tr
                /\ Forall event_ok tr.
Proof.
  intros Hi. revert st. induction n as [|n IH]; intros st; simpl.
  - split; [|split; [|split; [|split]]]; try done.
    + symmetry. apply alter_fixed. intros x _. apply drop_0.
    + symmetry. by apply alter_fixed.
    + exists []. rewrite app_nil_r, take_0. by repeat constructor.
  - rewrite (get_priority_msg_list_at p i) by done.
    unfold priority_msg_list_at.
    destruct (priority_msg_lists_ (ps_hub st) !! i) as [[|m rest]|] eqn:E; simpl.
    + split; [|split; [|split; [|split]]]; try done.
      * symmetry. apply alter_fixed. intros x Hx. by simplify_eq.
      * symmetry. by apply alter_fixed.
      * exists []. rewrite app_nil_r. by repeat constructor.
    + destruct (process_message_hub p i m st Hi) as (HL & HI & HC & HN).
      destruct (process_message_trace p m st) as (e & HT & He1 & He2 & _ & He4).
      specialize (IH (process_message p m st)).
      destruct IH as (IL & II & IC & IN & tr & IT & IM & IP & IO).
      split; [|split; [|split; [|split]]].
      * rewrite IL, HL, list_alter_alter_eq. apply list_alter_ext; [|done].
        intros x _. simpl. by rewrite drop_drop.
      * by rewrite II.
      * by rewrite IC.
      * rewrite IN, HN, list_alter_alter_eq. apply list_alter_ext; [|done].
        intros x _. simpl. unfold priority_msg_list_at. rewrite HL.
        rewrite list_lookup_alter_eq, E. simpl. rewrite drop_0.
        by rewrite <- Nat.iter_succ_r.
      * exists (e :: tr). rewrite IT, HT, <- app_assoc. split; [done|].
        split; [|split].
        -- rewrite fmap_cons, IM, He2. unfold priority_msg_list_at.
           rewrite HL, list_lookup_alter_eq, E. simpl. by rewrite drop_0.
        -- by constructor.
        -- by constructor.
    + split; [|split; [|split; [|split]]]; try done.
      * symmetry. apply alter_fixed. intros x Hx. by simplify_eq.
      * symmetry. by apply alter_fixed.
      * exists []. rewrite app_nil_r. by repeat constructor.
Qed.

(** *** The outer loop: all priorities of a pass *)

Lemma plist_alter_drop k i j (L : list msg_list_t) :
  default [] (alter (drop k) i L !! j) =
  if decide (i = j) then drop k (default [] (L !! j)) else default [] (L !! j).
Proof.
  rewrite list_lookup_alter. case_decide as H; [subst j|done].
  destruct (L !! i); simpl; [done|]. by rewrite drop_nil.
Qed.

Lemma processed_at_app p tr1 tr2 :
  processed_at p (tr1 ++ tr2) = processed_at p tr1 ++ processed_at p tr2.
Proof.
  induction tr1 as [|e tr1 IH]; simpl; [done|].
  case_decide; by rewrite IH.
Qed.

Lemma processed_at_same p tr :
  Forall (fun e => event_priority e = p) tr -> processed_at p tr = event_msg <$> tr.
Proof.
  induction 1 as [|e tr He _ IH]; simpl; [done|].
  rewrite decide_True by done. by rewrite IH.
Qed.

Lemma processed_at_other p q tr :
  p <> q -> Forall (fun e => event_priority e = q) tr -> processed_at p tr = [].
Proof.
  intros Hne. induction 1 as [|e tr He _ IH]; simpl; [done|].
  rewrite decide_False by congruence. done.
Qed.

Lemma process_priorities_spec n eg p0 st :
  let st' := process_priorities n eg p0 st in
  length (priority_msg_lists_ (ps_hub st')) = length (priority_msg_lists_ (ps_hub st))
  /\ incoming_messages_ (ps_hub st') = incoming_messages_ (ps_hub st)
  /\ length (ps_left st') = length (ps_left st)
  /\ exists tr,
      ps_trace st' = ps_trace st ++ tr
      /\ Forall event_ok tr
      /\ forall p i, index_of p = Some i ->
           if decide (p0 - Z.of_nat n < p <= p0) then
             plist (ps_hub st') i = drop (quota_of eg p) (plist (ps_hub st) i)
             /\ ps_left st' !! i =
                Nat.iter (quota_of eg p `min` length (plist (ps_hub st) i))
                         decrement_if_positive <$> ps_left st !! i
             /\ processed_at p tr = take (quota_of eg p) (plist (ps_hub st) i)
           else
             plist (ps_hub st') i = plist (ps_hub st) i
             /\ ps_left st' !! i = ps_left st !! i
             /\ processed_at p tr = [].
Proof.
  revert p0 st. induction n as [|n IH]; intros p0 st; simpl.
  - split; [done|]. split; [done|]. split; [done|].
    exists []. rewrite app_nil_r. split; [done|]. split; [constructor|].
    intros p i _. rewrite decide_False by lia. done.
  - fold (quota_of eg p0).
    set (st1 := process_priority (quota_of eg p0) p0 st).
    destruct (IH (p0 - 1) st1) as (IL & II & IN & tr2 & IT & IO & IP).
    assert (exists tr1,
      length (priority_msg_lists_ (ps_hub st1)) = length (priority_msg_lists_ (ps_hub st))
      /\ incoming_messages_ (ps_hub st1) = incoming_messages_ (ps_hub st)
      /\ length (ps_left st1) = length (ps_left st)
      /\ ps_trace st1 = ps_trace st ++ tr1
      /\ Forall event_ok tr1
      /\ forall p i, index_of p = Some i ->
           if decide (p = p0) then
             plist (ps_hub st1) i = drop (quota_of eg p) (plist (ps_hub st) i)
             /\ ps_left st1 !! i =
                Nat.iter (quota_of eg p `min` length (plist (ps_hub st) i))
                         decrement_if_positive <$> ps_left st !! i
             /\ processed_at p tr1 = take (quota_of eg p) (plist (ps_hub st) i)
           else
             plist (ps_hub st1) i = plist (ps_hub st) i
             /\ ps_left st1 !! i = ps_left st !! i
             /\ processed_at p tr1 = []) as (tr1 & HL & HI & HN & HT & HO & HP).
    { destruct (index_of p0) as [i0|] eqn:E0.
      - destruct (process_priority_spec (quota_of eg p0) p0 i0 st E0)
          as (SL & SI & _ & SN & tr1 & ST & SM & SP & SO).
        fold st1 in SL, SI, SN, ST.
        exists tr1. rewrite SL, SN, !length_alter.
        do 5 (split; [done|]).
        intros p i Hp. case_decide as Hd.
        + subst p. assert (i = i0) as -> by congruence.
          unfold priority_msg_list_at. rewrite SL, plist_alter_drop, decide_True by done.
          rewrite list_lookup_alter_eq.
          split; [done|]. split; [done|].
          rewrite processed_at_same by done. done.
        + assert (i0 <> i) as Hne.
          { intros ->. apply Hd. eapply priority_index_inj; eauto. }
          unfold priority_msg_list_at. rewrite SL, plist_alter_drop, decide_False by done.
          rewrite list_lookup_alter_ne by done.
          split; [done|]. split; [done|].
          eapply processed_at_other; eauto.
      - exists []. unfold st1. rewrite process_priority_invalid by done.
        rewrite app_nil_r. do 4 (split; [done|]). split; [constructor|].
        intros p i Hp. rewrite decide_False by congruence. done. }
    split; [congruence|]. split; [congruence|]. split; [congruence|].
    exists (tr1 ++ tr2). split; [by rewrite IT, HT, app_assoc|].
    split; [by apply Forall_app|].
    intros p i Hp. specialize (IP p i Hp). specialize (HP p i Hp).
    rewrite processed_at_app.
    destruct (decide (p = p0)) as [->|Hne].
    + rewrite decide_False in IP by lia. rewrite decide_True by lia.
      destruct IP as (-> & -> & ->), HP as (-> & -> & ->).
      by rewrite app_nil_r.
    + destruct HP as (HP1 & HP2 & HP3).
      destruct (decide (p0 - 1 - Z.of_nat n < p <= p0 - 1)) as [Hin|Hout].
      * rewrite decide_True by lia.
        destruct IP as (-> & -> & ->). by rewrite HP1, HP2, HP3.
      * rewrite decide_False by lia.
        destruct IP as (-> & -> & ->). by rewrite HP1, HP2, HP3.
Qed.

Lemma process_pass_spec (initial_pass : bool) st :
  let h := ps_hub st in
  let left0 := if initial_pass then initial_left h else ps_left st in
  let eg := eff_gran h in
  let st' := process_pass initial_pass st in
  length (priority_msg_lists_ (ps_hub st')) = length (priority_msg_lists_ h)
  /\ incoming_messages_ (ps_hub st') = incoming_messages_ h
  /\ length (ps_left st') = length left0
  /\ exists tr,
      ps_trace st' = ps_trace st ++ tr
      /\ Forall event_ok tr
      /\ forall p i, index_of p = Some i ->
           plist (ps_hub st') i = drop (quota_of eg p) (plist h i)
           /\ ps_left st' !! i =
              Nat.iter (quota_of eg p `min` length (plist h i))
                       decrement_if_positive <$> left0 !! i
           /\ processed_at p tr = take (quota_of eg p) (plist h i).
Proof.
  intros h left0 eg st'. unfold st', Hub.process_pass.
  fold h. fold eg. fold left0.
  destruct (process_priorities_spec (Z.to_nat (MAX - MIN + 1)) eg MAX
              (PassState h left0 (ps_trace st)))
    as (HL & HI & HN & tr & HT & HO & HP).
  simpl in HL, HI, HN, HT.
  do 3 (split; [done|]). exists tr. do 2 (split; [done|]).
  intros p i Hp. specialize (HP p i Hp). simpl in HP.
  apply priority_index_Some in Hp as [Hr _].
  rewrite decide_True in HP by lia. done.
Qed.

(** *** Pulling and sorting the incoming messages *)

Lemma update_priority_msg_list_at p f h j :
  plist (update_list p f h) j =
  match index_of p with
  | Some i => if decide (i = j /\ (j < length (priority_msg_lists_ h))%nat)
              then f (plist h j) else plist h j
  | None => plist h j
  end.
Proof.
  unfold update_priority_msg_list, priority_msg_list_at.
  destruct (index_of p) as [i|]; [|done]. simpl. apply plist_alter.
Qed.

Lemma sort_new_messages_spec new h :
  length (priority_msg_lists_ (sort_new new h)) = length (priority_msg_lists_ h)
  /\ incoming_messages_ (sort_new new h) = incoming_messages_ h
  /\ queues_ (sort_new new h) = queues_ h
  /\ current_thread_ (sort_new new h) = current_thread_ h
  /\ forall i, (i < length (priority_msg_lists_ h))%nat ->
       plist (sort_new new h) i = plist h i ++ sorted_onto i new.
Proof.
  revert h. induction new as [|m new IH]; intros h; simpl.
  - do 4 (split; [done|]). intros i _. by rewrite app_nil_r.
  - set (h1 := update_list (eff_priority m) (fun l => l ++ [sorted_msg m]) h).
    destruct (IH h1) as (IL & II & IQ & IC & IP).
    assert (length (priority_msg_lists_ h1) = length (priority_msg_lists_ h)
            /\ incoming_messages_ h1 = incoming_messages_ h
            /\ queues_ h1 = queues_ h
            /\ current_thread_ h1 = current_thread_ h) as (HL & HI & HQ & HC).
    { unfold h1, update_priority_msg_list.
      destruct (index_of (eff_priority m)); simpl; [|done].
      by rewrite length_alter. }
    rewrite IL, II, IQ, IC. do 4 (split; [done|]).
    intros i Hi. rewrite IP by lia.
    unfold h1. rewrite update_priority_msg_list_at.
    unfold Hub.sorted_onto.
    destruct (index_of (eff_priority m)) as [j|] eqn:E.
    + destruct (decide (j = i)) as [->|Hne].
      * rewrite !decide_True by done. by rewrite <- app_assoc.
      * rewrite decide_False by (intros [? _]; done).
        rewrite (decide_False (P := Some j = Some i)) by (intros [= ?]; done). done.
    + rewrite (decide_False (P := None = Some i)) by congruence. done.
Qed.

Lemma sort_incoming_spec reset h :
  length (priority_msg_lists_ (sort_incoming reset h)) = length (priority_msg_lists_ h)
  /\ incoming_messages_ (sort_incoming reset h) = []
  /\ queues_ (sort_incoming reset h) = queues_ h
  /\ current_thread_ (sort_incoming reset h) = current_thread_ h
  /\ forall i, (i < length (priority_msg_lists_ h))%nat ->
       plist (sort_incoming reset h) i = plist h i ++ sorted_onto i (incoming_messages_ h).
Proof.
  unfold sort_incoming_messages_by_priority.
  set (h2 := if reset then _ else _).
  destruct (sort_new_messages_spec (incoming_messages_ h) h2) as (L & I & Q & C & P).
  assert (priority_msg_lists_ h2 = priority_msg_lists_ h
          /\ incoming_messages_ h2 = [] /\ queues_ h2 = queues_ h
          /\ current_thread_ h2 = current_thread_ h) as (HL & HI & HQ & HC).
  { unfold h2. by destruct reset. }
  rewrite L, I, Q, C, HL. do 4 (split; [done|]).
  intros i Hi. rewrite P by (by rewrite HL).
  unfold priority_msg_list_at. by rewrite HL.
Qed.

Lemma deliver_local_messages_lists h :
  priority_msg_lists_ (deliver_local_messages h) = priority_msg_lists_ h.
Proof.
  unfold deliver_local_messages.
  destruct (default [] (queues_ h !! current_thread_ h)); [done|].
  simpl. by destruct (is_woken_up_ h).
Qed.

Lemma receive_lists msgs h :
  priority_msg_lists_ (receive msgs h) = priority_msg_lists_ h
  /\ incoming_messages_ (receive msgs h) = incoming_messages_ h ++ msgs.
Proof.
  destruct msgs as [|m msgs]; simpl; [by rewrite app_nil_r|].
  unfold receive_pushed. simpl. by destruct (is_woken_up_ h).
Qed.

(** The messages that a pass pulls from the incoming list. *)
Lemma pull_pass_spec (initial_pass : bool) arrived h :
  length (priority_msg_lists_ (pull_pass initial_pass arrived h))
    = length (priority_msg_lists_ h)
  /\ exists new,
      forall i, (i < length (priority_msg_lists_ h))%nat ->
        plist (pull_pass initial_pass arrived h) i = plist h i ++ sorted_onto i new.
Proof.
  unfold Hub.pull_pass.
  set (h2 := receive (snd arrived) _).
  assert (priority_msg_lists_ h2 = priority_msg_lists_ h) as E.
  { unfold h2. rewrite (proj1 (receive_lists _ _)).
    destruct initial_pass; [apply receive_lists|].
    rewrite deliver_local_messages_lists. apply receive_lists. }
  destruct (sort_incoming_spec initial_pass h2) as (L & _ & _ & _ & P).
  rewrite L, E. split; [done|]. exists (incoming_messages_ h2).
  intros i Hi. rewrite P by (by rewrite E).
  unfold priority_msg_list_at. by rewrite E.
Qed.

(** *** The loop of [on_event] *)

Lemma initial_left_lookup h i :
  hub_ok h -> (i < Z.to_nat NUM)%nat ->
  initial_left h !! i = Some (Z.of_nat (length (plist h i))).
Proof.
  intros Hh Hi. unfold initial_msgs_left, priority_msg_list_at.
  rewrite list_lookup_fmap, lookup_take_lt by done.
  destruct (lookup_lt_is_Some_2 (priority_msg_lists_ h) i) as [l ->]; [|done].
  unfold Hub.hub_ok in Hh. lia.
Qed.

Lemma batch_done_spec (cs : list Z) :
  length cs = Z.to_nat NUM ->
  batch_done cs = true <-> forall i c, cs !! i = Some c -> c <= 0.
Proof.
  intros Hlen. unfold initial_batch_has_been_processed.
  rewrite take_ge by lia. rewrite List.forallb_forall. split.
  - intros H i c Hc. apply list_elem_of_lookup_2, list_elem_of_In, H in Hc.
    apply negb_true_iff, Z.ltb_ge in Hc. done.
  - intros H c Hc. apply list_elem_of_In, list_elem_of_lookup_1 in Hc as [i Hi].
    apply negb_true_iff, Z.ltb_ge. eauto.
Qed.

Lemma first_pass_inv arrivals h :
  args_ok -> hub_ok h ->
  on_event_inv (plist (at_initial_count arrivals h))
               (on_event_pass true (arrivals 0%nat) (PassState (set_event_ 0 h) [] [])).
Proof.
  intros Hargs Hh. unfold Hub.on_event_pass. simpl.
  fold (at_initial_count arrivals h).
  set (h3 := at_initial_count arrivals h).
  assert (hub_ok h3) as Hh3.
  { unfold Hub.hub_ok, h3, Hub.at_initial_count.
    destruct (pull_pass_spec true (arrivals 0%nat) (set_event_ 0 h)) as [-> _]. done. }
  destruct (process_pass_spec true (PassState h3 [] [])) as (HL & _ & HN & tr & HT & HO & HP).
  simpl in HL, HN, HT, HP.
  split; [|split; [|split]].
  - unfold Hub.hub_ok. by rewrite HL.
  - rewrite HN. unfold initial_msgs_left. rewrite length_fmap, length_take.
    unfold Hub.hub_ok in Hh3. lia.
  - by rewrite HT.
  - intros p i Hp. destruct (HP p i Hp) as (H1 & H2 & H3).
    rewrite HT, H1, H2, H3. split.
    + exists []. by rewrite take_drop, app_nil_r.
    + rewrite initial_left_lookup by eauto using priority_index_lt. simpl.
      rewrite decrement_iter_nonneg by lia. f_equal.
      rewrite length_take. lia.
Qed.

Lemma next_pass_inv init arrived st :
  args_ok -> on_event_inv init st ->
  on_event_inv init (on_event_pass false arrived st)
  /\ forall b, left_bounded b st ->
               left_bounded (pred b) (on_event_pass false arrived st).
Proof.
  intros Hargs (Hh & Hlen & Hok & Hinv). unfold Hub.on_event_pass.
  set (h3 := pull_pass false arrived (ps_hub st)).
  destruct (pull_pass_spec false arrived (ps_hub st)) as (PL & new & PP).
  fold h3 in PL, PP.
  destruct (process_pass_spec false (PassState h3 (ps_left st) (ps_trace st)))
    as (HL & _ & HN & tr & HT & HO & HP).
  simpl in HL, HN, HT, HP.
  set (st' := process_pass false _) in *.
  assert (forall p i, index_of p = Some i ->
            (exists later, processed_at p (ps_trace st') ++ plist (ps_hub st') i
                           = init i ++ later)
            /\ ps_left st' !! i =
               Some (Z.max 0 (Z.of_nat (length (init i))
                     - Z.of_nat (length (processed_at p (ps_trace st')))))
            /\ forall b c, ps_left st !! i = Some c -> c <= Z.of_nat b ->
                 Z.max 0 (Z.of_nat (length (init i))
                     - Z.of_nat (length (processed_at p (ps_trace st'))))
                 <= Z.of_nat (pred b)) as Hall.
  { intros p i Hp. destruct (HP p i Hp) as (H1 & H2 & H3).
    destruct (Hinv p i Hp) as ([later Hl] & Hc).
    assert (i < length (priority_msg_lists_ (ps_hub st)))%nat as Hi.
    { unfold Hub.hub_ok in Hh. rewrite Hh. eauto using priority_index_lt. }
    specialize (PP i Hi).
    rewrite HT, processed_at_app, H1, H2, H3, Hc. simpl.
    split; [|split].
    - exists (later ++ sorted_onto i new).
      rewrite <- app_assoc, take_drop, PP, !app_assoc. by rewrite Hl.
    - f_equal. rewrite decrement_iter_nonneg by lia.
      rewrite length_app, length_take. lia.
    - intros b c Hc' Hb. simplify_eq.
      rewrite length_app, length_take.
      apply (f_equal length) in Hl. rewrite !length_app in Hl.
      rewrite PP, length_app.
      assert (1 <= quota_of (eff_gran h3) p)%nat.
      { unfold quota, to_process_from_priority. lia. }
      lia. }
  split.
  - split; [|split; [|split]].
    + unfold Hub.hub_ok. rewrite HL, PL. done.
    + by rewrite HN.
    + rewrite HT. by apply Forall_app.
    + intros p i Hp. destruct (Hall p i Hp) as (? & ? & _). done.
  - intros b Hb i c Hc.
    assert (i < Z.to_nat NUM)%nat as Hi.
    { rewrite <- Hlen, <- HN. eapply lookup_lt_Some; eauto. }
    destruct (Hall _ i (priority_index_of_nat i Hargs Hi)) as (_ & Hc' & Hbd).
    rewrite Hc' in Hc. simplify_eq.
    destruct (lookup_lt_is_Some_2 (ps_left st) i) as [c0 Hc0]; [lia|].
    eapply Hbd; eauto.
Qed.

Lemma on_event_loop_terminates arrivals init fuel :
  args_ok ->
  forall b k st,
    on_event_inv init st -> left_bounded b st -> (b < fuel)%nat ->
    exists st', on_event_loop fuel arrivals k false st = Some st'
                /\ on_event_inv init st'
                /\ batch_done (ps_left st') = true.
Proof.
  intros Hargs. induction fuel as [|fuel IH]; intros b k st Hinv Hb Hlt; [lia|].
  simpl. destruct (next_pass_inv init (arrivals k) st Hargs Hinv) as [Hinv' Hb'].
  specialize (Hb' b Hb).
  destruct (batch_done (ps_left (on_event_pass false (arrivals k) st))) eqn:E.
  - eauto.
  - apply (IH (pred b) (S k)); [done|done|].
    destruct b as [|b]; [|simpl; lia].
    exfalso. apply not_true_iff_false in E. apply E.
    apply batch_done_spec; [apply Hinv'|].
    intros i c Hc. apply Hb' in Hc. simpl in Hc. lia.
Qed.

Lemma on_event_loop_fuel_mono arrivals fuel fuel' k (ip : bool) st st' :
  on_event_loop fuel arrivals k ip st = Some st' -> (fuel <= fuel')%nat ->
  on_event_loop fuel' arrivals k ip st = Some st'.
Proof.
  revert fuel' k ip st. induction fuel as [|fuel IH]; intros fuel' k ip st; [done|].
  intros H Hle. destruct fuel' as [|fuel']; [lia|]. simpl in *.
  destruct (batch_done _); [done|]. apply IH; [done|lia].
Qed.

Lemma on_event_loop_done arrivals fuel k (ip : bool) st st' :
  on_event_loop fuel arrivals k ip st = Some st' ->
  batch_done (ps_left st') = true.
Proof.
  revert k ip st. induction fuel as [|fuel IH]; intros k ip st; [done|].
  simpl. destruct (batch_done (ps_left (on_event_pass ip (arrivals k) st))) eqn:E;
    [|by apply IH].
  intros; by simplify_eq.
Qed.

Lemma left_bounded_exists (cs : list Z) :
  exists b, forall i c, cs !! i = Some c -> c <= Z.of_nat b.
Proof.
  induction cs as [|c0 cs [b IH]].
  - exists 0%nat. by intros i c.
  - exists (Z.to_nat c0 `max` b)%nat. intros [|i] c Hc; simpl in Hc.
    + simplify_eq. lia.
    + apply IH in Hc. lia.
Qed.

Lemma on_event_terminates arrivals h :
  args_ok -> hub_ok h ->
  exists fuel st, on_event fuel arrivals h = Some st
                  /\ on_event_inv (plist (at_initial_count arrivals h)) st
                  /\ batch_done (ps_left st) = true.
Proof.
  intros Hargs Hh. pose proof (first_pass_inv arrivals h Hargs Hh) as Hinv.
  set (st1 := on_event_pass true _ _) in Hinv.
  destruct (left_bounded_exists (ps_left st1)) as [b Hb].
  destruct (batch_done (ps_left st1)) eqn:E.
  - exists 1%nat, st1. unfold Hub.on_event. simpl. fold st1. by rewrite E.
  - destruct (on_event_loop_terminates arrivals _ (S b) Hargs b 1%nat st1 Hinv Hb)
      as (st' & Hrun & Hinv' & Hdone); [lia|].
    exists (S (S b)), st'. unfold Hub.on_event.
    change (on_event_loop (S (S b)) arrivals 0 true ?s)
      with (let s1 := on_event_pass true (arrivals 0%nat) s in
            if batch_done (ps_left s1) then Some s1
            else on_event_loop (S b) arrivals 1 false s1).
    simpl. fold st1. rewrite E. done.
Qed.

Lemma inv_done_prefix init st p i :
  on_event_inv init st -> batch_done (ps_left st) = true ->
  index_of p = Some i ->
  init i `prefix_of` processed_at p (ps_trace st).
Proof.
  intros (Hh & Hlen & Hok & Hinv) Hdone Hp.
  destruct (Hinv p i Hp) as ([later Hl] & Hc).
  rewrite batch_done_spec in Hdone by done. apply Hdone in Hc.
  assert (init i = take (length (init i)) (processed_at p (ps_trace st))) as Heq.
  { transitivity (take (length (init i)) (init i ++ later)).
    - by rewrite take_app_length.
    - rewrite <- Hl. apply take_app_le. lia. }
  rewrite Heq. apply prefix_take.
Qed.

Lemma processed_delivered p m tr :
  Forall event_ok tr -> m ∈ processed_at p tr -> reloop_count_ m <= 0 ->
  m ∈ delivered tr.
Proof.
  intros Hok Hm Hr. induction Hok as [|e tr He _ IH]; simpl in *; [done|].
  case_decide.
  - apply elem_of_cons in Hm as [->|Hm].
    + destruct e; simpl in *; [left|lia].
    + destruct e; [right|]; auto.
  - destruct e; [right|]; auto.
Qed.

Lemma at_initial_count_lists arrivals h i :
  (i < length (priority_msg_lists_ h))%nat ->
  plist (at_initial_count arrivals h) i
  = plist h i ++ sorted_onto i (incoming_messages_ h ++ fst (arrivals 0%nat)
                                ++ snd (arrivals 0%nat)).
Proof.
  intros Hi. unfold Hub.at_initial_count, Hub.pull_pass.
  destruct (sort_incoming_spec true
              (receive (snd (arrivals 0%nat))
                 (receive (fst (arrivals 0%nat)) (set_event_ 0 h))))
    as (_ & _ & _ & _ & P).
  rewrite P by (by rewrite !(proj1 (receive_lists _ _))).
  unfold priority_msg_list_at.
  rewrite !(proj1 (receive_lists _ _)), !(proj2 (receive_lists _ _)). simpl.
  by rewrite <- app_assoc.
Qed.

Lemma sorted_onto_elem i m new :
  m ∈ new -> index_of (eff_priority m) = Some i -> sorted_msg m ∈ sorted_onto i new.
Proof.
  intros Hm Hi. unfold Hub.sorted_onto. apply list_elem_of_bind.
  exists m. split; [|done]. rewrite decide_True by done. by left.
Qed.

(** C2. Every message that is on the priority lists when the initial pass
    of [on_event] counts them (in particular every message that was on a
    priority list, or on the incoming list, when [on_event] was called)
    has its [on_thread_switch] run before [on_event] returns, and
    [on_event] returns only with every counter of
    [num_initial_msgs_left_to_process] at 0.  [on_event] does return:
    some number of iterations suffices. *)
Theorem on_event_delivers_initial_batch arrivals h :
  args_ok -> hub_ok h ->
  exists fuel st,
    on_event fuel arrivals h = Some st
    /\ (forall fuel' st', on_event fuel' arrivals h = Some st' -> st' = st)
    /\ (forall i m, (i < Z.to_nat NUM)%nat ->
          m ∈ plist (at_initial_count arrivals h) i ->
          reloop_count_ m <= 0 -> m ∈ delivered (ps_trace st))
    /\ (forall i m, (i < Z.to_nat NUM)%nat -> m ∈ plist h i ->
          reloop_count_ m <= 0 -> m ∈ delivered (ps_trace st))
    /\ (forall m, m ∈ incoming_messages_ h ->
          is_Some (index_of (eff_priority m)) ->
          reloop_count_ m <= 0 -> sorted_msg m ∈ delivered (ps_trace st))
    /\ (forall c, c ∈ ps_left st -> c = 0).
Proof.
  intros Hargs Hh.
  destruct (on_event_terminates arrivals h Hargs Hh) as (fuel & st & Hrun & Hinv & Hdone).
  exists fuel, st. split; [done|].
  assert (forall i m, (i < Z.to_nat NUM)%nat ->
            m ∈ plist (at_initial_count arrivals h) i ->
            reloop_count_ m <= 0 -> m ∈ delivered (ps_trace st)) as Hdel.
  { intros i m Hi Hm Hr.
    pose proof (priority_index_of_nat i Hargs Hi) as Hp.
    pose proof (inv_done_prefix _ st _ i Hinv Hdone Hp) as [k Hk].
    eapply processed_delivered; [apply Hinv| |done].
    rewrite Hk. apply elem_of_app. by left. }
  split; [|split; [|split; [|split]]].
  - intros fuel' st' Hrun'. unfold Hub.on_event in *.
    destruct (Nat.le_ge_cases fuel fuel') as [Hle|Hle].
    + pose proof (on_event_loop_fuel_mono _ _ _ _ _ _ _ Hrun Hle). congruence.
    + pose proof (on_event_loop_fuel_mono _ _ _ _ _ _ _ Hrun' Hle). congruence.
  - done.
  - intros i m Hi Hm. apply (Hdel i); [done|].
    rewrite at_initial_count_lists by (unfold Hub.hub_ok in Hh; lia).
    apply elem_of_app. by left.
  - intros m Hm [i Hi] Hr. apply (Hdel i).
    + eauto using priority_index_lt.
    + rewrite at_initial_count_lists.
      * apply elem_of_app. right. apply sorted_onto_elem; [|done].
        apply elem_of_app. by left.
      * unfold Hub.hub_ok in Hh. rewrite Hh. eauto using priority_index_lt.
    + unfold sorted_msg. by destruct (is_ordered m).
  - intros c Hc. apply list_elem_of_lookup_1 in Hc as [i Hi].
    destruct Hinv as (_ & Hlen & _ & Hinv).
    pose proof (proj1 (batch_done_spec _ Hlen) Hdone i c Hi) as Hle.
    assert (i < Z.to_nat NUM)%nat as Hlt.
    { rewrite <- Hlen. eapply lookup_lt_Some; eauto. }
    destruct (Hinv _ i (priority_index_of_nat i Hargs Hlt)) as [_ Hc].
    rewrite Hc in Hi. simplify_eq. lia.
Qed.

(** *** Quotas *)

Lemma to_process_from_priority_ge_1 eg p : 1 <= to_process eg p.
Proof. unfold to_process_from_priority. lia. Qed.

Lemma total_pending_msgs_nonneg h : 0 <= total_pending_msgs NUM h.
Proof.
  unfold total_pending_msgs.
  generalize (take (Z.to_nat NUM) (priority_msg_lists_ h)) as L.
  assert (forall (L : list msg_list_t) acc, 0 <= acc ->
            0 <= foldl (fun acc l => acc + Z.of_nat (length l)) acc L) as H.
  { induction L as [|l L IH]; intros acc Hacc; simpl; [done|]. apply IH. lia. }
  intros L. by apply H.
Qed.

Lemma quota_relation eg p q :
  0 <= eg -> q < p <= MAX ->
  to_process eg q = Z.max 1 (Z.shiftr (to_process eg p) (p - q))
  /\ (1 <= Z.shiftr eg (MAX - q) ->
        2 ^ (p - q) * to_process eg q <= to_process eg p
        < 2 ^ (p - q) * (to_process eg q + 1))
  /\ ((2 ^ (MAX - q) | eg) -> 0 < eg ->
        to_process eg p = 2 ^ (p - q) * to_process eg q).
Proof.
  intros Heg Hpq. unfold to_process_from_priority.
  set (a := MAX - p). set (d := p - q).
  replace (MAX - q) with (a + d) by (unfold a, d; lia).
  assert (0 <= a) as Ha by (unfold a; lia).
  assert (0 < d) as Hd by (unfold d; lia).
  rewrite <- (Z.shiftr_shiftr eg a d) by lia.
  set (x := Z.shiftr eg a).
  assert (0 <= x) as Hx by (by apply Z.shiftr_nonneg).
  rewrite !(Z.shiftr_div_pow2 _ d) by lia.
  assert (0 < 2 ^ d) as Hpow by (apply Z.pow_pos_nonneg; lia).
  assert (2 <= 2 ^ d) as Hpow2.
  { replace 2 with (2 ^ 1) at 1 by done. apply Z.pow_le_mono_r; lia. }
  pose proof (Z.mul_div_le x (2 ^ d) Hpow) as Hlo.
  pose proof (Z.mul_succ_div_gt x (2 ^ d) Hpow) as Hhi.
  split; [|split].
  - destruct (decide (1 <= x)) as [H1|H1].
    + by rewrite (Z.max_r 1 x) by lia.
    + rewrite (Z.max_l 1 x) by lia.
      rewrite (Z.div_small 1) by lia. rewrite (Z.div_small x) by lia. done.
  - intros Hy. assert (1 <= x) by nia.
    rewrite (Z.max_r 1 x) by lia. rewrite (Z.max_r 1 (x / 2 ^ d)) by lia. lia.
  - intros [k Hk] Hpos. rewrite Z.pow_add_r in Hk by lia.
    assert (x = k * 2 ^ d) as Hxk.
    { unfold x. rewrite Z.shiftr_div_pow2 by lia. rewrite Hk.
      replace (k * (2 ^ a * 2 ^ d)) with (k * 2 ^ d * 2 ^ a) by ring.
      apply Z.div_mul. apply Z.pow_nonzero; lia. }
    assert (x / 2 ^ d = k) as Hyk by (rewrite Hxk; apply Z.div_mul; lia).
    assert (0 < k).
    { assert (0 < 2 ^ a) by (apply Z.pow_pos_nonneg; lia). nia. }
    rewrite Hyk. rewrite (Z.max_r 1 k) by lia. rewrite (Z.max_r 1 x) by nia. lia.
Qed.

(** When the quota at [p] is exactly [2^(p-q)] times the quota at [q]:
    the granularity shifted for [p] must be a positive multiple of
    [2^(p-q)], so that neither the floor of 1 nor the truncation of the
    further shift by [p - q] comes into play. *)
Lemma quota_exact_iff eg p q :
  0 <= eg -> q < p <= MAX ->
  to_process eg p = 2 ^ (p - q) * to_process eg q
  <-> 0 < Z.shiftr eg (MAX - p) /\ (2 ^ (p - q) | Z.shiftr eg (MAX - p)).
Proof.
  intros Heg Hpq. unfold to_process_from_priority.
  set (a := MAX - p). set (d := p - q).
  replace (MAX - q) with (a + d) by (unfold a, d; lia).
  assert (0 <= a) as Ha by (unfold a; lia).
  assert (0 < d) as Hd by (unfold d; lia).
  rewrite <- (Z.shiftr_shiftr eg a d) by lia.
  set (x := Z.shiftr eg a).
  assert (0 <= x) as Hx by (by apply Z.shiftr_nonneg).
  rewrite (Z.shiftr_div_pow2 _ d) by lia.
  assert (2 <= 2 ^ d) as Hpow2.
  { replace 2 with (2 ^ 1) at 1 by done. apply Z.pow_le_mono_r; lia. }
  assert (0 < 2 ^ d) as Hpow by lia.
  pose proof (Z.mul_div_le x (2 ^ d) Hpow) as Hlo.
  pose proof (Z.mul_succ_div_gt x (2 ^ d) Hpow) as Hhi.
  assert (0 <= x / 2 ^ d) as Hdiv by (apply Z.div_pos; lia).
  generalize dependent (x / 2 ^ d). intros y Hlo Hhi Hy.
  generalize dependent (2 ^ d). intros P HP2 HP Hlo Hhi.
  split.
  - intros Heq.
    destruct (Z.max_spec 1 x) as [[? Hm]|[? Hm]]; rewrite Hm in Heq;
      destruct (Z.max_spec 1 y) as [[? Hn]|[? Hn]]; rewrite Hn in Heq;
      try nia.
    all: split; [lia|].
    all: first [exists y; lia | exists 1; lia].
  - intros [Hpos [k Hk]].
    assert (y = k) as -> by nia.
    rewrite (Z.max_r 1 x) by lia. rewrite (Z.max_r 1 k) by nia. lia.
Qed.

(** C3 (amended). In a pass of [on_event], the number of messages taken
    from the list of priority [p] is at most
    [max(1, effective_granularity >> (MAX - p))], where
    [effective_granularity] is the minimum of the number of pending
    messages and [MESSAGE_SCHEDULER_GRANULARITY].  For priorities [q < p]
    the quota at [q] is the quota at [p] shifted right by [p - q], with
    floor 1; so the quota at [p] is at least [2^(p-q)] times the quota at
    [q] as long as the shifted granularity at [q] is not 0, less than
    [2^(p-q)] times the quota at [q] plus one.  It is exactly [2^(p-q)]
    times the quota at [q] if and only if the granularity shifted for [p],
    [effective_granularity >> (MAX - p)], is a positive multiple of
    [2^(p-q)]; this is the case whenever the effective granularity is a
    positive multiple of [2^(MAX-q)]. *)
Theorem pass_quota (initial_pass : bool) arrived st p i :
  args_ok -> index_of p = Some i ->
  let h := pull_pass initial_pass arrived (ps_hub st) in
  let eg := Z.min (total_pending_msgs NUM h) GRAN in
  exists tr,
    ps_trace (on_event_pass initial_pass arrived st) = ps_trace st ++ tr
    /\ Z.of_nat (length (processed_at p tr)) <= Z.max 1 (Z.shiftr eg (MAX - p))
    /\ forall q, q < p ->
         to_process eg q = Z.max 1 (Z.shiftr (to_process eg p) (p - q))
         /\ (1 <= Z.shiftr eg (MAX - q) ->
               2 ^ (p - q) * to_process eg q <= to_process eg p
               < 2 ^ (p - q) * (to_process eg q + 1))
         /\ (to_process eg p = 2 ^ (p - q) * to_process eg q
             <-> 0 < Z.shiftr eg (MAX - p)
                 /\ (2 ^ (p - q) | Z.shiftr eg (MAX - p)))
         /\ ((2 ^ (MAX - q) | eg) -> 0 < eg ->
               to_process eg p = 2 ^ (p - q) * to_process eg q).
Proof.
  intros Hargs Hp h eg. unfold Hub.on_event_pass. fold h.
  destruct (process_pass_spec initial_pass (PassState h (ps_left st) (ps_trace st)))
    as (_ & _ & _ & tr & HT & _ & HP).
  simpl in HT, HP. exists tr. split; [done|].
  destruct (HP p i Hp) as (_ & _ & ->). split.
  - rewrite length_take. unfold quota, to_process_from_priority, Hub.effective_granularity.
    fold eg. lia.
  - intros q Hq.
    assert (0 <= eg) as Heg.
    { pose proof (total_pending_msgs_nonneg h).
      destruct Hargs as (_ & _ & _ & ?). unfold eg. lia. }
    assert (q < p <= MAX) as Hpq by (apply priority_index_Some in Hp; lia).
    destruct (quota_relation eg p q Heg Hpq) as (Hshift & Hbounds & Hmult).
    split; [exact Hshift|]. split; [exact Hbounds|].
    split; [by apply quota_exact_iff|exact Hmult].
Qed.

(** C10. The quota of a pass is at least 1 at every priority.  So when the
    list of a priority [p] is not empty once the pass has pulled the
    incoming messages, the pass takes at least its oldest message [m], and
    a counter of initial messages of that priority that was not yet 0
    goes down. *)
Theorem pass_takes_from_every_nonempty_list (initial_pass : bool) arrived st p i m l :
  index_of p = Some i ->
  plist (pull_pass initial_pass arrived (ps_hub st)) i = m :: l ->
  let h := pull_pass initial_pass arrived (ps_hub st) in
  let left0 := if initial_pass then initial_left h else ps_left st in
  let st' := on_event_pass initial_pass arrived st in
  (forall q, 1 <= to_process (eff_gran h) q)
  /\ (exists tr rest,
        ps_trace st' = ps_trace st ++ tr /\ processed_at p tr = m :: rest)
  /\ (forall c, left0 !! i = Some c -> 0 < c ->
        exists c', ps_left st' !! i = Some c' /\ 0 <= c' < c).
Proof.
  intros Hp Hl h left0 st'. unfold st', Hub.on_event_pass. fold h.
  destruct (process_pass_spec initial_pass (PassState h (ps_left st) (ps_trace st)))
    as (_ & _ & _ & tr & HT & _ & HP).
  simpl in HT, HP. destruct (HP p i Hp) as (_ & HN & HPr).
  fold h in Hl. rewrite Hl in HN, HPr.
  pose proof (to_process_from_priority_ge_1 (eff_gran h) p) as Hq.
  assert (exists n, quota_of (eff_gran h) p = S n) as [n Hn].
  { exists (pred (quota_of (eff_gran h) p)). unfold quota. lia. }
  split; [|split].
  - intros q. apply to_process_from_priority_ge_1.
  - exists tr, (take n l). split; [done|]. by rewrite HPr, Hn.
  - intros c Hc Hpos. fold left0 in HN. rewrite Hc in HN. simpl in HN.
    eexists. split; [exact HN|].
    rewrite decrement_iter_nonneg by lia. rewrite Hn. simpl. lia.
Qed.

End Scheduler.
End HubFacts.

(** ** The message hub: the order of ordered messages *)
Module OrderFacts.
Import Hub HubFacts.

Section Ordered.

Set Default Proof Using "Type".

Variables MESSAGE_SCHEDULER_MIN_PRIORITY MESSAGE_SCHEDULER_MAX_PRIORITY : Z.
Variable MESSAGE_SCHEDULER_ORDERED_PRIORITY : Z.
Variables src tgt io : nat.

Local Abbreviation MIN := MESSAGE_SCHEDULER_MIN_PRIORITY.
Local Abbreviation MAX := MESSAGE_SCHEDULER_MAX_PRIORITY.
Local Abbreviation ORD := MESSAGE_SCHEDULER_ORDERED_PRIORITY.
Local Abbreviation index_of := (priority_index MIN MAX).
Local Abbreviation eff_priority := (effective_priority ORD).
Local Abbreviation sorted_onto := (Hub.sorted_onto MIN MAX ORD).
Local Abbreviation S_of := (stored_ordered src tgt).
Local Abbreviation D_of := (switched_on tgt).
Local Abbreviation H_of := handed_over.
Local Abbreviation inv := (ordered_inv src tgt io).
Local Abbreviation way := (the_way src tgt io).
Local Abbreviation on_way := (on_the_way src tgt io).

Implicit Types (c : slot -> msg_list_t) (log : list log_entry).
Implicit Types (m : linux_thread_message_t) (l : msg_list_t) (s : slot).

Hypothesis ordered_index : index_of ORD = Some io.

(** *** Filters *)

Lemma filter_ext_in {A} (P Q : A -> Prop) `{!forall x, Decision (P x)}
      `{!forall x, Decision (Q x)} (l : list A) :
  (forall x, x ∈ l -> P x <-> Q x) -> filter P l = filter Q l.
Proof.
  induction l as [|a l IH]; intros Hext; [done|].
  rewrite !filter_cons. rewrite IH by (intros; apply Hext; by right).
  destruct (decide (P a)) as [Hp|Hp], (decide (Q a)) as [Hq|Hq]; try done.
  - exfalso. apply Hq, Hext; [by left|done].
  - exfalso. apply Hp, Hext; [by left|done].
Qed.

Lemma filter_none {A} (P : A -> Prop) `{!forall x, Decision (P x)} (l : list A) :
  (forall x, x ∈ l -> ~ P x) -> filter P l = [].
Proof.
  induction l as [|a l IH]; intros Hno; [done|].
  rewrite filter_cons_False by (apply Hno; by left).
  apply IH. intros; apply Hno; by right.
Qed.

Lemma filter_ids_none (S : list nat) l :
  (forall m, m ∈ l -> msg_id m ∉ S) ->
  filter (fun x => x ∈ S) (msg_id <$> l) = [].
Proof.
  intros Hno. apply filter_none. intros x Hx.
  apply list_elem_of_fmap in Hx as (m & -> & Hm). by apply Hno.
Qed.

(** *** Logs *)

Lemma stored_ordered_app log1 log2 :
  S_of (log1 ++ log2) = S_of log1 ++ S_of log2.
Proof. apply bind_app. Qed.

Lemma switched_on_app log1 log2 :
  D_of (log1 ++ log2) = D_of log1 ++ D_of log2.
Proof. apply bind_app. Qed.

Lemma handed_over_app log1 log2 :
  H_of (log1 ++ log2) = H_of log1 ++ H_of log2.
Proof. apply bind_app. Qed.

Lemma stored_ordered_known log x : x ∈ S_of log -> x ∈ H_of log.
Proof.
  unfold stored_ordered, handed_over. rewrite !list_elem_of_bind.
  intros (e & Hx & He). exists e. split; [|done].
  destruct e as [[] me nt msg| |]; try by apply elem_of_nil in Hx.
  case_decide; [done|by apply elem_of_nil in Hx].
Qed.

(** *** The steps of a message, on contents *)

Lemma way_upd_off c s l :
  ~ on_way s -> way (upd c s l) = way c.
Proof.
  intros Hs. unfold the_way, upd.
  rewrite !decide_False; [done| | |]; intros <-; apply Hs; unfold on_the_way; auto.
Qed.

Lemma way_upd_off_ext c c' s l :
  ~ on_way s -> (forall s', c' s' = upd c s l s') -> way c' = way c.
Proof.
  intros Hs Hc. unfold the_way. rewrite !Hc. by apply way_upd_off.
Qed.

(** Appending a message that is not one of the stored ordered ones. *)
Lemma inv_append_other c c' log log' s m :
  S_of log' = S_of log -> D_of log' = D_of log ->
  (forall x, x ∈ H_of log -> x ∈ H_of log') ->
  msg_id m ∉ S_of log -> msg_id m ∈ H_of log' ->
  (forall s', c' s' = upd c s (c s ++ [m]) s') ->
  inv c log -> inv c' log'.
Proof.
  intros HS HD HH Hm Hk Hc [I1 I2 I3 I4 I5 I6].
  assert (forall s' m', m' ∈ c' s' -> m' = m \/ m' ∈ c s') as Hin.
  { intros s' m'. rewrite Hc. unfold upd. case_decide; [subst s'|by right].
    rewrite elem_of_app, list_elem_of_singleton. tauto. }
  assert (filter (fun x => x ∈ S_of log) (msg_id <$> way c')
          = filter (fun x => x ∈ S_of log) (msg_id <$> way c)) as Hw.
  { unfold the_way. rewrite !Hc. unfold upd.
    repeat case_decide; simplify_eq;
      rewrite ?fmap_app, ?filter_app; simpl;
      rewrite ?(filter_cons_False _ (msg_id m)) by done;
      rewrite ?filter_nil, ?app_nil_r; done. }
  split.
  - rewrite HS, HD. rewrite filter_app, Hw, <- filter_app. done.
  - intros s' m' Hs' Hm'. rewrite HS. apply Hin in Hm' as [-> |Hm']; eauto.
  - intros m'. rewrite HS, !elem_of_app. intros [Hm'|Hm'] Hin';
      apply Hin in Hm' as [-> |Hm']; try done; apply I3; [|done| |done];
      rewrite elem_of_app; auto.
  - intros m'. rewrite HS. unfold the_way. rewrite !elem_of_app.
    intros [Hm'|[Hm'|Hm']] Hin';
      apply Hin in Hm' as [-> |Hm']; try done; apply I4; try done;
      unfold the_way; rewrite !elem_of_app; auto.
  - intros s' m' Hm'. apply Hin in Hm' as [-> |Hm']; eauto.
  - intros x. rewrite HD. eauto.
Qed.

(** Storing an ordered message of [src] for [tgt]. *)
Lemma inv_append_ordered c c' log log' m :
  S_of log' = S_of log ++ [msg_id m] -> D_of log' = D_of log ->
  (forall x, x ∈ H_of log -> x ∈ H_of log') ->
  msg_id m ∈ H_of log' -> msg_id m ∉ H_of log ->
  is_ordered m = true -> reloop_count_ m <= 0 ->
  (forall s', c' s' = upd c (slot_queue src tgt) (c (slot_queue src tgt) ++ [m]) s') ->
  inv c log -> inv c' log'.
Proof.
  intros HS HD HH Hk Hfresh Hord Hre Hc [I1 I2 I3 I4 I5 I6].
  assert (forall s' m', m' ∈ c' s' ->
            (m' = m /\ s' = slot_queue src tgt) \/ m' ∈ c s') as Hin.
  { intros s' m'. rewrite Hc. unfold upd. case_decide; [subst s'|by right].
    rewrite elem_of_app, list_elem_of_singleton. tauto. }
  assert (forall s' m', m' ∈ c s' -> msg_id m' <> msg_id m) as Hne.
  { intros s' m' Hm' Heq. apply Hfresh. rewrite <- Heq. eauto. }
  assert (way c' = way c ++ [m]) as Hw.
  { unfold the_way. rewrite !Hc. unfold upd.
    rewrite decide_False by done. rewrite decide_False by done.
    rewrite decide_True by done. by rewrite !app_assoc. }
  assert (forall m', m' ∈ way c' -> m' = m \/ m' ∈ way c) as Hwin.
  { intros m'. rewrite Hw, elem_of_app, list_elem_of_singleton. tauto. }
  assert (forall m', m' ∈ way c -> msg_id m' <> msg_id m) as Hwne.
  { intros m'. unfold the_way. rewrite !elem_of_app. intros [?|[?|?]]; eauto. }
  split.
  - rewrite HS, HD, Hw, fmap_app, app_assoc, filter_app. simpl.
    rewrite filter_cons_True by (apply elem_of_app; right; by left).
    rewrite filter_nil. f_equal.
    etransitivity; [|exact I1].
    apply filter_ext_in. intros x Hx. rewrite elem_of_app, list_elem_of_singleton.
    split; [|tauto]. intros [?| ->]; [done|]. exfalso.
    apply elem_of_app in Hx as [Hx|Hx].
    + apply Hfresh. eauto.
    + apply list_elem_of_fmap in Hx as (m' & Heq & Hm'). by eapply Hwne.
  - intros s' m' Hs' Hm'. rewrite HS.
    apply Hin in Hm' as [[-> ->]|Hm'].
    + exfalso. apply Hs'. unfold on_the_way. auto.
    + rewrite elem_of_app, list_elem_of_singleton.
      intros [?|?]; [by eapply I2|by eapply Hne].
  - intros m'. rewrite HS, !elem_of_app, list_elem_of_singleton.
    intros [Hm'|Hm'] Hin'; apply Hin in Hm' as [[-> _]|Hm']; try done.
    + destruct Hin' as [?|?]; [|exfalso; by eapply Hne].
      apply I3; [|done]. apply elem_of_app; auto.
    + destruct Hin' as [?|?]; [|exfalso; by eapply Hne].
      apply I3; [|done]. apply elem_of_app; auto.
  - intros m' Hm'. rewrite HS, elem_of_app, list_elem_of_singleton.
    apply Hwin in Hm' as [-> |Hm']; [done|].
    intros [?|?]; [by apply I4|exfalso; by eapply Hwne].
  - intros s' m' Hm'. apply Hin in Hm' as [[-> _]|Hm']; eauto.
  - intros x. rewrite HD. eauto.
Qed.

(** Moving the local list of [me] for [i] to the incoming list of [i]. *)
Lemma inv_move c c' log me i :
  (forall s', c' s' = upd (upd c (slot_incoming i)
                            (c (slot_incoming i) ++ c (slot_queue me i)))
                       (slot_queue me i) [] s') ->
  inv c log -> inv c' log.
Proof.
  intros Hc [I1 I2 I3 I4 I5 I6].
  assert (forall s' m', m' ∈ c' s' ->
            m' ∈ c s' \/ (s' = slot_incoming i /\ m' ∈ c (slot_queue me i))) as Hin.
  { intros s' m'. rewrite Hc. unfold upd.
    repeat case_decide; subst; rewrite ?elem_of_app, ?elem_of_nil; tauto. }
  destruct (decide (me = src /\ i = tgt)) as [[-> ->]|Hne].
  - assert (way c' = way c) as Hw.
    { unfold the_way. rewrite !Hc. unfold upd.
      repeat case_decide; simplify_eq.
      by rewrite app_nil_r. }
    split; try done.
    + by rewrite Hw.
    + intros s' m' Hs' Hm'. apply Hin in Hm' as [?|[-> ?]]; [by eapply I2|].
      exfalso. apply Hs'. unfold on_the_way. auto.
    + intros m'. rewrite elem_of_app. intros [Hm'|Hm'] Hs.
      * apply Hin in Hm' as [?|[_ ?]]; apply I3; try done; apply elem_of_app; auto.
      * apply Hin in Hm' as [?|[? _]]; [|by simplify_eq].
        apply I3; [|done]. apply elem_of_app; auto.
    + intros m'. rewrite Hw. apply I4.
    + intros s' m' Hm'. apply Hin in Hm' as [?|[_ ?]]; eauto.
  - assert (~ on_way (slot_queue me i)) as Hoff.
    { unfold on_the_way. intros [?|[?|?]]; simplify_eq. tauto. }
    assert (forall m', m' ∈ c (slot_queue me i) -> msg_id m' ∉ S_of log) as Hfree
      by (intros; by eapply I2).
    assert (filter (fun x => x ∈ S_of log) (msg_id <$> way c')
            = filter (fun x => x ∈ S_of log) (msg_id <$> way c)) as Hw.
    { unfold the_way. rewrite !Hc. unfold upd.
      rewrite !(decide_False (P := slot_priority _ _ = _)) by done.
      rewrite (decide_False (P := slot_incoming _ = slot_queue _ _)) by done.
      rewrite (decide_False (P := slot_queue src tgt = slot_queue me i))
        by (intros ?; simplify_eq; tauto).
      rewrite (decide_False (P := slot_queue src tgt = slot_incoming i)) by done.
      case_decide as Hd; [|done].
      rewrite !fmap_app, !filter_app.
      rewrite (filter_ids_none _ (c (slot_queue me i)) Hfree).
      simplify_eq. by rewrite app_nil_r. }
    split; try done.
    + rewrite filter_app, Hw, <- filter_app. done.
    + intros s' m' Hs' Hm'. apply Hin in Hm' as [?|[-> ?]]; [by eapply I2|by apply Hfree].
    + intros m'. rewrite elem_of_app. intros [Hm'|Hm'] Hs;
        apply Hin in Hm' as [?|[? ?]]; try (by simplify_eq).
      * apply I3; [|done]. apply elem_of_app; auto.
      * exfalso. by eapply Hfree.
      * apply I3; [|done]. apply elem_of_app; auto.
    + intros m'. unfold the_way. rewrite !elem_of_app. intros [Hm'|[Hm'|Hm']] Hs;
        apply Hin in Hm' as [?|[? ?]]; try (by simplify_eq);
        try (exfalso; by eapply Hfree);
        apply I4; try done; unfold the_way; rewrite !elem_of_app; auto.
    + intros s' m' Hm'. apply Hin in Hm' as [?|[_ ?]]; eauto.
Qed.

(** Sorting the incoming list of [u] onto its priority lists. *)
Lemma sorted_msg_id m : msg_id (sorted_msg m) = msg_id m.
Proof. unfold sorted_msg. by destruct (is_ordered m). Qed.

Lemma sorted_msg_reloop m : reloop_count_ (sorted_msg m) = reloop_count_ m.
Proof. unfold sorted_msg. by destruct (is_ordered m). Qed.

Lemma sorted_onto_elem_inv j m l :
  m ∈ sorted_onto j l ->
  exists m0, m0 ∈ l /\ m = sorted_msg m0 /\ index_of (eff_priority m0) = Some j.
Proof.
  unfold Hub.sorted_onto. rewrite list_elem_of_bind. intros (m0 & Hm & Hm0).
  exists m0. case_decide; [|by apply elem_of_nil in Hm].
  apply list_elem_of_singleton in Hm. done.
Qed.

Lemma filter_sorted_onto (S : list nat) l :
  (forall m, m ∈ l -> msg_id m ∈ S -> is_ordered m = true) ->
  filter (fun x => x ∈ S) (msg_id <$> sorted_onto io l)
  = filter (fun x => x ∈ S) (msg_id <$> l).
Proof using ordered_index.
  induction l as [|m l IH]; intros Hl; [done|].
  unfold Hub.sorted_onto. rewrite bind_cons. fold (sorted_onto io l).
  rewrite fmap_app, filter_app, IH by (intros; apply Hl; [by right|done]).
  rewrite fmap_cons, filter_cons.
  destruct (decide (msg_id m ∈ S)) as [Hin|Hout].
  - assert (index_of (eff_priority m) = Some io) as Hio.
    { unfold effective_priority. rewrite Hl; [done|by left|done]. }
    rewrite decide_True by done. simpl.
    rewrite sorted_msg_id, filter_cons_True by done. done.
  - case_decide; simpl; [|done].
    rewrite sorted_msg_id, filter_cons_False by done. done.
Qed.

Lemma inv_sort c c' log u :
  c' (slot_incoming u) = [] ->
  (forall j, c' (slot_priority u j)
             = c (slot_priority u j) ++ sorted_onto j (c (slot_incoming u))) ->
  (forall s, s <> slot_incoming u -> (forall j, s <> slot_priority u j) ->
             c' s = c s) ->
  inv c log -> inv c' log.
Proof using ordered_index.
  intros Hinc Hprio Hother [I1 I2 I3 I4 I5 I6].
  assert (forall s m, m ∈ c' s ->
            m ∈ c s \/ exists j m0, s = slot_priority u j /\ m0 ∈ c (slot_incoming u)
                                    /\ m = sorted_msg m0
                                    /\ index_of (eff_priority m0) = Some j) as Hin.
  { intros s m Hm. destruct s as [a b|a|a b].
    - rewrite Hother in Hm by done. by left.
    - destruct (decide (a = u)) as [->|Hne].
      + rewrite Hinc in Hm. by apply elem_of_nil in Hm.
      + rewrite Hother in Hm by congruence. by left.
    - destruct (decide (a = u)) as [->|Hne].
      + rewrite Hprio in Hm. apply elem_of_app in Hm as [?|Hm]; [by left|].
        apply sorted_onto_elem_inv in Hm as (m0 & ? & ? & ?).
        right. by exists b, m0.
      + rewrite Hother in Hm by congruence. by left. }
  assert (c' (slot_queue src tgt) = c (slot_queue src tgt)) as Hq
    by (by apply Hother).
  destruct (decide (u = tgt)) as [->|Hne].
  - assert (forall m0, m0 ∈ c (slot_incoming tgt) -> msg_id m0 ∈ S_of log ->
                       index_of (eff_priority m0) = Some io) as Hio.
    { intros m0 Hm0 Hs. unfold effective_priority.
      rewrite I3; [done| |done]. apply elem_of_app. by left. }
    split; try done.
    + etransitivity; [|exact I1]. unfold the_way. rewrite Hprio, Hinc, Hq.
      rewrite !fmap_app, !filter_app. simpl.
      rewrite filter_sorted_onto; [by rewrite <- !app_assoc|].
      intros m Hm. apply I3. apply elem_of_app. by left.
    + intros s m Hs Hm. apply Hin in Hm as [?|(j & m0 & -> & Hm0 & -> & Hj)];
        [by eapply I2|].
      rewrite sorted_msg_id. intros Hin'.
      apply Hs. left. f_equal. specialize (Hio m0 Hm0 Hin'). congruence.
    + intros m. rewrite Hinc, Hq. simpl. intros Hm. apply I3.
      apply elem_of_app. by right.
    + intros m. unfold the_way. rewrite Hprio, Hinc, Hq. simpl.
      rewrite !elem_of_app. intros [[Hm|Hm]|Hm] Hs.
      * apply I4; [|done]. unfold the_way. rewrite !elem_of_app. auto.
      * apply sorted_onto_elem_inv in Hm as (m0 & Hm0 & -> & _).
        rewrite sorted_msg_id in Hs. rewrite sorted_msg_reloop.
        apply I4; [|done]. unfold the_way. rewrite !elem_of_app. auto.
      * apply I4; [|done]. unfold the_way. rewrite !elem_of_app. auto.
    + intros s m Hm. apply Hin in Hm as [?|(j & m0 & -> & Hm0 & -> & Hj)]; [eauto|].
      rewrite sorted_msg_id. eauto.
  - assert (way c' = way c) as Hw.
    { unfold the_way. rewrite Hq.
      rewrite (Hother (slot_priority tgt io)) by congruence.
      rewrite (Hother (slot_incoming tgt)) by congruence. done. }
    split; try done.
    + by rewrite Hw.
    + intros s m Hs Hm. apply Hin in Hm as [?|(j & m0 & -> & Hm0 & -> & Hj)];
        [by eapply I2|].
      rewrite sorted_msg_id. apply (I2 (slot_incoming u)); [|done].
      unfold on_the_way. intros [?|[?|?]]; congruence.
    + intros m. rewrite Hq, (Hother (slot_incoming tgt)) by congruence. apply I3.
    + intros m. rewrite Hw. apply I4.
    + intros s m Hm. apply Hin in Hm as [?|(j & m0 & -> & Hm0 & -> & Hj)]; [eauto|].
      rewrite sorted_msg_id. eauto.
Qed.

(** Taking the message at the head of a priority list of [u], to run its
    [on_thread_switch] or to send it round again. *)
Lemma inv_take c c' log log' u i m rest (switched : bool) :
  c (slot_priority u i) = m :: rest ->
  (forall s', c' s' = upd c (slot_priority u i) rest s') ->
  S_of log' = S_of log -> H_of log' = H_of log ->
  D_of log' = D_of log ++ (if switched then if decide (u = tgt) then [msg_id m] else []
                           else []) ->
  (switched = false -> 0 < reloop_count_ m) ->
  inv c log -> inv c' log'.
Proof.
  intros Hhead Hc HS HH HD Hre [I1 I2 I3 I4 I5 I6].
  assert (forall s' m', m' ∈ c' s' -> m' ∈ c s') as Hin.
  { intros s' m'. rewrite Hc. unfold upd.
    destruct (decide (s' = slot_priority u i)) as [->|]; [|done].
    rewrite Hhead. by right. }
  assert (m ∈ c (slot_priority u i)) as Hm by (rewrite Hhead; by left).
  assert (forall m', m' ∈ way c' -> m' ∈ way c) as Hwin.
  { intros m'. unfold the_way. rewrite !elem_of_app. intros [?|[?|?]]; eauto. }
  assert (filter (fun x => x ∈ S_of log) (D_of log' ++ (msg_id <$> way c'))
          = S_of log) as Horder.
  { etransitivity; [|exact I1]. rewrite HD.
    destruct (decide (u = tgt /\ i = io)) as [[-> ->]|Hoff].
    - assert (way c = m :: way c') as ->.
      { unfold the_way. rewrite !Hc, Hhead. unfold upd.
        rewrite decide_True by done. by rewrite !decide_False by done. }
      rewrite fmap_cons. destruct switched.
      + rewrite decide_True by done. by rewrite <- app_assoc.
      + assert (msg_id m ∉ S_of log) as Hout.
        { intros Hs. specialize (Hre eq_refl).
          assert (reloop_count_ m <= 0); [|lia].
          apply I4; [|done]. unfold the_way. rewrite Hhead. by left. }
        rewrite app_nil_r, !filter_app. by rewrite filter_cons_False.
    - assert (way c' = way c) as ->.
      { apply (way_upd_off_ext c c' (slot_priority u i) rest); [|done].
        unfold on_the_way. intros [?|[?|?]]; simplify_eq. tauto. }
      assert (msg_id m ∉ S_of log) as Hout.
      { apply (I2 (slot_priority u i)); [|done]. unfold on_the_way.
        intros [?|[?|?]]; simplify_eq. tauto. }
      destruct switched; [|by rewrite app_nil_r].
      case_decide; [|by rewrite app_nil_r].
      rewrite !filter_app. by rewrite filter_cons_False, filter_nil, app_nil_r. }
  split.
  - by rewrite HS.
  - intros s' m' Hs' Hm'. rewrite HS. eauto.
  - intros m'. rewrite HS, elem_of_app. intros [?|?]; apply I3; apply elem_of_app; eauto.
  - intros m' Hm'. rewrite HS. eauto.
  - intros s' m' Hm'. rewrite HH. eauto.
  - intros x. rewrite HD, HH, elem_of_app. intros [?|Hx]; [eauto|].
    destruct switched; [|by apply elem_of_nil in Hx].
    case_decide; [|by apply elem_of_nil in Hx].
    apply list_elem_of_singleton in Hx as ->. eauto.
Qed.

Lemma inv_head_not_stored c log u i m rest :
  inv c log -> c (slot_priority u i) = m :: rest -> 0 < reloop_count_ m ->
  msg_id m ∉ S_of log.
Proof.
  intros [I1 I2 I3 I4 I5 I6] Hhead Hre Hin.
  destruct (decide (u = tgt /\ i = io)) as [[-> ->]|Hoff].
  - assert (reloop_count_ m <= 0); [|lia].
    apply I4; [|done]. unfold the_way. rewrite Hhead. by left.
  - apply (I2 (slot_priority u i) m); [|by rewrite Hhead; left|done].
    unfold on_the_way. intros [?|[?|?]]; simplify_eq. by apply Hoff.
Qed.

End Ordered.

Section Pool.

Set Default Proof Using "Type".

Variables MESSAGE_SCHEDULER_MIN_PRIORITY MESSAGE_SCHEDULER_MAX_PRIORITY : Z.
Variable MESSAGE_SCHEDULER_ORDERED_PRIORITY : Z.
Variable NUM_SCHEDULER_PRIORITIES : Z.
Variable MESSAGE_SCHEDULER_GRANULARITY : Z.
Variable on_thread_switch : linux_thread_message_t -> list store_call.
Variable n_threads : nat.
Variables src tgt io : nat.

Local Abbreviation MIN := MESSAGE_SCHEDULER_MIN_PRIORITY.
Local Abbreviation MAX := MESSAGE_SCHEDULER_MAX_PRIORITY.
Local Abbreviation ORD := MESSAGE_SCHEDULER_ORDERED_PRIORITY.
Local Abbreviation NUM := NUM_SCHEDULER_PRIORITIES.
Local Abbreviation GRAN := MESSAGE_SCHEDULER_GRANULARITY.
Local Abbreviation index_of := (priority_index MIN MAX).
Local Abbreviation pool_ok := (Hub.pool_ok NUM n_threads).
Local Abbreviation hub_ok := (Hub.hub_ok NUM).
Local Abbreviation S_of := (stored_ordered src tgt).
Local Abbreviation D_of := (switched_on tgt).
Local Abbreviation H_of := handed_over.
Local Abbreviation inv := (ordered_inv src tgt io).
Local Abbreviation safe := (safe_step src tgt io).
Local Abbreviation step := (step_ok NUM n_threads src tgt io).
Local Abbreviation sort_incoming := (sort_incoming_messages_by_priority MIN MAX ORD).
Local Abbreviation sorted_onto := (Hub.sorted_onto MIN MAX ORD).
Local Abbreviation update_list := (update_priority_msg_list MIN MAX).
Local Abbreviation process_message := (Hub.process_message MIN MAX on_thread_switch).
Local Abbreviation process_priority := (Hub.process_priority MIN MAX on_thread_switch).
Local Abbreviation process_priorities := (Hub.process_priorities MIN MAX on_thread_switch).
Local Abbreviation process_pass := (Hub.process_pass MIN MAX NUM GRAN on_thread_switch).
Local Abbreviation run_action := (Hub.run_action MIN MAX ORD NUM GRAN on_thread_switch).
Local Abbreviation run_actions := (Hub.run_actions MIN MAX ORD NUM GRAN on_thread_switch).
Local Abbreviation lift := (lift_pass on_thread_switch).
Local Abbreviation callbacks_ok := (Hub.callbacks_ok on_thread_switch n_threads).

Implicit Types (pool : thread_pool_t) (log : list log_entry).
Implicit Types (h : linux_message_hub_t) (m : linux_thread_message_t).
Implicit Types (s : slot) (st : pass_state).

Hypothesis ordered_index : index_of ORD = Some io.

Hypothesis args_ok : scheduler_args_ok MIN MAX ORD NUM GRAN.

Lemma sorted_onto_out_of_range j (l : msg_list_t) :
  (Z.to_nat NUM <= j)%nat -> sorted_onto j l = [].
Proof using args_ok.
  intros Hj. unfold Hub.sorted_onto.
  induction l as [|m l IH]; [done|]. rewrite bind_cons, IH, app_nil_r.
  case_decide as Hi; [|done].
  apply (priority_index_lt MIN MAX ORD NUM GRAN) in Hi; [lia|done].
Qed.

(** *** Steps compose *)

Lemma step_refl pool log : step (pool, log) (pool, log).
Proof.
  intros Hok. split; [done|]. split; [|done].
  exists []. by rewrite app_nil_r.
Qed.

Lemma step_trans x y z : step x y -> step y z -> step x z.
Proof.
  intros Hxy Hyz Hok. destruct (Hxy Hok) as (Hoky & [e1 He1] & Hsy).
  destruct (Hyz Hoky) as (Hokz & [e2 He2] & Hsz).
  split; [done|]. simpl in *. split.
  - exists (e1 ++ e2). simpl. by rewrite He2, He1, app_assoc.
  - simpl. intros Hinv Hnd. apply Hsz; [|done]. apply Hsy; [done|].
    rewrite He2, handed_over_app in Hnd. by apply NoDup_app in Hnd as (? & _).
Qed.

(** *** Contents of a pool after an update of one hub *)

Lemma content_alter f u pool s :
  content (alter f u pool) s =
  if decide (slot_thread s = u)
  then match pool !! u with Some h => content_hub (f h) s | None => [] end
  else content pool s.
Proof.
  unfold content. case_decide as Hu.
  - rewrite Hu, list_lookup_alter_eq. by destruct (pool !! u).
  - by rewrite list_lookup_alter_ne.
Qed.

Lemma content_alter_thread f u pool s :
  slot_thread s <> u ->
  match alter f u pool !! slot_thread s with
  | Some h => content_hub h s
  | None => []
  end = content pool s.
Proof. intros Hs. unfold content. by rewrite list_lookup_alter_ne. Qed.

Lemma content_insert h u pool s :
  (u < length pool)%nat ->
  content (<[u := h]> pool) s =
  if decide (slot_thread s = u) then content_hub h s else content pool s.
Proof.
  intros Hu. unfold content. case_decide as Hs.
  - by rewrite Hs, list_lookup_insert_eq.
  - by rewrite list_lookup_insert_ne.
Qed.

Lemma pool_ok_lookup pool u :
  pool_ok pool -> (u < n_threads)%nat ->
  exists h, pool !! u = Some h /\ length (queues_ h) = n_threads
            /\ hub_ok h /\ current_thread_ h = u.
Proof.
  intros [Hlen Hall] Hu.
  destruct (lookup_lt_is_Some_2 pool u) as [h Hh]; [lia|].
  exists h. split; [done|]. by apply Hall.
Qed.

Lemma pool_ok_alter f u pool :
  pool_ok pool ->
  (forall h, length (queues_ h) = n_threads -> hub_ok h ->
             length (queues_ (f h)) = n_threads /\ hub_ok (f h)
             /\ current_thread_ (f h) = current_thread_ h) ->
  pool_ok (alter f u pool).
Proof.
  intros [Hlen Hall] Hf. split; [by rewrite length_alter|].
  intros v h. rewrite list_lookup_alter. case_decide as Hv.
  - subst v. destruct (pool !! u) as [h0|] eqn:E; [|done]. simpl.
    intros [= <-]. destruct (Hall u h0 E) as (Hq & Hh & Hc).
    destruct (Hf h0 Hq Hh) as (? & ? & ?). split; [done|]. split; [done|]. congruence.
  - apply Hall.
Qed.

Lemma pool_ok_insert h u pool :
  pool_ok pool -> length (queues_ h) = n_threads -> hub_ok h ->
  current_thread_ h = u -> pool_ok (<[u := h]> pool).
Proof.
  intros [Hlen Hall] Hq Hh Hc. split; [by rewrite length_insert|].
  intros v h'. destruct (decide (u = v)) as [<-|Hne].
  - destruct (decide (u < length pool)%nat).
    + rewrite list_lookup_insert_eq by done. by intros [= <-].
    + rewrite list_insert_ge by lia. apply Hall.
  - rewrite list_lookup_insert_ne by done. apply Hall.
Qed.

(** *** Storing and inserting *)

Lemma content_do_store me nt m pool :
  pool_ok pool -> (me < n_threads)%nat -> (nt < n_threads)%nat ->
  forall s, content (alter (do_store_message nt m) me pool) s
            = upd (content pool) (slot_queue me nt)
                  (content pool (slot_queue me nt) ++ [m]) s.
Proof.
  intros Hok Hme Hnt s. rewrite content_alter.
  destruct (pool_ok_lookup pool me Hok Hme) as (h & Hh & Hq & _).
  rewrite Hh. unfold upd, content. simpl. rewrite Hh.
  destruct s as [u j|u|u i]; simpl.
  - destruct (decide (u = me)) as [->|Hu].
    + rewrite Hh. simpl. rewrite list_lookup_alter.
      destruct (decide (nt = j)) as [->|Hj].
      * rewrite decide_True by done.
        destruct (lookup_lt_is_Some_2 (queues_ h) j) as [q ->]; [lia|]. done.
      * rewrite decide_False by congruence. done.
    + rewrite decide_False by congruence. done.
  - destruct (decide (u = me)) as [->|Hu]; [by rewrite Hh|done].
  - destruct (decide (u = me)) as [->|Hu]; [by rewrite Hh|done].
Qed.

Lemma pool_ok_do_store me nt m pool :
  pool_ok pool -> pool_ok (alter (do_store_message nt m) me pool).
Proof.
  intros Hok. apply pool_ok_alter; [done|]. intros h Hq Hh.
  unfold do_store_message. simpl. by rewrite length_alter.
Qed.

Lemma step_store (ordered : bool) me nt m pool log :
  (me < n_threads)%nat -> (nt < n_threads)%nat ->
  step (pool, log)
       (alter (if ordered then store_message_ordered nt m
               else store_message_sometime nt m) me pool,
        log ++ [log_store ordered me nt m]).
Proof.
  intros Hme Hnt Hok. simpl in Hok.
  set (m' := if ordered then set_is_ordered true (set_reloop_count_ 0 m)
             else set_reloop_count_ 0 m).
  assert ((if ordered then store_message_ordered nt m else store_message_sometime nt m)
          = do_store_message nt m') as -> by (by destruct ordered).
  split; [by apply pool_ok_do_store|].
  split; [by eexists|]. simpl. intros Hinv Hnd.
  pose proof (content_do_store me nt m' pool Hok Hme Hnt) as Hc.
  rewrite handed_over_app in Hnd. simpl in Hnd.
  apply NoDup_app in Hnd as (_ & Hfresh & _).
  assert (msg_id m ∉ H_of log) as Hnew.
  { intros Hin. apply (Hfresh _ Hin). by left. }
  assert (msg_id m' = msg_id m) as Hid by (unfold m'; by destruct ordered).
  assert (forall x, x ∈ H_of log -> x ∈ H_of (log ++ [log_store ordered me nt m])) as Hmono.
  { intros x Hx. rewrite handed_over_app. apply elem_of_app. by left. }
  assert (msg_id m' ∈ H_of (log ++ [log_store ordered me nt m])) as Hk.
  { rewrite handed_over_app, Hid. apply elem_of_app. right. by left. }
  assert (D_of (log ++ [log_store ordered me nt m]) = D_of log) as HD.
  { rewrite switched_on_app. simpl. by rewrite app_nil_r. }
  destruct (decide (ordered = true /\ me = src /\ nt = tgt)) as [(-> & -> & ->)|Hno].
  - eapply (inv_append_ordered src tgt io); try done.
    rewrite stored_ordered_app. simpl. rewrite decide_True by done.
    rewrite app_nil_r. reflexivity.
  - assert (S_of (log ++ [log_store ordered me nt m]) = S_of log) as HS.
    { rewrite stored_ordered_app. simpl. destruct ordered; [|by rewrite !app_nil_r].
      rewrite decide_False by (intros [? ?]; by apply Hno). by rewrite !app_nil_r. }
    eapply (inv_append_other src tgt io); try done.
    rewrite Hid. intros Hin. apply Hnew. by apply stored_ordered_known in Hin.
Qed.

Lemma step_insert_external t m pool log :
  (t < n_threads)%nat ->
  step (pool, log)
       (alter (insert_external_message m) t pool, log ++ [log_insert_external t m]).
Proof.
  intros Ht Hok. simpl in Hok. split.
  { apply pool_ok_alter; [done|]. intros h Hq Hh.
    unfold insert_external_message. simpl. by destruct (is_woken_up_ h). }
  split; [by eexists|]. simpl. intros Hinv Hnd.
  rewrite handed_over_app in Hnd. simpl in Hnd.
  apply NoDup_app in Hnd as (_ & Hfresh & _).
  assert (msg_id m ∉ H_of log) as Hnew.
  { intros Hin. apply (Hfresh _ Hin). by left. }
  assert (S_of (log ++ [log_insert_external t m]) = S_of log) as HS.
  { rewrite stored_ordered_app. simpl. by rewrite app_nil_r. }
  assert (D_of (log ++ [log_insert_external t m]) = D_of log) as HD.
  { rewrite switched_on_app. simpl. by rewrite app_nil_r. }
  assert (forall x, x ∈ H_of log -> x ∈ H_of (log ++ [log_insert_external t m])) as Hmono.
  { intros x Hx. rewrite handed_over_app. apply elem_of_app. by left. }
  assert (msg_id m ∉ S_of log) as Hnot.
  { intros Hin. apply Hnew. by apply stored_ordered_known in Hin. }
  assert (msg_id m ∈ H_of (log ++ [log_insert_external t m])) as Hk.
  { rewrite handed_over_app. apply elem_of_app. right. by left. }
  apply (inv_append_other src tgt io (content pool) _ log _ (slot_incoming t) m
           HS HD Hmono Hnot Hk); [|done].
  intros s. rewrite content_alter.
  destruct (pool_ok_lookup pool t Hok Ht) as (h & Hh & _).
  rewrite Hh. unfold upd, content.
  assert (queues_ (insert_external_message m h) = queues_ h
          /\ priority_msg_lists_ (insert_external_message m h) = priority_msg_lists_ h
          /\ incoming_messages_ (insert_external_message m h)
             = incoming_messages_ h ++ [m]) as (Eq & Ep & Ei).
  { unfold insert_external_message. simpl. by destruct (is_woken_up_ h). }
  destruct s as [u j|u|u i]; simpl.
  - rewrite Eq. destruct (decide (u = t)) as [->|Hu]; [by rewrite Hh|done].
  - destruct (decide (u = t)) as [->|Hu].
    + rewrite decide_True by done. by rewrite Hh, Ei.
    + rewrite decide_False by congruence. done.
  - unfold priority_msg_list_at. rewrite Ep.
    destruct (decide (u = t)) as [->|Hu]; [by rewrite Hh|done].
Qed.

(** *** Moving local lists to incoming lists *)

Lemma step_move me i pool pool' log :
  (me < n_threads)%nat -> (i < n_threads)%nat ->
  (pool_ok pool -> pool_ok pool') ->
  (pool_ok pool ->
   forall s, content pool' s
             = upd (upd (content pool) (slot_incoming i)
                        (content pool (slot_incoming i) ++ content pool (slot_queue me i)))
                   (slot_queue me i) [] s) ->
  step (pool, log) (pool', log).
Proof.
  intros Hme Hi Hok' Hc Hok. simpl in Hok. split; [by apply Hok'|].
  split; [exists []; by rewrite app_nil_r|]. simpl. intros Hinv _.
  by apply (inv_move src tgt io (content pool) _ log me i (Hc Hok)).
Qed.

Lemma receive_pushed_spec msgs h :
  queues_ (receive_pushed msgs h) = queues_ h
  /\ priority_msg_lists_ (receive_pushed msgs h) = priority_msg_lists_ h
  /\ incoming_messages_ (receive_pushed msgs h) = incoming_messages_ h ++ msgs
  /\ current_thread_ (receive_pushed msgs h) = current_thread_ h.
Proof. unfold receive_pushed. simpl. by destruct (is_woken_up_ h). Qed.

Lemma step_push_messages_to me i pool log :
  (me < n_threads)%nat -> (i < n_threads)%nat ->
  step (pool, log) (push_messages_to me i pool, log).
Proof.
  intros Hme Hi. unfold push_messages_to.
  destruct (pool !! me) as [this|] eqn:Hthis; [|apply step_refl].
  destruct (default [] (queues_ this !! i)) as [|m0 q] eqn:Hq; [apply step_refl|].
  rewrite <- Hq. remember (default [] (queues_ this !! i)) as msgs eqn:Hmsgs.
  apply (step_move me i); [done|done| |].
  - intros Hok. apply pool_ok_alter.
    + apply pool_ok_alter; [done|]. intros h Hlen Hh.
      destruct (receive_pushed_spec msgs h) as (-> & Hp & _ & ->).
      unfold Hub.hub_ok in *. by rewrite Hp.
    + intros h Hlen Hh. simpl. by rewrite length_insert.
  - intros Hok s.
    destruct (pool_ok_lookup pool i Hok Hi) as (hi & Hhi & Hqi & _).
    assert (content pool (slot_queue me i) = msgs) as Hcq.
    { unfold content. simpl. by rewrite Hthis. }
    rewrite Hcq, content_alter. rewrite list_lookup_alter, Hhi. simpl.
    destruct (receive_pushed_spec msgs hi) as (Rq & Rp & Ri & Rc).
    unfold upd, content.
    destruct s as [u j|u|u k]; simpl.
    + destruct (decide (u = me)) as [->|Hu].
      * destruct (decide (i = me)) as [->|Hne].
        -- simplify_eq. simpl. rewrite Rq.
           destruct (decide (j = me)) as [->|Hj].
           ++ rewrite decide_True by done.
              rewrite list_lookup_insert_eq by lia. done.
           ++ rewrite decide_False by congruence.
              rewrite list_lookup_insert_ne by done. by rewrite Hthis.
        -- rewrite Hthis. simpl.
           destruct (decide (j = i)) as [->|Hj].
           ++ rewrite decide_True by done.
              destruct (pool_ok_lookup pool me Hok Hme) as (? & ? & ? & _).
              simplify_eq. rewrite list_lookup_insert_eq by lia. done.
           ++ rewrite decide_False by congruence.
              rewrite list_lookup_insert_ne by done. done.
      * rewrite decide_False by congruence.
        rewrite list_lookup_alter.
        destruct (decide (i = u)) as [<-|Hui]; [|done].
        rewrite Hhi. simpl. by rewrite Rq.
    + destruct (decide (u = me)) as [->|Hu].
      * destruct (decide (i = me)) as [->|Hne].
        -- rewrite decide_True by done. by rewrite Ri, Hhi.
        -- rewrite Hthis. simpl. rewrite decide_False by congruence. done.
      * rewrite list_lookup_alter.
        destruct (decide (i = u)) as [<-|Hui].
        -- rewrite decide_True by done. rewrite Hhi. simpl. by rewrite Ri.
        -- rewrite decide_False by congruence. done.
    + destruct (decide (u = me)) as [->|Hu].
      * destruct (decide (i = me)) as [->|Hne].
        -- unfold priority_msg_list_at. simpl. by rewrite Rp, Hhi.
        -- by rewrite Hthis.
      * rewrite list_lookup_alter.
        destruct (decide (i = u)) as [<-|Hui]; [|done].
        rewrite Hhi. simpl. unfold priority_msg_list_at. by rewrite Rp.
Qed.

Lemma step_push_messages_targets me targets log :
  (me < n_threads)%nat -> Forall (fun i => i < n_threads)%nat targets ->
  forall pool,
    step (pool, log)
         (foldl (fun pool i => push_messages_to me i pool) pool targets, log).
Proof.
  intros Hme Hall. induction Hall as [|i targets Hi _ IH]; intros pool.
  - apply step_refl.
  - simpl. eapply step_trans; [by apply (step_push_messages_to me i)|apply IH].
Qed.

Lemma step_push_messages me pool log :
  (me < n_threads)%nat ->
  step (pool, log) (push_messages me pool, log).
Proof.
  intros Hme Hok. unfold push_messages.
  apply step_push_messages_targets; [done| |done].
  destruct Hok as [Hlen _]. simpl in Hlen. apply Forall_forall. intros i Hi.
  apply elem_of_seq in Hi. lia.
Qed.

Lemma deliver_local_messages_spec h :
  queues_ (deliver_local_messages h) = <[current_thread_ h := []]> (queues_ h)
  /\ priority_msg_lists_ (deliver_local_messages h) = priority_msg_lists_ h
  /\ incoming_messages_ (deliver_local_messages h)
     = incoming_messages_ h ++ default [] (queues_ h !! current_thread_ h)
  /\ current_thread_ (deliver_local_messages h) = current_thread_ h.
Proof.
  unfold deliver_local_messages.
  destruct (default [] (queues_ h !! current_thread_ h)) as [|m0 q] eqn:E.
  - rewrite app_nil_r. split; [|done]. symmetry. apply list_insert_id'.
    intros Hlt. destruct (lookup_lt_is_Some_2 _ _ Hlt) as [x Hx].
    rewrite Hx in E. simpl in E. by subst x.
  - simpl. by destruct (is_woken_up_ h).
Qed.

Lemma step_deliver_local_messages me pool log :
  (me < n_threads)%nat ->
  step (pool, log) (alter deliver_local_messages me pool, log).
Proof.
  intros Hme. apply (step_move me me); [done|done| |].
  - intros Hok. apply pool_ok_alter; [done|]. intros h Hlen Hh.
    destruct (deliver_local_messages_spec h) as (-> & Hp & _ & ->).
    rewrite length_insert. unfold Hub.hub_ok in *. by rewrite Hp.
  - intros Hok s. rewrite content_alter.
    destruct (pool_ok_lookup pool me Hok Hme) as (h & Hh & Hq & _ & Hc).
    rewrite Hh. destruct (deliver_local_messages_spec h) as (Dq & Dp & Di & _).
    rewrite Hc in Dq, Di. unfold upd, content.
    destruct s as [u j|u|u k]; simpl.
    + destruct (decide (u = me)) as [->|Hu].
      * rewrite Dq. destruct (decide (j = me)) as [->|Hj].
        -- rewrite decide_True by done. by rewrite list_lookup_insert_eq by lia.
        -- rewrite decide_False by congruence.
           rewrite list_lookup_insert_ne by done. by rewrite Hh.
      * rewrite decide_False by congruence. done.
    + destruct (decide (u = me)) as [->|Hu].
      * rewrite decide_True by done. by rewrite Di, Hh.
      * rewrite decide_False by congruence. done.
    + destruct (decide (u = me)) as [->|Hu]; [|done].
      unfold priority_msg_list_at. by rewrite Dp, Hh.
Qed.

(** *** Sorting *)

Lemma step_sort_incoming me (reset : bool) pool log :
  (me < n_threads)%nat ->
  step (pool, log) (alter (sort_incoming reset) me pool, log).
Proof using ordered_index args_ok.
  intros Hme Hok. simpl in Hok.
  destruct (pool_ok_lookup pool me Hok Hme) as (h & Hh & Hq & Hhub & Hc).
  destruct (sort_incoming_spec MIN MAX ORD reset h) as (SL & SI & SQ & SC & SP).
  split.
  { apply pool_ok_alter; [done|]. intros h' Hlen' Hh'.
    destruct (sort_incoming_spec MIN MAX ORD reset h') as (L & _ & Q & C & _).
    unfold Hub.hub_ok in *. by rewrite L, Q, C. }
  split; [exists []; by rewrite app_nil_r|]. simpl. intros Hinv _.
  apply (inv_sort MIN MAX ORD src tgt io ordered_index (content pool) _ log me);
    [| | |done].
  - rewrite content_alter, decide_True by done. by rewrite Hh.
  - intros j. rewrite content_alter, decide_True by done.
    rewrite Hh. unfold content. simpl. rewrite Hh.
    destruct (decide (j < length (priority_msg_lists_ h))%nat) as [Hj|Hj].
    + by apply SP.
    + unfold priority_msg_list_at.
      rewrite !lookup_ge_None_2 by lia. simpl.
      symmetry. apply (sorted_onto_out_of_range j (incoming_messages_ h)).
      unfold Hub.hub_ok in Hhub. lia.
  - intros s Hs1 Hs2. rewrite content_alter.
    destruct s as [u j|u|u k]; simpl.
    + case_decide as Hu; [|done]. subst u. unfold content. simpl.
      by rewrite Hh, SQ.
    + rewrite decide_False by congruence. done.
    + rewrite decide_False; [done|]. intros ->. by apply (Hs2 k).
Qed.

(** *** Processing a message *)

Lemma alter_insert (f : linux_message_hub_t -> linux_message_hub_t) u h pool :
  alter f u (<[u := h]> pool) = <[u := f h]> pool.
Proof.
  rewrite !list_insert_alter, list_alter_alter_eq. done.
Qed.

Lemma step_store_calls me calls :
  (me < n_threads)%nat ->
  Forall (fun c => store_call_thread c < n_threads)%nat calls ->
  forall pool log pool' log',
    pool' = alter (fun h => foldl (fun h c => run_store_call c h) h calls) me pool ->
    log' = log ++ (log_of_store_call me <$> calls) ->
    step (pool, log) (pool', log').
Proof.
  intros Hme Hall. induction Hall as [|c calls Hc _ IH]; intros pool log pool' log' -> ->.
  - rewrite fmap_nil, app_nil_r, list_alter_id by done. apply step_refl.
  - apply (step_trans _ (alter (run_store_call c) me pool, log ++ [log_of_store_call me c])).
    + destruct c as [nt m|nt m]; simpl in *.
      * by apply (step_store true).
      * by apply (step_store false).
    + apply IH.
      * by rewrite list_alter_alter_eq.
      * by rewrite fmap_cons, <- app_assoc.
Qed.

Lemma content_take me p i h pool :
  (me < length pool)%nat -> index_of p = Some i ->
  forall s, content (<[me := update_list p (drop 1) h]> pool) s
            = upd (content (<[me := h]> pool)) (slot_priority me i)
                  (drop 1 (priority_msg_list_at h i)) s.
Proof.
  intros Hme Hi s. unfold upd. rewrite !content_insert by done.
  unfold update_priority_msg_list. rewrite Hi.
  destruct s as [u j|u|u k]; simpl; try done.
  destruct (decide (u = me)) as [->|Hu].
  - unfold priority_msg_list_at. simpl. rewrite plist_alter_drop.
    destruct (decide (i = k)) as [->|Hk].
    + by rewrite decide_True.
    + rewrite decide_False by congruence. done.
  - rewrite decide_False by congruence. done.
Qed.

Lemma pool_ok_take me p h pool :
  pool_ok (<[me := h]> pool) -> (me < n_threads)%nat ->
  pool_ok (<[me := update_list p (drop 1) h]> pool)
  /\ (me < length pool)%nat /\ current_thread_ h = me
  /\ length (queues_ h) = n_threads.
Proof.
  intros Hok Hme. pose proof Hok as [Hlen Hall].
  rewrite length_insert in Hlen.
  destruct (Hall me h) as (Hq & Hh & Hc);
    [by rewrite list_lookup_insert_eq by lia|].
  split; [|split; [lia|done]].
  rewrite <- (list_insert_insert_eq pool me _ h).
  apply pool_ok_insert; [done| | |].
  - unfold update_priority_msg_list. by destruct (index_of p).
  - unfold update_priority_msg_list, Hub.hub_ok in *.
    destruct (index_of p); simpl; [|done]. by rewrite length_alter.
  - unfold update_priority_msg_list. by destruct (index_of p).
Qed.

Lemma log_of_trace_app me tr1 tr2 :
  log_of_trace on_thread_switch me (tr1 ++ tr2)
  = log_of_trace on_thread_switch me tr1 ++ log_of_trace on_thread_switch me tr2.
Proof. apply bind_app. Qed.

Lemma step_take me p i m rest h pool log :
  (me < n_threads)%nat -> index_of p = Some i ->
  priority_msg_list_at h i = m :: rest ->
  step (<[me := h]> pool, log)
       (<[me := update_list p (drop 1) h]> pool, log ++ [log_on_thread_switch me m]).
Proof.
  intros Hme Hi Hhead Hok. simpl in Hok.
  destruct (pool_ok_take me p h pool Hok Hme) as (Hok1 & Hlen & Hcur & Hq).
  split; [done|]. split; [by eexists|]. simpl. intros Hinv _.
  apply (inv_take src tgt io (content (<[me := h]> pool)) _ log _ me i m rest true);
    try done.
  - rewrite content_insert, decide_True by done. done.
  - intros s. rewrite (content_take me p i) by done. by rewrite Hhead.
  - rewrite stored_ordered_app. simpl. by rewrite app_nil_r.
  - rewrite handed_over_app. simpl. by rewrite app_nil_r.
  - rewrite switched_on_app. simpl. case_decide; by rewrite ?app_nil_r.
Qed.

Lemma step_reloop me p i m m' rest h pool log :
  (me < n_threads)%nat -> index_of p = Some i ->
  priority_msg_list_at h i = m :: rest ->
  0 < reloop_count_ m -> msg_id m' = msg_id m ->
  step (<[me := h]> pool, log)
       (<[me := do_store_message (current_thread_ h) m' (update_list p (drop 1) h)]> pool,
        log).
Proof.
  intros Hme Hi Hhead Hre Hid Hok. simpl in Hok.
  destruct (pool_ok_take me p h pool Hok Hme) as (Hok1 & Hlen & Hcur & Hq).
  rewrite Hcur, <- alter_insert.
  split; [by apply pool_ok_do_store|].
  split; [exists []; by rewrite app_nil_r|]. simpl. intros Hinv _.
  assert (content (<[me := h]> pool) (slot_priority me i) = m :: rest) as Hc0.
  { rewrite content_insert, decide_True by done. done. }
  pose proof (inv_head_not_stored src tgt io _ _ _ _ _ _ Hinv Hc0 Hre) as Hnot.
  assert (msg_id m ∈ H_of log) as Hknown.
  { apply (inv_known _ _ _ _ _ Hinv (slot_priority me i)). rewrite Hc0. by left. }
  apply (inv_append_other src tgt io
           (content (<[me := update_list p (drop 1) h]> pool)) _ log log
           (slot_queue me me) m'); try done.
  - by rewrite Hid.
  - by rewrite Hid.
  - by apply content_do_store.
  - apply (inv_take src tgt io (content (<[me := h]> pool)) _ log _ me i m rest false);
      try done.
    + intros s. rewrite (content_take me p i) by done. by rewrite Hhead.
    + by rewrite app_nil_r.
Qed.

Lemma step_process_message me p i m rest pool log st :
  (me < n_threads)%nat -> callbacks_ok -> index_of p = Some i ->
  priority_msg_list_at (ps_hub st) i = m :: rest ->
  step (lift me pool log st) (lift me pool log (process_message p m st)).
Proof.
  intros Hme Hcb Hi Hhead. unfold lift_pass, Hub.process_message.
  destruct (decide (0 < reloop_count_ m)) as [Hre|Hre]; simpl.
  - rewrite log_of_trace_app. simpl. rewrite app_nil_r.
    assert (current_thread_ (update_list p (drop 1) (ps_hub st))
            = current_thread_ (ps_hub st)) as ->.
    { unfold update_priority_msg_list. by destruct (index_of p). }
    by apply (step_reloop me p i m _ rest).
  - rewrite log_of_trace_app, app_assoc. simpl. rewrite app_nil_r.
    eapply step_trans; [by apply (step_take me p i m rest)|].
    apply (step_store_calls me (on_thread_switch m)); [done| | |].
    + apply Forall_forall. intros c Hc. by apply (Hcb m).
    + unfold run_on_thread_switch. by rewrite alter_insert.
    + by rewrite <- (app_assoc _ [_]).
Qed.

Lemma step_process_priority me n p pool log st :
  (me < n_threads)%nat -> callbacks_ok ->
  step (lift me pool log st) (lift me pool log (process_priority n p st)).
Proof.
  intros Hme Hcb. revert st. induction n as [|n IH]; intros st; simpl.
  - apply step_refl.
  - unfold get_priority_msg_list, priority_msg_list_at.
    destruct (index_of p) as [i|] eqn:Hi; [|apply step_refl].
    destruct (default [] (priority_msg_lists_ (ps_hub st) !! i)) as [|m rest] eqn:Hl;
      [apply step_refl|].
    eapply step_trans; [|apply IH].
    by apply (step_process_message me p i m rest).
Qed.

Lemma step_process_priorities me n eg p pool log st :
  (me < n_threads)%nat -> callbacks_ok ->
  step (lift me pool log st) (lift me pool log (process_priorities n eg p st)).
Proof.
  intros Hme Hcb. revert p st. induction n as [|n IH]; intros p st; simpl.
  - apply step_refl.
  - eapply step_trans; [|apply IH]. by apply step_process_priority.
Qed.

(** *** Every action is a safe step *)

Lemma step_run_action a pool log :
  action_ok n_threads a -> callbacks_ok ->
  step (pool, log) (run_action a (pool, log)).
Proof using ordered_index args_ok.
  intros Ha Hcb. destruct a as [me nt m|me nt m|t m|me|me|me reset|me ip num_left];
    simpl in *.
  - destruct Ha. by apply (step_store true).
  - destruct Ha. by apply (step_store false).
  - by apply step_insert_external.
  - by apply step_push_messages.
  - by apply step_deliver_local_messages.
  - by apply step_sort_incoming.
  - destruct (pool !! me) as [h|] eqn:Hh; [|apply step_refl].
    pose proof (step_process_priorities me
                  (Z.to_nat (MAX - MIN + 1)) (effective_granularity NUM GRAN h) MAX
                  pool log
                  (PassState h (if ip then initial_msgs_left NUM h else num_left) [])
                  Ha Hcb) as Hstep.
    unfold lift_pass in Hstep. simpl in Hstep.
    rewrite app_nil_r, list_insert_id in Hstep by done. exact Hstep.
Qed.

Lemma step_run_actions acts :
  Forall (action_ok n_threads) acts -> callbacks_ok ->
  forall pool log, step (pool, log) (run_actions acts (pool, log)).
Proof using ordered_index args_ok.
  intros Hall Hcb. induction Hall as [|a acts Ha _ IH]; intros pool log.
  - apply step_refl.
  - change (run_actions (a :: acts) (pool, log))
      with (run_actions acts (run_action a (pool, log))).
    pose proof (step_run_action a pool log Ha Hcb) as Hstep.
    destruct (run_action a (pool, log)) as [pool1 log1].
    eapply step_trans; [exact Hstep|apply IH].
Qed.

(** *** The initial pool *)

Lemma thread_pool_init_lookup u h :
  thread_pool_init NUM n_threads !! u = Some h ->
  h = hub_init NUM n_threads u /\ (u < n_threads)%nat.
Proof.
  unfold thread_pool_init. rewrite list_lookup_fmap.
  destruct (seq 0 n_threads !! u) as [v|] eqn:E; [|done]. simpl.
  apply lookup_seq in E as [-> ?]. by intros [= <-].
Qed.

Lemma pool_ok_init : pool_ok (thread_pool_init NUM n_threads).
Proof.
  split.
  - unfold thread_pool_init. by rewrite length_fmap, length_seq.
  - intros u h Hh. apply thread_pool_init_lookup in Hh as [-> _].
    unfold Hub.hub_ok. simpl. by rewrite !length_replicate.
Qed.

Lemma content_init s : content (thread_pool_init NUM n_threads) s = [].
Proof.
  unfold content.
  destruct (thread_pool_init NUM n_threads !! slot_thread s) as [h|] eqn:E; [|done].
  apply thread_pool_init_lookup in E as [-> _].
  destruct s as [u j|u|u k]; simpl; try done.
  - destruct (replicate n_threads [] !! j) as [l|] eqn:E; [|done].
    by apply lookup_replicate in E as [-> _].
  - unfold priority_msg_list_at. simpl.
    destruct (replicate (Z.to_nat NUM) [] !! k) as [l|] eqn:E; [|done].
    by apply lookup_replicate in E as [-> _].
Qed.

Lemma inv_init : inv (content (thread_pool_init NUM n_threads)) [].
Proof.
  split; simpl.
  - unfold the_way. by rewrite !content_init.
  - intros s m _ _ Hin. by apply elem_of_nil in Hin.
  - intros m. rewrite !content_init. intros Hin. by apply elem_of_nil in Hin.
  - intros m _ Hin. by apply elem_of_nil in Hin.
  - intros s m. rewrite content_init. intros Hin. by apply elem_of_nil in Hin.
  - intros x Hin. by apply elem_of_nil in Hin.
Qed.

(** *** From the invariant to the order of delivery *)

Lemma NoDup_stored_ordered log : NoDup (H_of log) -> NoDup (S_of log).
Proof.
  induction log as [|e log IH]; [done|].
  change (e :: log) with ([e] ++ log).
  rewrite handed_over_app, stored_ordered_app.
  intros (He & Hdis & Hlog)%NoDup_app. apply NoDup_app.
  split; [|split; [|by apply IH]].
  - destruct e as [[] me nt msg| |]; simpl; try constructor.
    case_decide; simpl; [|constructor]. apply NoDup_singleton.
  - intros x Hx Hx'. apply (Hdis x); [|by apply (stored_ordered_known src tgt)].
    by apply (stored_ordered_known src tgt [e]).
Qed.

Lemma occurs_before_prefix (a b : nat) (F G l1 l2 l3 : list nat) :
  NoDup (F ++ G) -> F ++ G = l1 ++ a :: l2 ++ b :: l3 -> b ∈ F ->
  occurs_before a b F.
Proof.
  intros Hnd Heq Hb.
  apply list_elem_of_lookup_1 in Hb as [k Hk].
  assert ((F ++ G) !! k = Some b) as Hk1 by (by apply lookup_app_l_Some).
  assert ((F ++ G) !! (length l1 + S (length l2))%nat = Some b) as Hk2.
  { rewrite Heq. rewrite lookup_app_r by lia.
    replace (length l1 + S (length l2) - length l1)%nat with (S (length l2)) by lia.
    simpl. rewrite lookup_app_r by lia.
    by replace (length l2 - length l2)%nat with 0%nat by lia. }
  pose proof (NoDup_lookup _ _ _ _ Hnd Hk1 Hk2) as ->.
  apply lookup_lt_Some in Hk.
  assert (F = take (length F) (l1 ++ a :: l2 ++ b :: l3)) as HF.
  { by rewrite <- Heq, take_app_length. }
  remember (length F) as nF eqn:HnF. clear HnF.
  exists l1, l2, (take (nF - (length l1 + S (S (length l2)))) l3).
  rewrite HF. rewrite take_app, take_ge by lia. f_equal.
  replace (nF - length l1)%nat
    with (S (length l2 + S (nF - (length l1 + S (S (length l2))))))%nat by lia.
  simpl. f_equal. rewrite take_app, take_ge by lia. f_equal.
  replace (length l2 + S (nF - (length l1 + S (S (length l2)))) - length l2)%nat
    with (S (nF - (length l1 + S (S (length l2)))))%nat by lia.
  done.
Qed.

Lemma occurs_before_sublist (a b : nat) (l k : list nat) :
  l `sublist_of` k -> occurs_before a b l -> occurs_before a b k.
Proof.
  intros Hsub (l1 & l2 & l3 & ->).
  apply sublist_app_l in Hsub as (k1 & k' & -> & _ & Hsub).
  apply sublist_cons_l in Hsub as (k2 & k'' & -> & Hsub).
  apply sublist_app_l in Hsub as (k3 & k''' & -> & _ & Hsub).
  apply sublist_cons_l in Hsub as (k4 & k5 & -> & _).
  exists (k1 ++ k2), (k3 ++ k4), k5. by rewrite <- !app_assoc.
Qed.

Lemma inv_delivery_order c log (a b : nat) :
  inv c log -> NoDup (H_of log) ->
  occurs_before a b (S_of log) -> b ∈ D_of log ->
  occurs_before a b (D_of log).
Proof.
  intros Hinv Hnd Hbefore Hm2. pose proof (inv_order _ _ _ _ _ Hinv) as Hord.
  rewrite filter_app in Hord.
  destruct Hbefore as (l1 & l2 & l3 & HS).
  apply (occurs_before_sublist _ _ (filter (fun x => x ∈ S_of log) (D_of log)));
    [apply sublist_filter|].
  eapply occurs_before_prefix.
  - rewrite Hord. by apply NoDup_stored_ordered.
  - rewrite Hord. exact HS.
  - apply list_elem_of_filter. split; [|done].
    rewrite HS. rewrite !elem_of_app, !elem_of_cons, !elem_of_app, !elem_of_cons.
    auto.
Qed.

Lemma run_actions_delivery_order acts (a b : nat) :
  callbacks_ok -> Forall (action_ok n_threads) acts ->
  let log := snd (run_actions acts (thread_pool_init NUM n_threads, [])) in
  NoDup (H_of log) ->
  occurs_before a b (S_of log) -> b ∈ D_of log ->
  occurs_before a b (D_of log).
Proof using ordered_index args_ok.
  intros Hcb Hacts log Hnd.
  destruct (step_run_actions acts Hacts Hcb (thread_pool_init NUM n_threads) []
                             pool_ok_init) as (_ & _ & Hsafe).
  simpl in Hsafe. specialize (Hsafe inv_init Hnd).
  by apply (inv_delivery_order _ _ _ _ Hsafe).
Qed.

End Pool.

Section OrderedDelivery.

Variables MESSAGE_SCHEDULER_MIN_PRIORITY MESSAGE_SCHEDULER_MAX_PRIORITY : Z.
Variable MESSAGE_SCHEDULER_ORDERED_PRIORITY : Z.
Variable NUM_SCHEDULER_PRIORITIES : Z.
Variable MESSAGE_SCHEDULER_GRANULARITY : Z.
Variable on_thread_switch : linux_thread_message_t -> list store_call.

Local Abbreviation MIN := MESSAGE_SCHEDULER_MIN_PRIORITY.
Local Abbreviation MAX := MESSAGE_SCHEDULER_MAX_PRIORITY.
Local Abbreviation ORD := MESSAGE_SCHEDULER_ORDERED_PRIORITY.
Local Abbreviation NUM := NUM_SCHEDULER_PRIORITIES.
Local Abbreviation GRAN := MESSAGE_SCHEDULER_GRANULARITY.
Local Abbreviation run_actions := (Hub.run_actions MIN MAX ORD NUM GRAN on_thread_switch).

(** C4 (amended). Sorting gives every ordered message the effective
    priority [MESSAGE_SCHEDULER_ORDERED_PRIORITY], whatever its own
    priority, and pushes it onto the list of that priority.  So, in every
    run of a pool of threads, of two messages that one thread [src] handed
    to [store_message_ordered] for the same thread [tgt], the one handed
    over first has its [on_thread_switch] run first. *)
Theorem ordered_messages_of_one_thread_stay_in_order
        n_threads acts src tgt (m1 m2 : nat) :
  scheduler_args_ok MIN MAX ORD NUM GRAN ->
  callbacks_ok on_thread_switch n_threads ->
  Forall (action_ok n_threads) acts ->
  let log := snd (run_actions acts (thread_pool_init NUM n_threads, [])) in
  NoDup (handed_over log) ->
  (forall m, is_ordered m = true ->
             effective_priority ORD m = ORD
             /\ forall i, sorted_onto MIN MAX ORD i [m]
                          = if decide (priority_index MIN MAX ORD = Some i)
                            then [set_is_ordered false m] else [])
  /\ (occurs_before m1 m2 (stored_ordered src tgt log) ->
      m2 ∈ switched_on tgt log ->
      occurs_before m1 m2 (switched_on tgt log)).
Proof.
  intros Hargs Hcb Hacts log Hnd. split.
  - intros m Hm. unfold effective_priority, Hub.sorted_onto, sorted_msg.
    rewrite Hm. split; [done|]. intros i. simpl. rewrite Hm.
    unfold effective_priority. rewrite Hm. by rewrite app_nil_r.
  - assert (priority_index MIN MAX ORD = Some (Z.to_nat (ORD - MIN))) as Hio.
    { apply priority_index_Some. destruct Hargs as (? & ? & _). lia. }
    by apply (run_actions_delivery_order MIN MAX ORD NUM GRAN on_thread_switch
                n_threads src tgt _ Hio Hargs acts m1 m2).
Qed.

End OrderedDelivery.
End OrderFacts.

(** ** The mirrored cache *)
Module CacheFacts.
Import Cache.

Local Open Scope N_scope.

Section ActiveSnapshots.

Implicit Types (m : snapshots_map_t) (c : mc_cache_t) (k : version_id_t).

Lemma map_ok_cons_inv k t m :
  map_ok ((k, t) :: m) -> map_ok m /\ forall k' t', (k', t') ∈ m -> k < k'.
Proof.
  intros H. apply StronglySorted_inv in H as [Hm Hall]. split; [done|].
  intros k' t' Hin. rewrite Forall_forall in Hall. by apply (Hall (k', t')).
Qed.

Lemma map_ok_last k t m k' t' :
  map_ok ((k, t) :: m) -> last ((k, t) :: m) = Some (k', t') ->
  forall k'' t'', (k'', t'') ∈ (k, t) :: m -> k'' <= k'.
Proof.
  revert k t. induction m as [|[k1 t1] m IH]; intros k t Hok Hlast k'' t'' Hin.
  - simpl in Hlast. apply list_elem_of_singleton in Hin. simplify_eq. lia.
  - apply map_ok_cons_inv in Hok as [Hok Hlt].
    change (last ((k, t) :: (k1, t1) :: m)) with (last ((k1, t1) :: m)) in Hlast.
    assert (k1 <= k') as Hk1 by (apply (IH k1 t1 Hok Hlast k1 t1); by left).
    apply elem_of_cons in Hin as [Heq|Hin].
    + simplify_eq. specialize (Hlt k1 t1). assert (k < k1) by (apply Hlt; by left). lia.
    + by apply (IH k1 t1 Hok Hlast k'' t'').
Qed.

(** C6. [get_min_snapshot_version] and [get_max_snapshot_version] return
    the default when no snapshot is registered; otherwise they return the
    key of the first, respectively of the last, entry of
    [active_snapshots], which is the smallest, respectively the largest,
    registered version. *)
Theorem snapshot_version_bounds default_version c :
  map_ok (active_snapshots c) ->
  (active_snapshots c = [] ->
   get_min_snapshot_version default_version c = default_version
   /\ get_max_snapshot_version default_version c = default_version)
  /\ (active_snapshots c <> [] ->
      (exists t, head (active_snapshots c)
                 = Some (get_min_snapshot_version default_version c, t))
      /\ (exists t, last (active_snapshots c)
                    = Some (get_max_snapshot_version default_version c, t))
      /\ forall k t, (k, t) ∈ active_snapshots c ->
                     get_min_snapshot_version default_version c <= k
                     <= get_max_snapshot_version default_version c).
Proof.
  intros Hok. unfold get_min_snapshot_version, get_max_snapshot_version,
    no_active_snapshots.
  destruct (active_snapshots c) as [|[k0 t0] rest] eqn:E.
  - split; [done|]. by intros [].
  - split; [done|]. intros _.
    destruct (last ((k0, t0) :: rest)) as [[k1 t1]|] eqn:Hlast.
    + split; [by exists t0|]. split; [by exists t1|].
      intros k t Hin. cbn [head]. split.
      * apply elem_of_cons in Hin as [Heq|Hin]; [simplify_eq; lia|].
        apply map_ok_cons_inv in Hok as [_ Hlt]. specialize (Hlt k t Hin). lia.
      * by apply (map_ok_last k0 t0 rest k1 t1 Hok Hlast k t).
    + by apply last_None in Hlast.
Qed.

Lemma bounds_equal_iff from_version to_version m :
  map_ok m -> from_version <= to_version ->
  lower_bound from_version m = upper_bound to_version m
  <-> forall k t, (k, t) ∈ m -> ~ (from_version <= k <= to_version).
Proof.
  intros Hok Hle. induction m as [|[k0 t0] m IH]; simpl.
  - split; [|done]. intros _ k t Hin. by apply elem_of_nil in Hin.
  - apply map_ok_cons_inv in Hok as [Hok Hlt].
    destruct (from_version <=? k0) eqn:E1; destruct (to_version <? k0) eqn:E2;
      try apply N.leb_le in E1; try apply N.leb_gt in E1;
      try apply N.ltb_lt in E2; try apply N.ltb_ge in E2.
    + split; [|done]. intros _ k t Hin.
      apply elem_of_cons in Hin as [Heq|Hin]; [simplify_eq; lia|].
      specialize (Hlt k t Hin). lia.
    + split; [done|]. intros Hno. exfalso. apply (Hno k0 t0); [by left|lia].
    + lia.
    + specialize (IH Hok). split.
      * intros [= Heq] k t Hin.
        apply elem_of_cons in Hin as [Hin|Hin]; [simplify_eq; lia|].
        by apply (proj1 IH Heq k t).
      * intros Hno. f_equal. apply IH.
        intros k t Hin. apply (Hno k t). by right.
Qed.

(** C9. For [from_version <= to_version],
    [no_active_snapshots(from_version, to_version)], which compares
    [lower_bound(from_version)] with [upper_bound(to_version)], holds
    exactly when no registered snapshot version lies between
    [from_version] and [to_version], ends included. *)
Theorem no_active_snapshots_between_spec from_version to_version c :
  map_ok (active_snapshots c) -> from_version <= to_version ->
  no_active_snapshots_between from_version to_version c = true
  <-> forall k t, (k, t) ∈ active_snapshots c ->
                  ~ (from_version <= k <= to_version).
Proof.
  intros Hok Hle. unfold no_active_snapshots_between.
  rewrite Nat.eqb_eq. by apply bounds_equal_iff.
Qed.

End ActiveSnapshots.

Section InnerBuf.

Implicit Types (b inner : mc_inner_buf_t) (s : buf_snapshot_info_t).
Implicit Types (snaps : snapshot_data_list_t) (v w : version_id_t).

(** C8. A buffer whose refcount is 0, whose snapshot list is empty, which
    is not dirty and whose lock is idle is safe to unload. *)
Theorem idle_clean_buffer_is_safe_to_unload b :
  refcount b = 0 -> snapshots b = [] -> dirty b = false ->
  lock_idle (lock b) = true ->
  safe_to_unload b = true.
Proof.
  intros Href Hsnap Hdirty Hlock. unfold safe_to_unload.
  by rewrite Href, Hsnap, Hdirty, Hlock.
Qed.

End InnerBuf.

Section Writeback.

Variable ts : list mc_transaction_t.

Implicit Types (s : cache_state) (t : txn_ptr).

Lemma committing_order_app h1 h2 :
  committing_order (h1 ++ h2) = committing_order h1 ++ committing_order h2.
Proof. apply bind_app. Qed.

Lemma on_sync_order_app h1 h2 :
  on_sync_order (h1 ++ h2) = on_sync_order h1 ++ on_sync_order h2.
Proof. apply bind_app. Qed.

Lemma writers_app l1 l2 : writers ts (l1 ++ l2) = writers ts l1 ++ writers ts l2.
Proof. apply filter_app. Qed.

Lemma writers_all l :
  Forall (fun t => writes ts t = true) l -> writers ts l = l.
Proof.
  induction 1 as [|t l Ht _ IH]; [done|].
  unfold writers in *. rewrite filter_cons_True by done. by rewrite IH.
Qed.

Lemma writers_none l :
  Forall (fun t => writes ts t = false) l -> writers ts l = [].
Proof.
  induction 1 as [|t l Ht _ IH]; [done|].
  unfold writers in *. rewrite filter_cons_False by congruence. by rewrite IH.
Qed.

Lemma orders_of_committing t :
  committing_order [ev_committing t] = [t] /\ on_sync_order [ev_committing t] = [].
Proof. done. Qed.

Lemma orders_of_on_sync t :
  committing_order [ev_on_sync t] = [] /\ on_sync_order [ev_on_sync t] = [t].
Proof. done. Qed.

(** Updating the state of transactions keeps their ids and accesses. *)
Lemma update_txn_ids t f (l : list mc_transaction_t) :
  (forall x, txn (f x) = txn x /\ access (f x) = access x) ->
  (fun x => (txn x, access x)) <$> update_txn t f l
  = (fun x => (txn x, access x)) <$> l.
Proof.
  intros Hf. unfold update_txn. rewrite <- list_fmap_compose.
  apply list_fmap_ext. intros i x _. simpl.
  case_decide; [|done]. by destruct (Hf x) as [-> ->].
Qed.

Lemma lookup_txn_ids t (l1 l2 : list mc_transaction_t) :
  (fun x => (txn x, access x)) <$> l1 = (fun x => (txn x, access x)) <$> l2 ->
  access <$> lookup_txn t l1 = access <$> lookup_txn t l2.
Proof.
  revert l2. induction l1 as [|x l1 IH]; intros [|y l2] Heq; try done.
  injection Heq as Hid Hacc Hrest. unfold lookup_txn in *.
  rewrite !filter_cons. rewrite Hid.
  case_decide; simpl; [by rewrite Hacc|]. by apply IH.
Qed.

Lemma writes_current t s tx :
  (fun x => (txn x, access x)) <$> transactions s
  = (fun x => (txn x, access x)) <$> ts ->
  lookup_txn t (transactions s) = Some tx ->
  writes ts t = write_access (access tx).
Proof.
  intros Hids Hl. apply (lookup_txn_ids t) in Hids. rewrite Hl in Hids.
  unfold writes. destruct (lookup_txn t ts) as [tx'|]; [|done].
  by injection Hids as ->.
Qed.

(** Appending to a history. *)
Lemma read_only_notified_snoc h e :
  read_only_notified_at_once ts h ->
  (forall t, e = ev_committing t -> writes ts t = true) ->
  read_only_notified_at_once ts (h ++ [e]).
Proof.
  intros Hh He t h1 h2 Ht Heq.
  destruct h2 as [|y h2 _] using rev_ind.
  - apply app_inj_tail in Heq as [_ ->]. specialize (He t eq_refl). congruence.
  - rewrite app_comm_cons, app_assoc in Heq. apply app_inj_tail in Heq as [Heq ->].
    destruct (Hh t h1 h2 Ht Heq) as [h3 ->]. by eexists.
Qed.

Lemma read_only_notified_commit h t :
  read_only_notified_at_once ts h ->
  read_only_notified_at_once ts (h ++ [ev_committing t] ++ [ev_on_sync t]).
Proof.
  intros Hh t' h1 h2 Ht Heq. rewrite app_assoc in Heq.
  destruct h2 as [|y h2 _] using rev_ind.
  - by apply app_inj_tail in Heq as [_ ?].
  - rewrite app_comm_cons, app_assoc in Heq. apply app_inj_tail in Heq as [Heq Hy].
    subst y. destruct h2 as [|z h2 _] using rev_ind.
    + apply app_inj_tail in Heq as [_ Hz]. injection Hz as <-. by exists [].
    + rewrite app_comm_cons, app_assoc in Heq. apply app_inj_tail in Heq as [Heq Hz].
      subst z. destruct (Hh t' h1 h2 Ht Heq) as [h3 ->]. by eexists.
Qed.

Lemma fifo_inv_enter t s tx :
  fifo_inv ts s -> lookup_txn t (transactions s) = Some tx ->
  write_access (access tx) = true -> gate_open (writeback s) = true ->
  forall l,
    (fun x => (txn x, access x)) <$> l
    = (fun x => (txn x, access x)) <$> transactions s ->
    fifo_inv ts (hand_to_writeback t
                   (enter_committing t (CacheState (writeback s) l (history s)))).
Proof.
  intros (Hids & Horder & Htail & Hgate & Hall & Hro) Hl Hw Hopen l Hl'.
  assert (writes ts t = true) as Ht by (by rewrite (writes_current t s tx)).
  unfold fifo_inv, hand_to_writeback, enter_committing. simpl.
  split; [|split; [|split; [|split; [|split]]]].
  - rewrite update_txn_ids by done. by rewrite Hl'.
  - rewrite committing_order_app, on_sync_order_app.
    destruct (orders_of_committing t) as [-> ->].
    rewrite writers_app, Horder, app_nil_r.
    rewrite (writers_all [t]) by (by constructor). by rewrite <- !app_assoc.
  - done.
  - unfold gate_open in *. simpl. by destruct (flushes (writeback s)).
  - rewrite app_assoc. apply Forall_app. split; [done|]. by constructor.
  - apply read_only_notified_snoc; [done|]. by intros ? [= <-].
Qed.

Lemma fifo_inv_commit t s : fifo_inv ts s -> fifo_inv ts (commit t s).
Proof.
  intros Hinv. unfold commit.
  destruct (lookup_txn t (transactions s)) as [tx|] eqn:Hl; [|done].
  destruct (state tx); try done.
  destruct (write_access (access tx)) eqn:Hw.
  - destruct (gate_open (writeback s)) eqn:Hopen.
    + apply (fifo_inv_enter t s tx); try done. by apply update_txn_ids.
    + destruct Hinv as (Hids & Horder & Htail & Hgate & Hall & Hro).
      split; [|done]. simpl. rewrite update_txn_ids by done. done.
  - destruct Hinv as (Hids & Horder & Htail & Hgate & Hall & Hro).
    assert (writes ts t = false) as Ht by (by rewrite (writes_current t s tx)).
    unfold fifo_inv, on_sync, enter_committing. simpl.
    split; [|split; [|split; [|split; [|split]]]]; try done.
    + rewrite !update_txn_ids by done. done.
    + rewrite !committing_order_app, !on_sync_order_app.
      destruct (orders_of_committing t) as [-> ->].
      destruct (orders_of_on_sync t) as [-> ->].
      rewrite !app_nil_r, !writers_app.
      rewrite (writers_none [t]) by (by constructor). by rewrite !app_nil_r.
    + rewrite <- app_assoc. by apply read_only_notified_commit.
Qed.

Lemma fifo_inv_pass_gate t s : fifo_inv ts s -> fifo_inv ts (pass_gate t s).
Proof.
  intros Hinv. unfold pass_gate.
  destruct (lookup_txn t (transactions s)) as [tx|] eqn:Hl; [|done].
  destruct (state tx); try done.
  destruct (write_access (access tx)) eqn:Hw; [|done].
  destruct (gate_open (writeback s)) eqn:Hopen; [|done]. simpl.
  pose proof (fifo_inv_enter t s tx Hinv Hl Hw Hopen (transactions s) eq_refl) as H.
  by destruct s.
Qed.

Lemma fifo_inv_flush_begin s : fifo_inv ts s -> fifo_inv ts (flush_begin s).
Proof.
  intros (Hids & Horder & Htail & Hgate & Hall & Hro).
  unfold fifo_inv, flush_begin. simpl.
  split; [done|]. split; [|split; [|split; [|split; [|done]]]].
  - rewrite concat_app. simpl. by rewrite !app_nil_r.
  - destruct (flushes (writeback s)) as [|b bs] eqn:Hf; [done|]. simpl in *.
    apply Forall_app. split; [done|]. constructor; [|done].
    apply Hgate. unfold gate_open. by rewrite Hf.
  - done.
  - rewrite concat_app. simpl. by rewrite !app_nil_r.
Qed.

Lemma on_sync_all_spec batch s :
  let s' := foldl (fun s t => on_sync t s) s batch in
  writeback s' = writeback s
  /\ (fun x => (txn x, access x)) <$> transactions s'
     = (fun x => (txn x, access x)) <$> transactions s
  /\ history s' = history s ++ (ev_on_sync <$> batch).
Proof.
  revert s. induction batch as [|t batch IH]; intros s; simpl.
  - by rewrite app_nil_r.
  - destruct (IH (on_sync t s)) as (-> & -> & ->). simpl.
    rewrite update_txn_ids by done. by rewrite <- app_assoc.
Qed.

Lemma committing_order_on_sync batch :
  committing_order (ev_on_sync <$> batch) = []
  /\ on_sync_order (ev_on_sync <$> batch) = batch.
Proof.
  induction batch as [|t batch [IH1 IH2]]; [done|]. split.
  - exact IH1.
  - change (on_sync_order (ev_on_sync <$> t :: batch))
      with (t :: on_sync_order (ev_on_sync <$> batch)). by rewrite IH2.
Qed.

Lemma read_only_notified_on_sync h batch :
  read_only_notified_at_once ts h ->
  read_only_notified_at_once ts (h ++ (ev_on_sync <$> batch)).
Proof.
  intros Hh. induction batch as [|t batch IH] using rev_ind.
  - by rewrite app_nil_r.
  - rewrite fmap_app, app_assoc. by apply read_only_notified_snoc.
Qed.

Lemma concat_all_nil (bs : list (list txn_ptr)) :
  Forall (fun b => b = []) bs -> concat bs = [].
Proof. induction 1 as [|x bs -> _ IH]; [done|]. exact IH. Qed.

Lemma fifo_inv_flush_end k s : fifo_inv ts s -> fifo_inv ts (flush_end k s).
Proof.
  intros (Hids & Horder & Htail & Hgate & Hall & Hro). unfold flush_end.
  destruct (flushes (writeback s) !! k) as [batch|] eqn:Hk; [|done].
  destruct (on_sync_all_spec batch
              (CacheState (Writeback (sync_callbacks (writeback s))
                                     (delete k (flushes (writeback s))))
                          (transactions s) (history s)))
    as (Hw & Ht & Hh).
  unfold fifo_inv. rewrite Hw, Ht, Hh. simpl.
  destruct (committing_order_on_sync batch) as [Hc Ho].
  rewrite committing_order_app, on_sync_order_app, Hc, Ho, app_nil_r, writers_app.
  destruct (flushes (writeback s)) as [|b bs] eqn:Hf; [done|]. simpl in Htail.
  pose proof (concat_all_nil bs Htail) as Hbs.
  assert (sync_callbacks (writeback s) = []) as Hsync
    by (apply Hgate; unfold gate_open; by rewrite Hf).
  destruct k as [|k]; simpl in *.
  - injection Hk as ->. rewrite Hbs, app_nil_r in *.
    split; [done|]. split; [|split; [|split; [|split]]].
    + rewrite Horder, Hsync, !app_nil_r.
      rewrite (writers_all batch); [done|]. by rewrite Hsync, app_nil_r in Hall.
    + by destruct Htail.
    + by intros _.
    + rewrite Hsync. rewrite app_nil_r. by apply Forall_nil_2.
    + by apply read_only_notified_on_sync.
  - assert (batch = []) as ->.
    { rewrite Forall_lookup in Htail. by apply (Htail k). }
    pose proof (Forall_delete _ bs k Htail) as Htail'.
    pose proof (concat_all_nil _ Htail') as Hbs'.
    simpl. rewrite Hbs', !app_nil_r in *. rewrite Hbs, app_nil_r in Horder, Hall.
    split; [done|]. split; [exact Horder|]. split; [exact Htail'|].
    split; [by intros _|]. split; [exact Hall|exact Hro].
Qed.

Lemma fifo_inv_init : fifo_inv ts (cache_init ts).
Proof.
  unfold fifo_inv. simpl. repeat split; try done.
  intros t h1 h2 _ Heq. by destruct h1.
Qed.

Lemma fifo_inv_run ops s : fifo_inv ts s -> fifo_inv ts (run_ops ops s).
Proof.
  revert s. induction ops as [|o ops IH]; intros s Hinv; [done|].
  unfold run_ops. cbn [foldl]. apply IH. destruct o; simpl.
  - by apply fifo_inv_commit.
  - by apply fifo_inv_pass_gate.
  - by apply fifo_inv_flush_begin.
  - by apply fifo_inv_flush_end.
Qed.


End Writeback.

End CacheFacts.

(** ** The message hub: more about single passes *)
Module PassFacts.
Import Hub HubFacts OrderFacts.

Section Scheduler.

Set Default Proof Using "Type".

Variables MESSAGE_SCHEDULER_MIN_PRIORITY MESSAGE_SCHEDULER_MAX_PRIORITY : Z.
Variable MESSAGE_SCHEDULER_ORDERED_PRIORITY : Z.
Variable NUM_SCHEDULER_PRIORITIES : Z.
Variable MESSAGE_SCHEDULER_GRANULARITY : Z.
Variable on_thread_switch : linux_thread_message_t -> list store_call.

Local Abbreviation MIN := MESSAGE_SCHEDULER_MIN_PRIORITY.
Local Abbreviation MAX := MESSAGE_SCHEDULER_MAX_PRIORITY.
Local Abbreviation ORD := MESSAGE_SCHEDULER_ORDERED_PRIORITY.
Local Abbreviation NUM := NUM_SCHEDULER_PRIORITIES.
Local Abbreviation GRAN := MESSAGE_SCHEDULER_GRANULARITY.
Local Abbreviation args_ok := (scheduler_args_ok MIN MAX ORD NUM GRAN).
Local Abbreviation index_of := (priority_index MIN MAX).
Local Abbreviation list_of := (get_priority_msg_list MIN MAX).
Local Abbreviation process_priority := (Hub.process_priority MIN MAX on_thread_switch).
Local Abbreviation process_priorities := (Hub.process_priorities MIN MAX on_thread_switch).
Local Abbreviation process_pass := (Hub.process_pass MIN MAX NUM GRAN on_thread_switch).
Local Abbreviation quota_of := (quota MAX).
Local Abbreviation to_process := (to_process_from_priority MAX).
Local Abbreviation eff_gran := (effective_granularity NUM GRAN).
Local Abbreviation plist := priority_msg_list_at.

Implicit Types (h : linux_message_hub_t) (st : pass_state) (m : linux_thread_message_t).
Implicit Types (p : Z) (i : nat) (l : msg_list_t).

(** *** Quotas *)

Lemma shiftr_halves (x k : Z) :
  0 <= x -> 0 <= k -> 2 * Z.shiftr x (k + 1) <= Z.shiftr x k.
Proof.
  intros Hx Hk. rewrite <- Z.shiftr_shiftr by lia.
  rewrite (Z.shiftr_div_pow2 (Z.shiftr x k) 1) by lia.
  change (2 ^ 1) with 2.
  assert (0 <= Z.shiftr x k) by (apply Z.shiftr_nonneg; lia).
  pose proof (Z.mul_div_le (Z.shiftr x k) 2). lia.
Qed.

Lemma shiftr_antitone (x j k : Z) :
  0 <= x -> 0 <= j <= k -> Z.shiftr x k <= Z.shiftr x j.
Proof.
  intros Hx Hjk. replace k with (j + (k - j)) by lia.
  rewrite <- Z.shiftr_shiftr by lia.
  assert (0 <= Z.shiftr x j) by (apply Z.shiftr_nonneg; lia).
  rewrite (Z.shiftr_div_pow2 _ (k - j)) by lia.
  apply Z.div_le_upper_bound; [apply Z.pow_pos_nonneg; lia|].
  assert (0 < 2 ^ (k - j)) by (apply Z.pow_pos_nonneg; lia).
  nia.
Qed.

(** X1. The quota of a pass does not shrink as the priority grows, and at
    no priority does it exceed the larger of 1 and the effective
    granularity. *)
Theorem quota_grows_with_priority eg p q :
  0 <= eg -> p <= q <= MAX ->
  1 <= to_process_from_priority MAX eg p <= to_process_from_priority MAX eg q
  /\ to_process_from_priority MAX eg q <= Z.max 1 eg.
Proof.
  intros Heg Hpq. unfold to_process_from_priority.
  pose proof (shiftr_antitone eg (MAX - q) (MAX - p) Heg ltac:(lia)).
  pose proof (shiftr_antitone eg 0 (MAX - q) Heg ltac:(lia)) as H0.
  rewrite Z.shiftr_0_r in H0. lia.
Qed.

(** *** The work of one pass *)

Lemma StronglySorted_app_intro {A} (R : A -> A -> Prop) (l1 l2 : list A) :
  StronglySorted R l1 -> StronglySorted R l2 ->
  (forall x y, x ∈ l1 -> y ∈ l2 -> R x y) ->
  StronglySorted R (l1 ++ l2).
Proof.
  intros H1 H2 Hcross. induction H1 as [|x l1 H1 IH Hx]; [exact H2|].
  simpl. constructor.
  - apply IH. intros a b Ha Hb. apply Hcross; [by right|done].
  - apply Forall_app. split; [exact Hx|].
    apply Forall_forall. intros b Hb. apply Hcross; [by left|done].
Qed.

Lemma process_priority_trace n p st :
  exists tr,
    ps_trace (process_priority n p st) = ps_trace st ++ tr
    /\ (length tr <= n)%nat
    /\ Forall (fun e => event_priority e = p) tr.
Proof.
  destruct (index_of p) as [i|] eqn:Hi.
  - destruct (process_priority_spec MIN MAX on_thread_switch n p i st Hi)
      as (_ & _ & _ & _ & tr & Htr & Hmsgs & Hprio & _).
    exists tr. split; [exact Htr|]. split; [|exact Hprio].
    assert (length tr = length (take n (plist (ps_hub st) i))) as ->
      by (rewrite <- Hmsgs, length_fmap; done).
    rewrite length_take. lia.
  - rewrite (process_priority_invalid MIN MAX on_thread_switch n p st Hi).
    exists []. rewrite app_nil_r. split; [done|]. split; [simpl; lia|constructor].
Qed.

Lemma process_priorities_work n eg p0 st :
  0 <= eg -> p0 <= MAX ->
  exists tr,
    ps_trace (process_priorities n eg p0 st) = ps_trace st ++ tr
    /\ Z.of_nat (length tr) <= Z.of_nat n + 2 * Z.shiftr eg (MAX - p0).
Proof.
  intros Heg. revert p0 st. induction n as [|n IH]; intros p0 st Hp0.
  - exists []. simpl. rewrite app_nil_r. split; [done|].
    assert (0 <= Z.shiftr eg (MAX - p0)) by (apply Z.shiftr_nonneg; lia). lia.
  - cbn [Hub.process_priorities].
    destruct (process_priority_trace (Z.to_nat (to_process eg p0)) p0 st)
      as (tr1 & Htr1 & Hlen1 & _).
    destruct (IH (p0 - 1) (process_priority (Z.to_nat (to_process eg p0)) p0 st)
                 ltac:(lia)) as (tr2 & Htr2 & Hlen2).
    exists (tr1 ++ tr2). split; [by rewrite Htr2, Htr1, app_assoc|].
    rewrite length_app.
    pose proof (shiftr_halves eg (MAX - p0) Heg ltac:(lia)).
    replace (MAX - (p0 - 1)) with (MAX - p0 + 1) in Hlen2 by lia.
    pose proof (to_process_from_priority_ge_1 MAX eg p0).
    unfold to_process_from_priority in *.
    assert (0 <= Z.shiftr eg (MAX - p0)) by (apply Z.shiftr_nonneg; lia).
    lia.
Qed.

Lemma process_priorities_order n eg p0 st :
  exists tr,
    ps_trace (process_priorities n eg p0 st) = ps_trace st ++ tr
    /\ StronglySorted (fun e1 e2 => event_priority e2 <= event_priority e1) tr
    /\ Forall (fun e => p0 - Z.of_nat n < event_priority e <= p0) tr.
Proof.
  revert p0 st. induction n as [|n IH]; intros p0 st.
  - exists []. simpl. rewrite app_nil_r. split; [done|]. split; constructor.
  - cbn [Hub.process_priorities].
    destruct (process_priority_trace (Z.to_nat (to_process eg p0)) p0 st)
      as (tr1 & Htr1 & _ & Hp1).
    destruct (IH (p0 - 1) (process_priority (Z.to_nat (to_process eg p0)) p0 st))
      as (tr2 & Htr2 & Hsorted2 & Hp2).
    exists (tr1 ++ tr2). split; [by rewrite Htr2, Htr1, app_assoc|]. split.
    + apply StronglySorted_app_intro; [| exact Hsorted2 |].
      * clear -Hp1. induction Hp1 as [|e tr1 He Hp1 IH']; constructor; [exact IH'|].
        eapply Forall_impl; [exact Hp1|]. simpl. intros e' He'. lia.
      * intros e1 e2 He1 He2.
        rewrite Forall_forall in Hp1, Hp2.
        specialize (Hp1 _ He1). specialize (Hp2 _ He2). simpl in *. lia.
    + apply Forall_app. split.
      * eapply Forall_impl; [exact Hp1|]. simpl. intros e He. lia.
      * eapply Forall_impl; [exact Hp2|]. simpl. intros e He. lia.
Qed.

Local Abbreviation on_event_pass := (Hub.on_event_pass MIN MAX ORD NUM GRAN on_thread_switch).
Local Abbreviation pull_pass := (Hub.pull_pass MIN MAX ORD).

(** X2. One iteration of the loop of [on_event] processes at most
    [NUM_SCHEDULER_PRIORITIES] messages plus twice the effective
    granularity, so at most [NUM_SCHEDULER_PRIORITIES + 2 *
    MESSAGE_SCHEDULER_GRANULARITY], before it looks at the incoming list
    again. *)
Theorem pass_work_is_bounded (initial_pass : bool) arrived st :
  args_ok ->
  let h := pull_pass initial_pass arrived (ps_hub st) in
  exists tr,
    ps_trace (on_event_pass initial_pass arrived st) = ps_trace st ++ tr
    /\ Z.of_nat (length tr) <= NUM + 2 * eff_gran h
    /\ Z.of_nat (length tr) <= NUM + 2 * GRAN.
Proof.
  intros (Hmin & Hmax & Hnum & Hgran) h.
  pose proof (total_pending_msgs_nonneg NUM h) as Htot.
  assert (0 <= eff_gran h) as Heg by (unfold effective_granularity; lia).
  unfold Hub.on_event_pass, Hub.process_pass. cbn [ps_hub ps_trace ps_left].
  fold h.
  destruct (process_priorities_work (Z.to_nat (MAX - MIN + 1)) (eff_gran h) MAX
              (PassState h (if initial_pass then initial_msgs_left NUM h else ps_left st)
                         (ps_trace st)) Heg ltac:(lia))
    as (tr & Htr & Hlen).
  exists tr. split; [exact Htr|].
  rewrite Z.sub_diag, Z.shiftr_0_r in Hlen.
  unfold effective_granularity in *. lia.
Qed.

(** X3. Within one iteration of the loop of [on_event], messages are
    processed in the order of their priority lists, from
    [MESSAGE_SCHEDULER_MAX_PRIORITY] down: nothing taken from a list of
    lower priority is processed before something taken from a list of
    higher priority. *)
Theorem pass_processes_higher_priorities_first (initial_pass : bool) arrived st :
  exists tr,
    ps_trace (on_event_pass initial_pass arrived st) = ps_trace st ++ tr
    /\ StronglySorted (fun e1 e2 => event_priority e2 <= event_priority e1) tr
    /\ Forall (fun e => MIN <= event_priority e <= MAX) tr.
Proof.
  unfold Hub.on_event_pass, Hub.process_pass. cbn [ps_hub ps_trace ps_left].
  set (h := pull_pass initial_pass arrived (ps_hub st)).
  destruct (process_priorities_order (Z.to_nat (MAX - MIN + 1)) (eff_gran h) MAX
              (PassState h (if initial_pass then initial_msgs_left NUM h
                            else ps_left st) (ps_trace st)))
    as (tr & Htr & Hsorted & Hrange).
  exists tr. split; [exact Htr|]. split; [exact Hsorted|].
  eapply Forall_impl; [exact Hrange|]. simpl. intros e He. lia.
Qed.

(** X4. One iteration of the loop of [on_event] takes from the list of
    every priority the first [to_process_from_priority] messages (all of
    them when the list is shorter), in the order of the list, and leaves
    the rest of the list as it was. *)
Theorem pass_takes_a_prefix_of_each_list (initial_pass : bool) arrived st p i :
  index_of p = Some i ->
  let h := pull_pass initial_pass arrived (ps_hub st) in
  let st' := on_event_pass initial_pass arrived st in
  exists tr,
    ps_trace st' = ps_trace st ++ tr
    /\ processed_at p tr = take (quota_of (eff_gran h) p) (plist h i)
    /\ plist (ps_hub st') i = drop (quota_of (eff_gran h) p) (plist h i)
    /\ processed_at p tr ++ plist (ps_hub st') i = plist h i.
Proof.
  intros Hi h st'.
  destruct (process_pass_spec MIN MAX NUM GRAN on_thread_switch initial_pass
              (PassState h (ps_left st) (ps_trace st)))
    as (_ & _ & _ & tr & Htr & _ & Hlists).
  destruct (Hlists p i Hi) as (Hdrop & _ & Htake).
  exists tr. split; [exact Htr|]. split; [exact Htake|]. split; [exact Hdrop|].
  subst st'. unfold Hub.on_event_pass. fold h.
  rewrite Htake, Hdrop. apply take_drop.
Qed.

(** *** The [is_ordered] flag of the messages on the priority lists *)

Local Abbreviation on_event_loop := (Hub.on_event_loop MIN MAX ORD NUM GRAN on_thread_switch).
Local Abbreviation on_event := (Hub.on_event MIN MAX ORD NUM GRAN on_thread_switch).
Local Abbreviation unflagged_lists :=
  (fun h => forall i m, m ∈ plist h i -> is_ordered m = false).
Local Abbreviation unflagged_trace :=
  (fun tr : list hub_event => forall e, e ∈ tr -> is_ordered (event_msg e) = false).

Lemma sorted_msg_unordered m : is_ordered (sorted_msg m) = false.
Proof. unfold sorted_msg. by destruct (is_ordered m) eqn:E. Qed.

Lemma elem_of_drop_inv {A} (x : A) n (l : list A) : x ∈ drop n l -> x ∈ l.
Proof. intros Hx. rewrite <- (take_drop n l). apply elem_of_app. by right. Qed.

Lemma elem_of_take_inv {A} (x : A) n (l : list A) : x ∈ take n l -> x ∈ l.
Proof. intros Hx. rewrite <- (take_drop n l). apply elem_of_app. by left. Qed.

Lemma delivered_elem m tr :
  m ∈ delivered tr -> exists e, e ∈ tr /\ event_msg e = m.
Proof.
  induction tr as [|e tr IH]; simpl; [by intros ?%elem_of_nil|].
  destruct e as [q m'|q m'].
  - intros [->|Hm]%elem_of_cons.
    + eexists. split; [by left|done].
    + destruct (IH Hm) as (e & He & Heq). exists e. split; [by right|done].
  - intros Hm. destruct (IH Hm) as (e & He & Heq). exists e. split; [by right|done].
Qed.

Lemma pull_pass_unflagged (initial_pass : bool) arrived h :
  unflagged_lists h -> unflagged_lists (pull_pass initial_pass arrived h).
Proof.
  intros HU i m Hm.
  destruct (pull_pass_spec MIN MAX ORD initial_pass arrived h) as (Hlen & new & Hlists).
  destruct (decide (i < length (priority_msg_lists_ h))%nat) as [Hi|Hi].
  - rewrite (Hlists i Hi) in Hm. apply elem_of_app in Hm as [Hm|Hm]; [by eapply HU|].
    apply sorted_onto_elem_inv in Hm as (m0 & _ & -> & _).
    apply sorted_msg_unordered.
  - unfold priority_msg_list_at in Hm.
    rewrite lookup_ge_None_2 in Hm by lia. by apply elem_of_nil in Hm.
Qed.

Lemma process_priority_unflagged n p st :
  unflagged_lists (ps_hub st) -> unflagged_trace (ps_trace st) ->
  unflagged_lists (ps_hub (process_priority n p st))
  /\ unflagged_trace (ps_trace (process_priority n p st)).
Proof.
  intros HU HT. destruct (index_of p) as [i|] eqn:Hi.
  - destruct (process_priority_spec MIN MAX on_thread_switch n p i st Hi)
      as (Hlists & _ & _ & _ & tr & Htr & Hmsgs & _ & _).
    split.
    + intros j m Hm. unfold priority_msg_list_at in Hm.
      rewrite Hlists, plist_alter_drop in Hm.
      destruct (decide (i = j)); [apply elem_of_drop_inv in Hm|]; by eapply HU.
    + intros e He. rewrite Htr in He. apply elem_of_app in He as [He|He]; [by apply HT|].
      apply (HU i). apply (elem_of_take_inv _ n). rewrite <- Hmsgs.
      by apply list_elem_of_fmap_2.
  - by rewrite (process_priority_invalid MIN MAX on_thread_switch n p st Hi).
Qed.

Lemma process_priorities_unflagged n eg p0 st :
  unflagged_lists (ps_hub st) -> unflagged_trace (ps_trace st) ->
  unflagged_lists (ps_hub (process_priorities n eg p0 st))
  /\ unflagged_trace (ps_trace (process_priorities n eg p0 st)).
Proof.
  revert p0 st. induction n as [|n IH]; intros p0 st HU HT; [done|].
  cbn [Hub.process_priorities].
  destruct (process_priority_unflagged (Z.to_nat (to_process eg p0)) p0 st HU HT).
  by apply IH.
Qed.

Lemma on_event_pass_unflagged (initial_pass : bool) arrived st :
  unflagged_lists (ps_hub st) -> unflagged_trace (ps_trace st) ->
  unflagged_lists (ps_hub (on_event_pass initial_pass arrived st))
  /\ unflagged_trace (ps_trace (on_event_pass initial_pass arrived st)).
Proof.
  intros HU HT. unfold Hub.on_event_pass, Hub.process_pass.
  apply process_priorities_unflagged; cbn [ps_hub ps_trace]; [|exact HT].
  by apply pull_pass_unflagged.
Qed.

Lemma on_event_loop_unflagged fuel arrivals :
  forall k (initial_pass : bool) st st',
    unflagged_lists (ps_hub st) -> unflagged_trace (ps_trace st) ->
    on_event_loop fuel arrivals k initial_pass st = Some st' ->
    unflagged_lists (ps_hub st') /\ unflagged_trace (ps_trace st').
Proof.
  induction fuel as [|fuel IH]; intros k ip st st' HU HT Hrun; [discriminate|].
  cbn [Hub.on_event_loop] in Hrun.
  destruct (on_event_pass_unflagged ip (arrivals k) st HU HT) as [HU' HT'].
  destruct (initial_batch_has_been_processed _ _).
  - by simplify_eq.
  - by eapply IH.
Qed.

(** X5. Every message on a priority list has [is_ordered] reset, so when
    [on_event] runs the [on_thread_switch] of a message, that message is not
    flagged as ordered: the callback may hand the same object to
    [store_message_ordered] again without violating its [rassert]. *)
Theorem delivered_messages_are_not_flagged_ordered fuel arrivals h st :
  (forall i m, m ∈ plist h i -> is_ordered m = false) ->
  on_event fuel arrivals h = Some st ->
  (forall m, m ∈ delivered (ps_trace st) -> is_ordered m = false)
  /\ (forall i m, m ∈ plist (ps_hub st) i -> is_ordered m = false).
Proof.
  intros HU Hrun. unfold Hub.on_event in Hrun.
  apply on_event_loop_unflagged in Hrun as [HU' HT'].
  - split; [|exact HU']. intros m (e & He & <-)%delivered_elem. by apply HT'.
  - exact HU.
  - intros e He. by apply elem_of_nil in He.
Qed.

(** *** A hub with nothing to do *)

Lemma process_priority_empty n p st :
  (forall i, plist (ps_hub st) i = []) -> process_priority n p st = st.
Proof.
  intros Hempty. destruct n as [|n]; [done|]. simpl.
  unfold get_priority_msg_list. destruct (index_of p) as [i|]; [|done].
  by rewrite (Hempty i : default [] _ = []).
Qed.

Lemma process_priorities_empty n eg p0 st :
  (forall i, plist (ps_hub st) i = []) -> process_priorities n eg p0 st = st.
Proof.
  intros Hempty. revert p0. induction n as [|n IH]; intros p0; [done|].
  cbn [Hub.process_priorities]. by rewrite process_priority_empty, IH.
Qed.

(** X6. Woken up with no message on its incoming list and none on its
    priority lists, and with nothing arriving meanwhile, [on_event] returns
    after a single iteration: it consumes the wake-ups, resets
    [is_woken_up_], runs no callback and leaves the lists as they were. *)
Theorem on_event_with_nothing_to_do h :
  (forall i, plist h i = []) -> incoming_messages_ h = [] ->
  exists st,
    on_event 1 silent_arrivals h = Some st
    /\ ps_trace st = []
    /\ ps_hub st = set_is_woken_up_ false (set_event_ 0 h).
Proof.
  intros Hempty Hincoming.
  unfold Hub.on_event. cbn [Hub.on_event_loop].
  assert (pull_pass true (silent_arrivals 0%nat) (set_event_ 0 h)
          = set_is_woken_up_ false (set_event_ 0 h)) as Hpull.
  { destruct h as [qs ls inc woken ev cur]. simpl in Hincoming. subst inc.
    reflexivity. }
  unfold Hub.on_event_pass, Hub.process_pass. cbn [ps_hub ps_left ps_trace].
  rewrite Hpull. rewrite process_priorities_empty by (intros i; apply Hempty).
  cbn [ps_left].
  assert (initial_batch_has_been_processed NUM
            (initial_msgs_left NUM (set_is_woken_up_ false (set_event_ 0 h))) = true)
    as ->.
  { unfold initial_batch_has_been_processed, initial_msgs_left.
    apply forallb_forall. intros c Hc. apply list_elem_of_In in Hc.
    apply elem_of_take_inv in Hc.
    apply list_elem_of_fmap in Hc as (l & -> & Hl).
    apply elem_of_take_inv in Hl.
    apply list_elem_of_lookup in Hl as (i & Hi).
    specialize (Hempty i). unfold priority_msg_list_at in Hempty.
    cbn in Hi. rewrite Hi in Hempty. simpl in Hempty. by subst l. }
  eexists. split; [reflexivity|]. split; reflexivity.
Qed.

(** *** The array of priority lists *)

Local Abbreviation update_list := (update_priority_msg_list MIN MAX).

(** X7. [get_priority_msg_list] maps the priorities from
    [MESSAGE_SCHEDULER_MIN_PRIORITY] to [MESSAGE_SCHEDULER_MAX_PRIORITY] one
    to one onto the lists of [priority_msg_lists_]: what is written through
    the reference it returns for a priority is what it returns for that
    priority afterwards, and the lists of all other priorities are
    untouched. *)
Theorem priority_lists_are_independent p q (f : msg_list_t -> msg_list_t) h :
  args_ok -> Hub.hub_ok NUM h -> MIN <= p <= MAX -> MIN <= q <= MAX ->
  (exists i, index_of p = Some i /\ (i < Z.to_nat NUM)%nat
             /\ list_of p h = plist h i)
  /\ (index_of p = index_of q -> p = q)
  /\ list_of p (update_list p f h) = f (list_of p h)
  /\ (p <> q -> list_of q (update_list p f h) = list_of q h).
Proof.
  intros Hargs Hh Hp Hq.
  destruct (index_of p) as [i|] eqn:Hi;
    [|unfold priority_index in Hi; by rewrite decide_True in Hi].
  destruct (index_of q) as [j|] eqn:Hj;
    [|unfold priority_index in Hj; by rewrite decide_True in Hj].
  pose proof (priority_index_lt MIN MAX ORD NUM GRAN p i Hargs Hi) as Hlt.
  split; [exists i; split; [done|split; [done|]]|split; [|split]].
  - by apply get_priority_msg_list_at.
  - intros [= ->]. by eapply priority_index_inj.
  - rewrite !(get_priority_msg_list_at MIN MAX p i) by done.
    rewrite update_priority_msg_list_at, Hi.
    unfold Hub.hub_ok in Hh. rewrite decide_True; [done|]. split; [done|lia].
  - intros Hpq. rewrite !(get_priority_msg_list_at MIN MAX q j) by done.
    rewrite update_priority_msg_list_at, Hi.
    rewrite decide_False; [done|]. intros [-> _]. apply Hpq.
    by eapply priority_index_inj.
Qed.

(** *** The number of iterations *)

Local Abbreviation on_event_inv := (Hub.on_event_inv MIN MAX NUM).
Local Abbreviation batch_done := (initial_batch_has_been_processed NUM).
Local Abbreviation at_initial_count := (Hub.at_initial_count MIN MAX ORD).

Lemma on_event_loop_within arrivals init fuel :
  args_ok ->
  forall b k st,
    on_event_inv init st -> left_bounded b st -> (1 <= b <= fuel)%nat ->
    exists st', on_event_loop fuel arrivals k false st = Some st'.
Proof.
  intros Hargs. induction fuel as [|fuel IH]; intros b k st Hinv Hb Hlt; [lia|].
  cbn [Hub.on_event_loop].
  destruct (next_pass_inv MIN MAX ORD NUM GRAN on_thread_switch init (arrivals k) st
              Hargs Hinv) as [Hinv' Hb'].
  specialize (Hb' b Hb).
  destruct (initial_batch_has_been_processed NUM
              (ps_left (on_event_pass false (arrivals k) st))) eqn:E; [eauto|].
  apply (IH (pred b) (S k)); [done|done|].
  destruct (decide (b = 1%nat)) as [->|Hb1]; [|lia].
  exfalso. apply not_true_iff_false in E. apply E.
  apply (batch_done_spec NUM); [apply Hinv'|].
  intros i c Hc. apply Hb' in Hc. simpl in Hc. lia.
Qed.

(** X8. [on_event] needs at most as many iterations of its loop as the
    longest priority list has messages when the initial pass counts them
    (and one iteration when all lists are empty), whatever arrives
    meanwhile. *)
Theorem on_event_iterations_are_bounded arrivals h (b : nat) :
  args_ok -> Hub.hub_ok NUM h ->
  (forall i, (length (plist (at_initial_count arrivals h) i) <= b)%nat) ->
  exists st, on_event (Nat.max 1 b) arrivals h = Some st.
Proof.
  intros Hargs Hh Hlen.
  pose proof (first_pass_inv MIN MAX ORD NUM GRAN on_thread_switch arrivals h Hargs Hh)
    as Hinv.
  unfold Hub.on_event.
  destruct (Nat.max 1 b) as [|fuel] eqn:Hfuel; [lia|]. cbn [Hub.on_event_loop].
  set (st1 := on_event_pass true (arrivals 0%nat) (PassState (set_event_ 0 h) [] [])) in *.
  assert (left_bounded (pred b) st1) as Hb.
  { intros i c Hc.
    assert (i < Z.to_nat NUM)%nat as Hi.
    { destruct Hinv as (_ & Hl & _). rewrite <- Hl. by eapply lookup_lt_Some. }
    pose proof (priority_index_of_nat MIN MAX ORD NUM GRAN i Hargs Hi) as Hp.
    destruct Hinv as (_ & _ & _ & Hinv). destruct (Hinv _ _ Hp) as [_ Hleft].
    rewrite Hleft in Hc. injection Hc as <-.
    subst st1. unfold Hub.on_event_pass. cbn [ps_hub ps_left ps_trace].
    fold (at_initial_count arrivals h).
    destruct (process_pass_spec MIN MAX NUM GRAN on_thread_switch true
                (PassState (at_initial_count arrivals h) [] []))
      as (_ & _ & _ & tr & HT & _ & HP).
    destruct (HP _ _ Hp) as (_ & _ & Htake). cbn [ps_hub ps_left ps_trace] in *.
    rewrite HT. simpl. rewrite Htake, length_take.
    pose proof (to_process_from_priority_ge_1 MAX
                  (eff_gran (at_initial_count arrivals h)) (MIN + Z.of_nat i)).
    unfold quota. specialize (Hlen i). lia. }
  destruct (initial_batch_has_been_processed NUM (ps_left st1)) eqn:E; [eauto|].
  destruct (decide (b <= 1)%nat) as [Hb1|Hb1].
  - exfalso. apply not_true_iff_false in E. apply E.
    apply (batch_done_spec NUM); [apply Hinv|].
    intros i c Hc. apply Hb in Hc. lia.
  - apply (on_event_loop_within arrivals _ fuel Hargs (pred b) 1%nat st1 Hinv Hb). lia.
Qed.

(** *** The constructor's check *)

(** X9. When the constructor's check does not fire, that is when
    [MESSAGE_SCHEDULER_GRANULARITY] is at least
    [1 << NUM_SCHEDULER_PRIORITIES], a pass at full granularity gives every
    priority a quota of at least 2 that is the shifted granularity itself:
    the floor of 1 is not needed for any priority. *)
Theorem quiet_constructor_honors_every_priority p :
  args_ok -> constructor_warns NUM GRAN = false -> MIN <= p <= MAX ->
  to_process GRAN p = Z.shiftr GRAN (MAX - p)
  /\ 2 <= to_process GRAN p.
Proof.
  intros (Hmin & Hmax & Hnum & Hgran) Hwarn Hp.
  unfold constructor_warns in Hwarn. apply Z.ltb_ge in Hwarn.
  rewrite Z.shiftl_1_l in Hwarn.
  assert (2 <= Z.shiftr GRAN (MAX - p)) as Hge.
  { rewrite Z.shiftr_div_pow2 by lia.
    apply Z.div_le_lower_bound; [apply Z.pow_pos_nonneg; lia|].
    replace (2 ^ (MAX - p) * 2) with (2 ^ (MAX - p + 1))
      by (rewrite Z.pow_add_r by lia; lia).
    etransitivity; [|exact Hwarn]. apply Z.pow_le_mono_r; lia. }
  unfold to_process_from_priority. lia.
Qed.

End Scheduler.
End PassFacts.

(** ** The message hub: handing messages over *)
Module TransferFacts.
Import Hub HubFacts OrderFacts.

Section Transfer.

Set Default Proof Using "Type".

Variables MESSAGE_SCHEDULER_MIN_PRIORITY MESSAGE_SCHEDULER_MAX_PRIORITY : Z.
Variable MESSAGE_SCHEDULER_ORDERED_PRIORITY : Z.
Variable NUM_SCHEDULER_PRIORITIES : Z.
Variable MESSAGE_SCHEDULER_GRANULARITY : Z.
Variable on_thread_switch : linux_thread_message_t -> list store_call.
Variable n_threads : nat.

Local Abbreviation MIN := MESSAGE_SCHEDULER_MIN_PRIORITY.
Local Abbreviation MAX := MESSAGE_SCHEDULER_MAX_PRIORITY.
Local Abbreviation ORD := MESSAGE_SCHEDULER_ORDERED_PRIORITY.
Local Abbreviation NUM := NUM_SCHEDULER_PRIORITIES.
Local Abbreviation GRAN := MESSAGE_SCHEDULER_GRANULARITY.
Local Abbreviation args_ok := (scheduler_args_ok MIN MAX ORD NUM GRAN).
Local Abbreviation index_of := (priority_index MIN MAX).
Local Abbreviation pool_ok := (Hub.pool_ok NUM n_threads).
Local Abbreviation hub_ok := (Hub.hub_ok NUM).
Local Abbreviation sort_incoming := (sort_incoming_messages_by_priority MIN MAX ORD).
Local Abbreviation sort_new := (sort_new_messages MIN MAX ORD).
Local Abbreviation sorted_onto := (Hub.sorted_onto MIN MAX ORD).
Local Abbreviation eff_priority := (effective_priority ORD).
Local Abbreviation update_list := (update_priority_msg_list MIN MAX).
Local Abbreviation plist := priority_msg_list_at.

Implicit Types (h : linux_message_hub_t) (m : linux_thread_message_t).
Implicit Types (pool : thread_pool_t) (s : slot).

(** *** [insert_external_message] *)

Lemma insert_external_messages_spec msgs :
  forall h,
    let h' := foldl (fun h m => insert_external_message m h) h msgs in
    incoming_messages_ h' = incoming_messages_ h ++ msgs
    /\ is_woken_up_ h' = (is_woken_up_ h || negb (msg_list_empty msgs))
    /\ event_ h' = (if is_woken_up_ h || msg_list_empty msgs
                    then event_ h else S (event_ h))
    /\ queues_ h' = queues_ h
    /\ priority_msg_lists_ h' = priority_msg_lists_ h
    /\ current_thread_ h' = current_thread_ h.
Proof.
  induction msgs as [|m msgs IH]; intros h h'.
  - subst h'. simpl. rewrite app_nil_r, !orb_true_r, orb_false_r. done.
  - subst h'. cbn [foldl].
    destruct (IH (insert_external_message m h)) as (Hi & Hw & He & Hq & Hp & Hc).
    rewrite Hi, Hw, He, Hq, Hp, Hc. clear.
    destruct h as [qs ls inc woken ev cur]. unfold insert_external_message.
    destruct woken; simpl; rewrite <- app_assoc; done.
Qed.

(** X10. A burst of one or more calls of [insert_external_message] appends
    the messages to the incoming list in the order of the calls, leaves the
    hub flagged as woken up, and writes exactly one wake-up to the event if
    the hub was not flagged before, none if it was. *)
Theorem external_messages_wake_once msgs h :
  msgs <> [] ->
  let h' := foldl (fun h m => insert_external_message m h) h msgs in
  incoming_messages_ h' = incoming_messages_ h ++ msgs
  /\ is_woken_up_ h' = true
  /\ event_ h' = (if is_woken_up_ h then event_ h else S (event_ h))
  /\ queues_ h' = queues_ h
  /\ priority_msg_lists_ h' = priority_msg_lists_ h.
Proof.
  intros Hne h'.
  destruct (insert_external_messages_spec msgs h) as (Hi & Hw & He & Hq & Hp & _).
  fold h' in Hi, Hw, He, Hq, Hp.
  destruct msgs as [|m msgs]; [done|]. simpl in Hw, He.
  rewrite orb_true_r in Hw. rewrite orb_false_r in He. done.
Qed.

(** *** [deliver_local_messages] *)

(** X11. [deliver_local_messages] moves the hub's local list for its own
    thread to the end of its incoming list.  With nothing to move the hub
    is left untouched and no wake-up is written; otherwise the hub is
    flagged as woken up and one wake-up is written unless it was flagged
    already.  A second call changes nothing. *)
Theorem deliver_local_messages_moves_local_list h :
  let local := default [] (queues_ h !! current_thread_ h) in
  let h' := deliver_local_messages h in
  incoming_messages_ h' = incoming_messages_ h ++ local
  /\ default [] (queues_ h' !! current_thread_ h) = []
  /\ (forall j, j <> current_thread_ h -> queues_ h' !! j = queues_ h !! j)
  /\ priority_msg_lists_ h' = priority_msg_lists_ h
  /\ (local = [] -> h' = h)
  /\ (local <> [] ->
      is_woken_up_ h' = true
      /\ event_ h' = if is_woken_up_ h then event_ h else S (event_ h))
  /\ deliver_local_messages h' = h'.
Proof.
  intros local h'.
  assert (default [] (queues_ h' !! current_thread_ h) = []) as Hcleared.
  { subst h'. destruct (deliver_local_messages_spec h) as (-> & _).
    destruct (decide (current_thread_ h < length (queues_ h))%nat).
    - by rewrite list_lookup_insert_eq.
    - by rewrite lookup_ge_None_2 by (rewrite length_insert; lia). }
  assert (current_thread_ h' = current_thread_ h) as Hcur
    by apply deliver_local_messages_spec.
  split; [apply deliver_local_messages_spec|]. split; [exact Hcleared|].
  split; [|split; [apply deliver_local_messages_spec|split; [|split]]].
  - intros j Hj. subst h'. destruct (deliver_local_messages_spec h) as (-> & _).
    by rewrite list_lookup_insert_ne.
  - subst h' local. unfold deliver_local_messages. by intros ->.
  - subst h' local. unfold deliver_local_messages.
    destruct (default [] (queues_ h !! current_thread_ h)) as [|m0 q]; [done|].
    intros _. unfold check_and_set_is_woken_up. simpl. by destruct (is_woken_up_ h).
  - unfold deliver_local_messages at 1. by rewrite Hcur, Hcleared.
Qed.

(** *** [push_messages] *)

Lemma pool_ok_push_messages_to me i pool :
  (me < n_threads)%nat -> (i < n_threads)%nat ->
  pool_ok pool -> pool_ok (push_messages_to me i pool).
Proof.
  intros Hme Hi Hok.
  by destruct (step_push_messages_to NUM n_threads 0 0 0 me i pool [] Hme Hi Hok).
Qed.

Lemma content_push_messages_to me i pool :
  pool_ok pool -> (me < n_threads)%nat -> (i < n_threads)%nat ->
  forall s, content (push_messages_to me i pool) s
            = upd (upd (content pool) (slot_incoming i)
                       (content pool (slot_incoming i)
                        ++ content pool (slot_queue me i)))
                  (slot_queue me i) [] s.
Proof.
  intros Hok Hme Hi s. unfold push_messages_to.
  destruct (pool_ok_lookup NUM n_threads pool me Hok Hme) as (this & Hthis & Hqme & _).
  rewrite Hthis.
  assert (content pool (slot_queue me i) = default [] (queues_ this !! i)) as Hcq.
  { unfold content. simpl. by rewrite Hthis. }
  destruct (default [] (queues_ this !! i)) as [|m0 q] eqn:Hq.
  - unfold upd. rewrite Hcq, app_nil_r.
    destruct (decide (s = slot_queue me i)) as [->|Hs1]; [done|].
    by destruct (decide (s = slot_incoming i)) as [->|Hs2].
  - rewrite <- Hq in *. remember (default [] (queues_ this !! i)) as msgs eqn:Hmsgs.
    clear Hq.
    destruct (pool_ok_lookup NUM n_threads pool i Hok Hi) as (hi & Hhi & Hqi & _).
    rewrite Hcq, content_alter. rewrite list_lookup_alter, Hhi. simpl.
    destruct (receive_pushed_spec msgs hi) as (Rq & Rp & Ri & Rc).
    unfold upd, content.
    destruct s as [u j|u|u k]; simpl.
    + destruct (decide (u = me)) as [->|Hu].
      * destruct (decide (i = me)) as [->|Hne].
        -- assert (hi = this) as -> by congruence. simpl. rewrite Rq.
           destruct (decide (j = me)) as [->|Hj].
           ++ rewrite decide_True by done.
              rewrite list_lookup_insert_eq by lia. done.
           ++ rewrite decide_False by congruence.
              rewrite list_lookup_insert_ne by done. by rewrite Hthis.
        -- rewrite Hthis. simpl.
           destruct (decide (j = i)) as [->|Hj].
           ++ rewrite decide_True by done.
              rewrite list_lookup_insert_eq by lia. done.
           ++ rewrite decide_False by congruence.
              rewrite list_lookup_insert_ne by done. done.
      * rewrite decide_False by congruence.
        rewrite list_lookup_alter.
        destruct (decide (i = u)) as [<-|Hui]; [|done].
        rewrite Hhi. simpl. by rewrite Rq.
    + destruct (decide (u = me)) as [->|Hu].
      * destruct (decide (i = me)) as [->|Hne].
        -- rewrite decide_True by done. by rewrite Ri, Hhi.
        -- rewrite Hthis. simpl. rewrite decide_False by congruence. done.
      * rewrite list_lookup_alter.
        destruct (decide (i = u)) as [<-|Hui].
        -- rewrite decide_True by done. rewrite Hhi. simpl. by rewrite Ri.
        -- rewrite decide_False by congruence. done.
    + destruct (decide (u = me)) as [->|Hu].
      * destruct (decide (i = me)) as [->|Hne].
        -- unfold priority_msg_list_at. simpl. by rewrite Rp, Hhi.
        -- by rewrite Hthis.
      * rewrite list_lookup_alter.
        destruct (decide (i = u)) as [<-|Hui]; [|done].
        rewrite Hhi. simpl. unfold priority_msg_list_at. by rewrite Rp.
Qed.

Lemma push_targets_spec me targets :
  (me < n_threads)%nat -> NoDup targets ->
  Forall (fun i => i < n_threads)%nat targets ->
  forall pool,
    pool_ok pool ->
    let pool' := foldl (fun pool i => push_messages_to me i pool) pool targets in
    pool_ok pool'
    /\ forall s,
         content pool' s =
         match s with
         | slot_queue u j =>
             if decide (u = me /\ j ∈ targets) then [] else content pool s
         | slot_incoming i =>
             content pool (slot_incoming i)
             ++ (if decide (i ∈ targets) then content pool (slot_queue me i) else [])
         | slot_priority _ _ => content pool s
         end.
Proof.
  intros Hme Hnd Hall. induction Hall as [|t targets Ht Hall IH]; intros pool Hok pool'.
  - subst pool'. simpl. split; [done|]. intros [u j|i|u k]; [|by rewrite app_nil_r|done].
    rewrite decide_False; [done|]. intros [_ Hj]. by apply elem_of_nil in Hj.
  - apply NoDup_cons in Hnd as [Hnt Hnd]. subst pool'. cbn [foldl].
    pose proof (pool_ok_push_messages_to me t pool Hme Ht Hok) as Hok1.
    destruct (IH Hnd _ Hok1) as [Hok' Hc]. split; [exact Hok'|].
    intros s. rewrite Hc.
    pose proof (content_push_messages_to me t pool Hok Hme Ht) as H1.
    destruct s as [u j|i|u k].
    + rewrite H1. unfold upd.
      destruct (decide (u = me /\ j ∈ targets)) as [[-> Hj]|Hn].
      * rewrite decide_True; [done|]. split; [done|by right].
      * destruct (decide (slot_queue u j = slot_queue me t)) as [Heq|Hne].
        -- simplify_eq. rewrite decide_True; [done|]. split; [done|by left].
        -- rewrite decide_False by done.
           rewrite decide_False; [done|]. intros [-> [->|Hj]%elem_of_cons]; tauto.
    + rewrite !H1. unfold upd.
      destruct (decide (i = t)) as [->|Hit].
      * rewrite (decide_False (P := slot_incoming t = slot_queue me t)) by done.
        rewrite (decide_True (P := slot_incoming t = slot_incoming t)) by done.
        rewrite (decide_False (P := t ∈ targets)) by done.
        rewrite (decide_True (P := t ∈ t :: targets)) by (by left).
        by rewrite app_nil_r.
      * rewrite (decide_False (P := slot_incoming i = slot_queue me t)) by done.
        rewrite (decide_False (P := slot_incoming i = slot_incoming t)) by congruence.
        rewrite (decide_False (P := slot_queue me i = slot_queue me t)) by congruence.
        rewrite (decide_False (P := slot_queue me i = slot_incoming t)) by done.
        destruct (decide (i ∈ targets)) as [Hi|Hi].
        -- rewrite decide_True by (by right). done.
        -- rewrite decide_False; [done|]. by intros [->|?]%elem_of_cons.
    + rewrite H1. unfold upd. rewrite !decide_False by done. done.
Qed.

Lemma content_push_messages me pool :
  pool_ok pool -> (me < n_threads)%nat ->
  forall s,
    content (push_messages me pool) s =
    match s with
    | slot_queue u j => if decide (u = me) then [] else content pool s
    | slot_incoming i =>
        content pool (slot_incoming i) ++ content pool (slot_queue me i)
    | slot_priority _ _ => content pool s
    end.
Proof.
  intros Hok Hme s. unfold push_messages.
  destruct Hok as [Hlen Hhubs].
  destruct (push_targets_spec me (seq 0 (length pool)) Hme (NoDup_seq _ _)) with (pool := pool)
    as [_ Hc].
  { apply Forall_forall. intros i Hi. apply elem_of_seq in Hi. lia. }
  { by split. }
  rewrite Hc. destruct s as [u j|i|u k]; [| |done].
  - destruct (decide (u = me)) as [->|Hu].
    + destruct (decide (j < length pool)%nat) as [Hj|Hj].
      * rewrite decide_True; [done|]. split; [done|]. apply elem_of_seq. lia.
      * rewrite decide_False by (intros [_ Hin]; apply elem_of_seq in Hin; lia).
        unfold content. simpl. destruct (pool !! me) as [hme|] eqn:Hhme; [|done].
        destruct (Hhubs me hme Hhme) as (Hq & _).
        by rewrite lookup_ge_None_2 by lia.
    + rewrite decide_False by tauto. done.
  - destruct (decide (i ∈ seq 0 (length pool))) as [Hi|Hi]; [done|].
    rewrite elem_of_seq in Hi.
    assert (content pool (slot_queue me i) = []) as ->; [|done].
    unfold content. simpl. destruct (pool !! me) as [hme|] eqn:Hhme; [|done].
    destruct (Hhubs me hme Hhme) as (Hq & _).
    by rewrite lookup_ge_None_2 by lia.
Qed.

Local Abbreviation wake_state := (fun h => (is_woken_up_ h, event_ h)).
Local Abbreviation woken_by_push :=
  (fun h => (true, if is_woken_up_ h then event_ h else S (event_ h))).

Lemma push_messages_to_wake me t pool i h :
  pool !! i = Some h ->
  exists h',
    push_messages_to me t pool !! i = Some h'
    /\ wake_state h' =
       if decide (i = t /\ content pool (slot_queue me t) <> [])
       then woken_by_push h else wake_state h.
Proof.
  intros Hh. unfold push_messages_to, content. simpl.
  destruct (pool !! me) as [this|] eqn:Hthis.
  - destruct (default [] (queues_ this !! t)) as [|m0 q] eqn:Hq.
    + exists h. split; [done|]. rewrite decide_False; [done|]. tauto.
    + rewrite !list_lookup_alter.
      destruct (decide (me = i)) as [->|Hmi]; destruct (decide (t = i)) as [->|Hti].
      * rewrite Hh. simpl. rewrite decide_True by done.
        eexists. split; [reflexivity|]. unfold receive_pushed. simpl.
        by destruct (is_woken_up_ h).
      * rewrite Hthis. simpl. rewrite decide_False by (intros [? _]; congruence).
        eexists. split; [reflexivity|]. simpl. congruence.
      * rewrite Hh. simpl. rewrite decide_True by done.
        eexists. split; [reflexivity|]. unfold receive_pushed. simpl.
        by destruct (is_woken_up_ h).
      * rewrite Hh. rewrite decide_False by (intros [? _]; congruence).
        eexists. split; [reflexivity|]. done.
  - exists h. split; [done|]. rewrite decide_False; [done|]. tauto.
Qed.

Lemma push_targets_wake me targets :
  (me < n_threads)%nat -> NoDup targets ->
  Forall (fun i => i < n_threads)%nat targets ->
  forall pool i h,
    pool_ok pool -> pool !! i = Some h ->
    exists h',
      foldl (fun pool i => push_messages_to me i pool) pool targets !! i = Some h'
      /\ wake_state h' =
         if decide (i ∈ targets /\ content pool (slot_queue me i) <> [])
         then woken_by_push h else wake_state h.
Proof.
  intros Hme Hnd Hall. induction Hall as [|t targets Ht Hall IH]; intros pool i h Hok Hh.
  - exists h. split; [done|]. rewrite decide_False; [done|].
    intros [Hi _]. by apply elem_of_nil in Hi.
  - apply NoDup_cons in Hnd as [Hnt Hnd]. cbn [foldl].
    destruct (push_messages_to_wake me t pool i h Hh) as (h1 & Hh1 & Hw1).
    pose proof (pool_ok_push_messages_to me t pool Hme Ht Hok) as Hok1.
    destruct (IH Hnd _ i h1 Hok1 Hh1) as (h' & Hh' & Hw').
    exists h'. split; [exact Hh'|]. rewrite Hw'.
    rewrite (content_push_messages_to me t pool Hok Hme Ht). unfold upd.
    destruct (decide (i = t)) as [->|Hit].
    + rewrite (decide_True (P := slot_queue me t = slot_queue me t)) by done.
      rewrite decide_False by tauto. rewrite Hw1.
      destruct (decide (t = t /\ content pool (slot_queue me t) <> [])) as [[_ Hq]|Hq].
      * rewrite decide_True; [done|]. split; [by left|done].
      * rewrite decide_False; [done|]. tauto.
    + rewrite (decide_False (P := slot_queue me i = slot_queue me t)) by congruence.
      rewrite (decide_False (P := slot_queue me i = slot_incoming t)) by done.
      rewrite decide_False in Hw1 by tauto.
      inversion Hw1 as [[Hflag Hev]].
      destruct (decide (i ∈ targets /\ content pool (slot_queue me i) <> [])) as [[Hi Hq]|Hn].
      * rewrite decide_True; [done|]. split; [by right|done].
      * rewrite decide_False; [done|]. intros [[->|Hi]%elem_of_cons Hq]; tauto.
Qed.

(** X12. [push_messages] on thread [me] moves every local list of the hub
    of [me] to the end of the incoming list of the thread it is for, in
    order, and leaves every local list of that hub empty; the other local
    lists of the pool and all priority lists are untouched.  A hub that
    receives messages is flagged as woken up, and one wake-up is written to
    it unless it was flagged already; a hub that receives nothing keeps its
    flag and its event. *)
Theorem push_messages_moves_local_lists me pool :
  pool_ok pool -> (me < n_threads)%nat ->
  (forall s,
     content (push_messages me pool) s =
     match s with
     | slot_queue u j => if decide (u = me) then [] else content pool s
     | slot_incoming i =>
         content pool (slot_incoming i) ++ content pool (slot_queue me i)
     | slot_priority _ _ => content pool s
     end)
  /\ (forall i h,
        pool !! i = Some h ->
        exists h',
          push_messages me pool !! i = Some h'
          /\ (is_woken_up_ h', event_ h') =
             if decide (content pool (slot_queue me i) <> [])
             then (true, if is_woken_up_ h then event_ h else S (event_ h))
             else (is_woken_up_ h, event_ h)).
Proof.
  intros Hok Hme. split; [by apply content_push_messages|].
  intros i h Hh. unfold push_messages.
  assert (i < length pool)%nat as Hi by (by eapply lookup_lt_Some).
  destruct (push_targets_wake me (seq 0 (length pool)) Hme (NoDup_seq _ _))
    with (pool := pool) (i := i) (h := h) as (h' & Hh' & Hw'); [|done|done|].
  { apply Forall_forall. intros j Hj. apply elem_of_seq in Hj.
    destruct Hok as [Hlen _]. lia. }
  exists h'. split; [exact Hh'|]. rewrite Hw'.
  destruct (decide (content pool (slot_queue me i) <> [])) as [Hq|Hq].
  - rewrite decide_True; [done|]. split; [|done]. apply elem_of_seq. lia.
  - rewrite decide_False; [done|]. tauto.
Qed.

Lemma push_messages_to_nothing me i pool :
  content pool (slot_queue me i) = [] -> push_messages_to me i pool = pool.
Proof.
  unfold content, push_messages_to. simpl.
  destruct (pool !! me) as [this|]; [|done]. by intros ->.
Qed.

Lemma push_targets_nothing me targets pool :
  (forall j, content pool (slot_queue me j) = []) ->
  foldl (fun pool i => push_messages_to me i pool) pool targets = pool.
Proof.
  intros Hempty. induction targets as [|t targets IH]; [done|].
  cbn [foldl]. by rewrite push_messages_to_nothing.
Qed.

(** X13. With every local list of its hub empty, [push_messages] leaves the
    whole pool as it is: no incoming list grows, no hub is flagged and no
    wake-up is written.  So pushing twice is the same as pushing once. *)
Theorem push_messages_with_nothing_to_push me pool :
  ((forall j, content pool (slot_queue me j) = []) -> push_messages me pool = pool)
  /\ (pool_ok pool -> (me < n_threads)%nat ->
      push_messages me (push_messages me pool) = push_messages me pool).
Proof.
  split.
  - intros Hempty. by apply push_targets_nothing.
  - intros Hok Hme. apply push_targets_nothing. intros j.
    rewrite (content_push_messages me pool Hok Hme).
    by rewrite decide_True.
Qed.

(** *** [sort_incoming_messages_by_priority] *)

Local Abbreviation count_msgs :=
  (fun (acc : Z) (l : msg_list_t) => acc + Z.of_nat (length l)).

Lemma count_msgs_acc (L : list msg_list_t) a :
  foldl count_msgs a L = a + foldl count_msgs 0 L.
Proof.
  revert a. induction L as [|l L IH]; intros a; simpl; [lia|].
  rewrite (IH (a + _)), (IH (0 + _)). lia.
Qed.

Lemma count_msgs_alter (L : list msg_list_t) i x a :
  (i < length L)%nat ->
  foldl count_msgs a (alter (fun l => l ++ [x]) i L) = foldl count_msgs a L + 1.
Proof.
  revert i a. induction L as [|l L IH]; intros i a Hi; simpl in Hi; [lia|].
  destruct i as [|i]; simpl.
  - rewrite length_app. simpl.
    rewrite (count_msgs_acc L (a + _)), (count_msgs_acc L (a + _)). lia.
  - apply IH. lia.
Qed.

Lemma sort_new_messages_wake new h :
  is_woken_up_ (sort_new new h) = is_woken_up_ h
  /\ event_ (sort_new new h) = event_ h.
Proof.
  revert h. induction new as [|m new IH]; intros h; [done|].
  cbn [sort_new_messages]. destruct (IH (update_list (eff_priority m)
                                          (fun l => l ++ [sorted_msg m]) h)) as [-> ->].
  unfold update_priority_msg_list. by destruct (index_of _).
Qed.

Lemma sort_new_messages_total new :
  args_ok -> Forall (fun m => MIN <= eff_priority m <= MAX) new ->
  forall h, hub_ok h ->
    total_pending_msgs NUM (sort_new new h)
    = total_pending_msgs NUM h + Z.of_nat (length new).
Proof.
  intros Hargs Hall. induction Hall as [|m new Hm Hall IH]; intros h Hh.
  - simpl. lia.
  - cbn [sort_new_messages].
    destruct (index_of (eff_priority m)) as [i|] eqn:Hi.
    2:{ unfold priority_index in Hi. by rewrite decide_True in Hi. }
    pose proof (priority_index_lt MIN MAX ORD NUM GRAN _ _ Hargs Hi) as Hlt.
    unfold update_priority_msg_list. rewrite Hi.
    rewrite IH by (unfold Hub.hub_ok in *; simpl; by rewrite length_alter).
    unfold total_pending_msgs. simpl.
    unfold Hub.hub_ok in Hh.
    rewrite !take_ge by (rewrite ?length_alter; lia).
    rewrite count_msgs_alter by lia. simpl length. lia.
Qed.

(** X14. [sort_incoming_messages_by_priority] empties the incoming list
    and appends each of its messages to the list of its effective priority,
    keeping the order of arrival within each list; when every effective
    priority is within the scheduler's range, the number of messages on the
    priority lists grows by the number of messages pulled.  Only a pull
    with [reset_is_woken_up] touches [is_woken_up_], and no pull touches the
    event or the local lists. *)
Theorem sort_incoming_conserves_messages (reset : bool) h :
  args_ok -> hub_ok h ->
  Forall (fun m => MIN <= eff_priority m <= MAX) (incoming_messages_ h) ->
  let h' := sort_incoming reset h in
  incoming_messages_ h' = []
  /\ (forall i, (i < Z.to_nat NUM)%nat ->
        plist h' i = plist h i ++ sorted_onto i (incoming_messages_ h))
  /\ total_pending_msgs NUM h'
     = total_pending_msgs NUM h + Z.of_nat (length (incoming_messages_ h))
  /\ is_woken_up_ h' = (if reset then false else is_woken_up_ h)
  /\ event_ h' = event_ h
  /\ queues_ h' = queues_ h.
Proof.
  intros Hargs Hh Hall h'.
  destruct (sort_incoming_spec MIN MAX ORD reset h) as (_ & Hinc & Hq & _ & Hlists).
  split; [exact Hinc|]. split; [|split; [|split; [|split; [|exact Hq]]]].
  - intros i Hi. apply Hlists. unfold Hub.hub_ok in Hh. lia.
  - subst h'. unfold sort_incoming_messages_by_priority.
    rewrite sort_new_messages_total; [|done|done|by destruct reset].
    by destruct reset.
  - subst h'. unfold sort_incoming_messages_by_priority.
    destruct (sort_new_messages_wake (incoming_messages_ h)
                (if reset then set_is_woken_up_ false (set_incoming_messages_ [] h)
                 else set_incoming_messages_ [] h)) as [-> _].
    by destruct reset.
  - subst h'. unfold sort_incoming_messages_by_priority.
    destruct (sort_new_messages_wake (incoming_messages_ h)
                (if reset then set_is_woken_up_ false (set_incoming_messages_ [] h)
                 else set_incoming_messages_ [] h)) as [_ ->].
    by destruct reset.
Qed.

(** *** From a store to a priority list *)

Lemma sorted_onto_app i (l1 l2 : msg_list_t) :
  sorted_onto i (l1 ++ l2) = sorted_onto i l1 ++ sorted_onto i l2.
Proof. unfold Hub.sorted_onto. apply bind_app. Qed.

(** X15. A message handed to [store_message_ordered] or
    [store_message_sometime] on thread [me] for thread [nthread] is, after
    [push_messages] on [me] and the next pull of [nthread], the last message
    of a priority list of [nthread], with [is_ordered] and [reloop_count_]
    reset: the list of [MESSAGE_SCHEDULER_ORDERED_PRIORITY] for an ordered
    message, whatever its own priority, and the list of its own priority
    otherwise.  Ahead of it on that list are the messages that were on it
    and those of that effective priority that were on the incoming list of
    [nthread] and on the local list of [me] for [nthread]. *)
Theorem stored_message_reaches_its_priority_list
        (ordered reset : bool) me nthread m pool i :
  args_ok -> pool_ok pool -> (me < n_threads)%nat -> (nthread < n_threads)%nat ->
  is_ordered m = false ->
  index_of (if ordered then ORD else priority m) = Some i ->
  let pool1 := alter (if ordered then store_message_ordered nthread m
                      else store_message_sometime nthread m) me pool in
  let pool2 := push_messages me pool1 in
  let pool3 := alter (sort_incoming reset) nthread pool2 in
  content pool3 (slot_priority nthread i)
  = content pool (slot_priority nthread i)
    ++ sorted_onto i (content pool (slot_incoming nthread)
                      ++ content pool (slot_queue me nthread))
    ++ [Msg (msg_id m) (priority m) false 0].
Proof.
  intros Hargs Hok Hme Hnt Hflag Hi pool1 pool2 pool3.
  set (m' := if ordered then set_is_ordered true (set_reloop_count_ 0 m)
             else set_reloop_count_ 0 m).
  assert (pool1 = alter (do_store_message nthread m') me pool) as Hpool1
    by (subst pool1 m'; by destruct ordered).
  assert (pool_ok pool1) as Hok1 by (rewrite Hpool1; by apply pool_ok_do_store).
  assert (pool_ok pool2) as Hok2.
  { by destruct (step_push_messages NUM n_threads 0 0 0 me pool1 [] Hme Hok1). }
  pose proof (content_do_store NUM n_threads me nthread m' pool Hok Hme Hnt) as Hc1.
  rewrite <- Hpool1 in Hc1.
  pose proof (content_push_messages me pool1 Hok1 Hme) as Hc2. fold pool2 in Hc2.
  destruct (pool_ok_lookup NUM n_threads pool2 nthread Hok2 Hnt)
    as (h2 & Hh2 & _ & Hhub2 & _).
  pose proof (priority_index_lt MIN MAX ORD NUM GRAN _ _ Hargs Hi) as Hlt.
  subst pool3. rewrite content_alter. simpl. rewrite decide_True by done.
  rewrite Hh2.
  destruct (sort_incoming_spec MIN MAX ORD reset h2) as (_ & _ & _ & _ & Hlists).
  rewrite Hlists by (unfold Hub.hub_ok in Hhub2; lia).
  assert (plist h2 i = content pool2 (slot_priority nthread i)) as ->
    by (unfold content; simpl; by rewrite Hh2).
  assert (incoming_messages_ h2 = content pool2 (slot_incoming nthread)) as ->
    by (unfold content; simpl; by rewrite Hh2).
  rewrite !Hc2, !Hc1. unfold upd.
  rewrite (decide_False (P := slot_priority nthread i = slot_queue me nthread)) by done.
  rewrite (decide_False (P := slot_incoming nthread = slot_queue me nthread)) by done.
  rewrite (decide_True (P := slot_queue me nthread = slot_queue me nthread)) by done.
  f_equal. rewrite app_assoc, sorted_onto_app. f_equal.
  unfold Hub.sorted_onto. simpl. rewrite app_nil_r.
  assert (eff_priority m' = if ordered then ORD else priority m) as ->.
  { subst m'. unfold effective_priority. destruct ordered; simpl; [done|].
    by rewrite Hflag. }
  rewrite decide_True by done.
  subst m'. unfold sorted_msg. destruct ordered; simpl; [done|].
  rewrite Hflag. destruct m; simpl in *. by subst.
Qed.

(** *** Wake-ups *)

Lemma wake_ok_do_store_message nt m h : wake_ok h -> wake_ok (do_store_message nt m h).
Proof. done. Qed.

Lemma wake_ok_run_store_call c h : wake_ok h -> wake_ok (run_store_call c h).
Proof. by destruct c. Qed.

Lemma wake_ok_receive msgs h : wake_ok h -> wake_ok (receive_pushed msgs h).
Proof.
  unfold wake_ok, receive_pushed. simpl. destruct (is_woken_up_ h); simpl; lia.
Qed.

Lemma wake_ok_insert_external_message m h :
  wake_ok h -> wake_ok (insert_external_message m h).
Proof.
  unfold wake_ok, insert_external_message. simpl.
  destruct (is_woken_up_ h); simpl; lia.
Qed.

Lemma wake_ok_deliver_local_messages h :
  wake_ok h -> wake_ok (deliver_local_messages h).
Proof.
  unfold wake_ok, deliver_local_messages.
  destruct (default [] (queues_ h !! current_thread_ h)); [done|].
  simpl. destruct (is_woken_up_ h); simpl; lia.
Qed.

Lemma wake_ok_sort_incoming h :
  wake_ok h -> wake_ok (sort_incoming false h).
Proof.
  unfold wake_ok, sort_incoming_messages_by_priority.
  by destruct (sort_new_messages_wake (incoming_messages_ h)
                 (set_incoming_messages_ [] h)) as [-> ->].
Qed.

Local Abbreviation process_message := (Hub.process_message MIN MAX on_thread_switch).
Local Abbreviation process_priority := (Hub.process_priority MIN MAX on_thread_switch).
Local Abbreviation process_priorities := (Hub.process_priorities MIN MAX on_thread_switch).
Local Abbreviation process_pass := (Hub.process_pass MIN MAX NUM GRAN on_thread_switch).
Local Abbreviation run_action := (Hub.run_action MIN MAX ORD NUM GRAN on_thread_switch).
Local Abbreviation run_actions := (Hub.run_actions MIN MAX ORD NUM GRAN on_thread_switch).

Lemma run_on_thread_switch_wake m h :
  wake_state (run_on_thread_switch on_thread_switch m h) = wake_state h.
Proof.
  unfold run_on_thread_switch. generalize (on_thread_switch m). intros calls.
  revert h. induction calls as [|c calls IH]; intros h; [done|].
  cbn [foldl]. rewrite IH. by destruct c.
Qed.

Lemma process_message_wake p m st :
  wake_state (ps_hub (process_message p m st)) = wake_state (ps_hub st).
Proof.
  unfold Hub.process_message.
  assert (wake_state (update_list p (drop 1) (ps_hub st)) = wake_state (ps_hub st)) as Hu
    by (unfold update_priority_msg_list; by destruct (index_of p)).
  case_decide; cbn [ps_hub].
  - exact Hu.
  - by rewrite run_on_thread_switch_wake.
Qed.

Lemma process_priority_wake n p st :
  wake_state (ps_hub (process_priority n p st)) = wake_state (ps_hub st).
Proof.
  revert st. induction n as [|n IH]; intros st; [done|].
  cbn [Hub.process_priority].
  destruct (get_priority_msg_list MIN MAX p (ps_hub st)) as [|m l]; [done|].
  by rewrite IH, process_message_wake.
Qed.

Lemma process_priorities_wake n eg p0 st :
  wake_state (ps_hub (process_priorities n eg p0 st)) = wake_state (ps_hub st).
Proof.
  revert p0 st. induction n as [|n IH]; intros p0 st; [done|].
  cbn [Hub.process_priorities]. by rewrite IH, process_priority_wake.
Qed.

Lemma process_pass_wake (initial_pass : bool) st :
  wake_state (ps_hub (process_pass initial_pass st)) = wake_state (ps_hub st).
Proof. unfold Hub.process_pass. by rewrite process_priorities_wake. Qed.

Lemma wake_ok_wake_state h h' : wake_state h' = wake_state h -> wake_ok h -> wake_ok h'.
Proof. unfold wake_ok. by intros [= -> ->]. Qed.

Lemma Forall_wake_ok_alter f u pool :
  (forall h, wake_ok h -> wake_ok (f h)) ->
  Forall wake_ok pool -> Forall wake_ok (alter f u pool).
Proof.
  intros Hf Hall. apply Forall_lookup. intros i h.
  rewrite list_lookup_alter. rewrite Forall_lookup in Hall.
  destruct (decide (u = i)) as [->|Hui]; [|by apply Hall].
  destruct (pool !! i) as [h0|] eqn:Hh0; [|done].
  intros [= <-]. apply Hf. by eapply Hall.
Qed.

Lemma wake_ok_push_messages_to me t pool :
  Forall wake_ok pool -> Forall wake_ok (push_messages_to me t pool).
Proof.
  intros Hall. unfold push_messages_to.
  destruct (pool !! me) as [this|]; [|done].
  destruct (default [] (queues_ this !! t)); [done|].
  apply Forall_wake_ok_alter; [done|].
  apply Forall_wake_ok_alter; [|done]. apply wake_ok_receive.
Qed.

Lemma wake_ok_run_action a pool log :
  no_reset a -> Forall wake_ok pool -> Forall wake_ok (run_action a (pool, log)).1.
Proof.
  intros Ha Hall. destruct a as [me nt m|me nt m|t m|me|me|me reset|me ip left0];
    cbn [Hub.run_action fst].
  - by apply Forall_wake_ok_alter.
  - by apply Forall_wake_ok_alter.
  - apply Forall_wake_ok_alter; [|done]. apply wake_ok_insert_external_message.
  - unfold push_messages. generalize (seq 0 (length pool)). intros targets.
    revert pool Hall. induction targets as [|t targets IH]; intros pool Hall; [done|].
    cbn [foldl]. apply IH. by apply wake_ok_push_messages_to.
  - apply Forall_wake_ok_alter; [|done]. apply wake_ok_deliver_local_messages.
  - destruct reset; [done|].
    apply Forall_wake_ok_alter; [|done]. apply wake_ok_sort_incoming.
  - destruct (pool !! me) as [h|] eqn:Hh; [|done]. cbn [fst].
    apply Forall_insert; [done|].
    eapply wake_ok_wake_state; [apply process_pass_wake|].
    rewrite Forall_lookup in Hall. by eapply Hall.
Qed.

(** X16. As long as [is_woken_up_] is not reset, no store, external insert,
    push, local delivery, later pull or processing step on any thread lets
    a hub have more than one wake-up pending on its event, or one while it
    is not flagged as woken up: the flag makes the writers write the event
    only once. *)
Theorem wake_ups_are_written_once acts pool log :
  Forall wake_ok pool -> Forall no_reset acts ->
  Forall wake_ok (run_actions acts (pool, log)).1.
Proof.
  intros Hall Hacts. revert pool log Hall.
  induction Hacts as [|a acts Ha Hacts IH]; intros pool log Hall; [done|].
  unfold Hub.run_actions. cbn [foldl].
  destruct (Hub.run_action MIN MAX ORD NUM GRAN on_thread_switch a (pool, log))
    as [pool1 log1] eqn:Hstep.
  apply IH. change pool1 with (pool1, log1).1. rewrite <- Hstep.
  by apply wake_ok_run_action.
Qed.

End Transfer.
End TransferFacts.

(** ** The message hub: [on_event] while the other threads are silent *)
Module QuietFacts.
Import Hub HubFacts OrderFacts PassFacts TransferFacts.

Section Quiet.

Set Default Proof Using "Type".

Variables MESSAGE_SCHEDULER_MIN_PRIORITY MESSAGE_SCHEDULER_MAX_PRIORITY : Z.
Variable MESSAGE_SCHEDULER_ORDERED_PRIORITY : Z.
Variable NUM_SCHEDULER_PRIORITIES : Z.
Variable MESSAGE_SCHEDULER_GRANULARITY : Z.
Variable on_thread_switch : linux_thread_message_t -> list store_call.

Local Abbreviation MIN := MESSAGE_SCHEDULER_MIN_PRIORITY.
Local Abbreviation MAX := MESSAGE_SCHEDULER_MAX_PRIORITY.
Local Abbreviation ORD := MESSAGE_SCHEDULER_ORDERED_PRIORITY.
Local Abbreviation NUM := NUM_SCHEDULER_PRIORITIES.
Local Abbreviation GRAN := MESSAGE_SCHEDULER_GRANULARITY.
Local Abbreviation args_ok := (scheduler_args_ok MIN MAX ORD NUM GRAN).
Local Abbreviation index_of := (priority_index MIN MAX).
Local Abbreviation list_of := (get_priority_msg_list MIN MAX).
Local Abbreviation update_list := (update_priority_msg_list MIN MAX).
Local Abbreviation process_message := (Hub.process_message MIN MAX on_thread_switch).
Local Abbreviation process_priority := (Hub.process_priority MIN MAX on_thread_switch).
Local Abbreviation process_priorities := (Hub.process_priorities MIN MAX on_thread_switch).
Local Abbreviation process_pass := (Hub.process_pass MIN MAX NUM GRAN on_thread_switch).
Local Abbreviation quota_of := (quota MAX).
Local Abbreviation eff_gran := (effective_granularity NUM GRAN).
Local Abbreviation sort_incoming := (sort_incoming_messages_by_priority MIN MAX ORD).
Local Abbreviation eff_priority := (effective_priority ORD).
Local Abbreviation sorted_onto := (Hub.sorted_onto MIN MAX ORD).
Local Abbreviation on_event_pass := (Hub.on_event_pass MIN MAX ORD NUM GRAN on_thread_switch).
Local Abbreviation on_event_loop := (Hub.on_event_loop MIN MAX ORD NUM GRAN on_thread_switch).
Local Abbreviation on_event := (Hub.on_event MIN MAX ORD NUM GRAN on_thread_switch).
Local Abbreviation hub_ok := (Hub.hub_ok NUM).
Local Abbreviation plist := priority_msg_list_at.
Local Abbreviation pull_pass := (Hub.pull_pass MIN MAX ORD).
Local Abbreviation at_initial_count := (Hub.at_initial_count MIN MAX ORD).
Local Abbreviation on_event_inv := (Hub.on_event_inv MIN MAX NUM).
Local Abbreviation batch_done := (initial_batch_has_been_processed NUM).
Local Abbreviation wake_state := (fun h => (is_woken_up_ h, event_ h)).

Implicit Types (h : linux_message_hub_t) (st : pass_state) (m : linux_thread_message_t).
Implicit Types (p : Z) (i : nat) (l : msg_list_t).

(** *** Pulling while nothing arrives *)

Lemma deliver_local_messages_wake h :
  wake_state (deliver_local_messages h) =
  match default [] (queues_ h !! current_thread_ h) with
  | [] => wake_state h
  | _ :: _ => (true, if is_woken_up_ h then event_ h else S (event_ h))
  end.
Proof.
  unfold deliver_local_messages.
  destruct (default [] (queues_ h !! current_thread_ h)); [done|].
  unfold check_and_set_is_woken_up. simpl. by destruct (is_woken_up_ h).
Qed.

Lemma deliver_local_messages_nothing h :
  default [] (queues_ h !! current_thread_ h) = [] -> deliver_local_messages h = h.
Proof. unfold deliver_local_messages. by intros ->. Qed.

Lemma receive_nothing h : receive [] h = h.
Proof. done. Qed.

Lemma sort_incoming_nothing h :
  incoming_messages_ h = [] -> sort_incoming false h = h.
Proof. destruct h. simpl. by intros ->. Qed.

(** The first pull of a quiet [on_event]. *)
Lemma quiet_first_pull h :
  let h1 := pull_pass true (silent_arrivals 0%nat) (set_event_ 0 h) in
  incoming_messages_ h1 = [] /\ wake_state h1 = (false, 0%nat).
Proof.
  intros h1. subst h1. unfold Hub.pull_pass. cbn [silent_arrivals fst snd].
  split; [apply sort_incoming_spec|].
  unfold sort_incoming_messages_by_priority.
  by destruct (sort_new_messages_wake MIN MAX ORD
                 (incoming_messages_ (receive [] (receive [] (set_event_ 0 h))))
                 (set_is_woken_up_ false
                    (set_incoming_messages_ [] (receive [] (receive [] (set_event_ 0 h))))))
    as [-> ->].
Qed.

(** A later pull of a quiet [on_event]. *)
Lemma quiet_next_pull k h :
  incoming_messages_ h = [] ->
  let h2 := pull_pass false (silent_arrivals k) h in
  incoming_messages_ h2 = []
  /\ match default [] (queues_ h !! current_thread_ h) with
     | [] => h2 = h
     | _ :: _ =>
         wake_state h2 = (true, if is_woken_up_ h then event_ h else S (event_ h))
     end.
Proof.
  intros Hinc h2. subst h2. unfold Hub.pull_pass. cbn [silent_arrivals fst snd].
  split; [apply sort_incoming_spec|].
  rewrite (receive_nothing h).
  destruct (default [] (queues_ h !! current_thread_ h)) as [|m0 q] eqn:Hq.
  - rewrite (deliver_local_messages_nothing h Hq).
    rewrite (receive_nothing h). by apply sort_incoming_nothing.
  - unfold sort_incoming_messages_by_priority.
    destruct (sort_new_messages_wake MIN MAX ORD
                (incoming_messages_ (receive [] (deliver_local_messages h)))
                (set_incoming_messages_ [] (receive [] (deliver_local_messages h))))
      as [-> ->].
    simpl. pose proof (deliver_local_messages_wake h) as Hw. rewrite Hq in Hw.
    by inversion Hw.
Qed.

(** *** The invariant of a quiet [on_event] *)

(** After every pass: the incoming list is empty, the event holds one
    wake-up exactly when the hub is flagged, and as long as the hub is not
    flagged the priority lists hold nothing but what is left of the
    messages counted by the initial pass. *)
Local Abbreviation quiet_inv :=
  (fun (init : nat -> msg_list_t) st =>
     incoming_messages_ (ps_hub st) = []
     /\ event_ (ps_hub st) = (if is_woken_up_ (ps_hub st) then 1 else 0)%nat
     /\ on_event_inv init st
     /\ (is_woken_up_ (ps_hub st) = false ->
         forall p i, index_of p = Some i ->
                     processed_at p (ps_trace st) ++ plist (ps_hub st) i = init i)).

Lemma quiet_first_pass h :
  args_ok -> hub_ok h ->
  quiet_inv (plist (at_initial_count silent_arrivals h))
            (on_event_pass true (silent_arrivals 0%nat) (PassState (set_event_ 0 h) [] [])).
Proof.
  intros Hargs Hh.
  pose proof (first_pass_inv MIN MAX ORD NUM GRAN on_thread_switch silent_arrivals h
                Hargs Hh) as Hinv.
  unfold Hub.on_event_pass in *. cbn [ps_hub ps_left ps_trace] in *.
  destruct (quiet_first_pull h) as [Hinc Hwake].
  set (h1 := pull_pass true (silent_arrivals 0%nat) (set_event_ 0 h)) in *.
  destruct (process_pass_spec MIN MAX NUM GRAN on_thread_switch true (PassState h1 [] []))
    as (_ & HI & _ & tr & HT & _ & HP).
  pose proof (process_pass_wake MIN MAX NUM GRAN on_thread_switch true (PassState h1 [] []))
    as HW.
  cbn [ps_hub ps_left ps_trace] in *.
  rewrite Hwake in HW. injection HW as HWf HWe.
  split; [by rewrite HI|]. split; [by rewrite HWf, HWe|]. split; [exact Hinv|].
  intros _ p i Hp. destruct (HP p i Hp) as (H1 & _ & H3).
  rewrite HT, H1. simpl. rewrite H3. apply take_drop.
Qed.

Lemma quiet_next_pass init k st :
  args_ok -> quiet_inv init st ->
  quiet_inv init (on_event_pass false (silent_arrivals k) st).
Proof.
  intros Hargs (Hinc & Hev & Hinv & Hrest).
  destruct (next_pass_inv MIN MAX ORD NUM GRAN on_thread_switch init (silent_arrivals k) st
              Hargs Hinv) as [Hinv' _].
  unfold Hub.on_event_pass in *.
  destruct (quiet_next_pull k (ps_hub st) Hinc) as [Hinc2 Hpull].
  set (h2 := pull_pass false (silent_arrivals k) (ps_hub st)) in *.
  destruct (process_pass_spec MIN MAX NUM GRAN on_thread_switch false
              (PassState h2 (ps_left st) (ps_trace st)))
    as (_ & HI & _ & tr & HT & _ & HP).
  pose proof (process_pass_wake MIN MAX NUM GRAN on_thread_switch false
                (PassState h2 (ps_left st) (ps_trace st))) as HW.
  cbn [ps_hub ps_left ps_trace] in *.
  injection HW as HWf HWe. rewrite HWf, HWe.
  split; [by rewrite HI|].
  destruct (default [] (queues_ (ps_hub st) !! current_thread_ (ps_hub st)))
    as [|m0 q] eqn:Hq.
  - rewrite Hpull in *. split; [done|]. split; [exact Hinv'|].
    intros Hflag p i Hp. destruct (HP p i Hp) as (H1 & _ & H3).
    rewrite HT, processed_at_app, H1, H3, <- app_assoc, take_drop.
    by apply Hrest.
  - injection Hpull as Hf He. rewrite Hf, He. split; [|split; [exact Hinv'|done]].
    rewrite Hev. by destruct (is_woken_up_ (ps_hub st)).
Qed.

Lemma quiet_loop init fuel :
  args_ok ->
  forall k st st',
    quiet_inv init st ->
    on_event_loop fuel silent_arrivals k false st = Some st' ->
    quiet_inv init st'.
Proof.
  intros Hargs. induction fuel as [|fuel IH]; intros k st st' Hinv Hrun; [discriminate|].
  cbn [Hub.on_event_loop] in Hrun.
  pose proof (quiet_next_pass init k st Hargs Hinv) as Hinv'.
  destruct (initial_batch_has_been_processed _ _).
  - injection Hrun as <-. exact Hinv'.
  - eapply IH; [exact Hinv'|exact Hrun].
Qed.

Lemma quiet_on_event fuel h st :
  args_ok -> hub_ok h -> on_event fuel silent_arrivals h = Some st ->
  quiet_inv (plist (at_initial_count silent_arrivals h)) st.
Proof.
  intros Hargs Hh Hrun. unfold Hub.on_event in Hrun.
  destruct fuel as [|fuel]; [discriminate|]. cbn [Hub.on_event_loop] in Hrun.
  pose proof (quiet_first_pass h Hargs Hh) as Hinv.
  destruct (initial_batch_has_been_processed _ _).
  - injection Hrun as <-. exact Hinv.
  - eapply quiet_loop; [exact Hargs|exact Hinv|exact Hrun].
Qed.

Lemma quiet_lists_empty init st :
  args_ok -> quiet_inv init st -> batch_done (ps_left st) = true ->
  is_woken_up_ (ps_hub st) = false ->
  (forall p i, index_of p = Some i -> processed_at p (ps_trace st) = init i)
  /\ forall i, plist (ps_hub st) i = [].
Proof.
  intros Hargs (_ & _ & Hinv & Hrest) Hdone Hflag.
  assert (forall p i, index_of p = Some i ->
            processed_at p (ps_trace st) = init i /\ plist (ps_hub st) i = [])
    as Hboth.
  { intros p i Hp.
    pose proof (inv_done_prefix MIN MAX NUM init st p i Hinv Hdone Hp) as [rest Hpre].
    specialize (Hrest Hflag p i Hp). rewrite Hpre, <- app_assoc in Hrest.
    rewrite <- (app_nil_r (init i)) in Hrest at 2.
    apply app_inv_head in Hrest. apply app_eq_nil in Hrest as [-> ->].
    by rewrite app_nil_r in Hpre. }
  split; [intros p i Hp; by apply Hboth|].
  intros i. destruct (decide (i < Z.to_nat NUM)%nat) as [Hi|Hi].
  - apply (Hboth (MIN + Z.of_nat i)).
    exact (priority_index_of_nat MIN MAX ORD NUM GRAN i Hargs Hi).
  - destruct Hinv as (Hh & _). unfold Hub.hub_ok in Hh.
    unfold priority_msg_list_at. by rewrite lookup_ge_None_2 by lia.
Qed.

(** X17. When [on_event] returns (nothing having arrived from other threads
    meanwhile), its incoming list is empty and its event holds one wake-up
    if [is_woken_up_] is set and none otherwise; and if a message is left
    on a priority list, then [is_woken_up_] is set.  So a hub that comes
    back from [on_event] with work left has a wake-up pending and will be
    run again. *)
Theorem no_wake_up_is_lost h :
  args_ok -> hub_ok h ->
  exists fuel st,
    on_event fuel silent_arrivals h = Some st
    /\ incoming_messages_ (ps_hub st) = []
    /\ event_ (ps_hub st) = (if is_woken_up_ (ps_hub st) then 1 else 0)%nat
    /\ (forall i m, m ∈ plist (ps_hub st) i -> is_woken_up_ (ps_hub st) = true).
Proof.
  intros Hargs Hh.
  destruct (on_event_terminates MIN MAX ORD NUM GRAN on_thread_switch silent_arrivals h
              Hargs Hh) as (fuel & st & Hrun & _ & Hdone).
  pose proof (quiet_on_event fuel h st Hargs Hh Hrun) as Hq.
  exists fuel, st. split; [exact Hrun|].
  split; [apply Hq|]. split; [apply Hq|].
  intros i m Hm. destruct (is_woken_up_ (ps_hub st)) eqn:Hflag; [done|].
  destruct (quiet_lists_empty _ st Hargs Hq Hdone Hflag) as [_ Hempty].
  rewrite Hempty in Hm. by apply elem_of_nil in Hm.
Qed.

(** *** Draining the hub *)

Section Drain.

Variable cur : nat.

(** No callback stores a message for the thread the hub runs on. *)
Hypothesis no_local_stores :
  forall m c, c ∈ on_thread_switch m -> store_call_thread c <> cur.

(** The hub runs on [cur], its local list for [cur] is empty, no message
    on its priority lists is to go round the loop again, and every
    processed message had its callback run. *)
Local Abbreviation drain_inv :=
  (fun st =>
     current_thread_ (ps_hub st) = cur
     /\ default [] (queues_ (ps_hub st) !! cur) = []
     /\ (forall i m, m ∈ plist (ps_hub st) i -> reloop_count_ m <= 0)
     /\ delivered (ps_trace st) = event_msg <$> ps_trace st).

Lemma run_store_call_local_list c h :
  store_call_thread c <> cur ->
  queues_ (run_store_call c h) !! cur = queues_ h !! cur.
Proof.
  intros Hc. destruct c as [nt m|nt m]; simpl in *;
    by rewrite list_lookup_alter_ne.
Qed.

Lemma run_on_thread_switch_local_list m h :
  queues_ (run_on_thread_switch on_thread_switch m h) !! cur = queues_ h !! cur.
Proof using no_local_stores.
  unfold run_on_thread_switch.
  pose proof (no_local_stores m) as Hcalls. revert Hcalls.
  generalize (on_thread_switch m). intros calls Hcalls.
  revert h. induction calls as [|c calls IH]; intros h; [done|].
  cbn [foldl]. rewrite IH by (intros c' Hc'; apply Hcalls; by right).
  apply run_store_call_local_list, Hcalls. by left.
Qed.

Lemma delivered_app tr1 tr2 : delivered (tr1 ++ tr2) = delivered tr1 ++ delivered tr2.
Proof.
  induction tr1 as [|e tr1 IH]; [done|]. destruct e; simpl; by rewrite IH.
Qed.

Lemma process_message_drain p i m l st :
  index_of p = Some i -> plist (ps_hub st) i = m :: l ->
  drain_inv st -> drain_inv (process_message p m st).
Proof using no_local_stores.
  intros Hp Hlist (Hcur & Hq & Hre & Hdel).
  assert (reloop_count_ m <= 0) as Hm by (apply (Hre i); rewrite Hlist; by left).
  destruct (process_message_hub MIN MAX on_thread_switch p i m st Hp)
    as (Hlists & _ & Hcur' & _).
  destruct (process_message_trace MIN MAX on_thread_switch p m st)
    as (e & Htr & _ & _ & He & _).
  split; [by rewrite Hcur'|]. split; [|split].
  - unfold Hub.process_message. rewrite decide_False by lia. cbn [ps_hub].
    rewrite run_on_thread_switch_local_list.
    unfold update_priority_msg_list. rewrite Hp. exact Hq.
  - intros j m' Hm'. unfold priority_msg_list_at in Hm'.
    rewrite Hlists, plist_alter_drop in Hm'.
    destruct (decide (i = j)); [apply elem_of_drop_inv in Hm'|]; by eapply Hre.
  - rewrite Htr, delivered_app, fmap_app, Hdel, (He Hm). done.
Qed.

Lemma process_priority_drain n p st :
  drain_inv st -> drain_inv (process_priority n p st).
Proof using no_local_stores.
  revert st. induction n as [|n IH]; intros st Hinv; [done|].
  cbn [Hub.process_priority].
  destruct (index_of p) as [i|] eqn:Hp.
  - rewrite (get_priority_msg_list_at MIN MAX p i _ Hp).
    destruct (plist (ps_hub st) i) as [|m l] eqn:Hlist; [done|].
    apply IH. by eapply process_message_drain.
  - unfold get_priority_msg_list. by rewrite Hp.
Qed.

Lemma process_priorities_drain n eg p0 st :
  drain_inv st -> drain_inv (process_priorities n eg p0 st).
Proof using no_local_stores.
  revert p0 st. induction n as [|n IH]; intros p0 st Hinv; [done|].
  cbn [Hub.process_priorities]. apply IH. by apply process_priority_drain.
Qed.

Lemma drain_first_pass h :
  current_thread_ h = cur -> default [] (queues_ h !! cur) = [] ->
  (forall i m, m ∈ plist h i -> reloop_count_ m <= 0) ->
  (forall m, m ∈ incoming_messages_ h -> reloop_count_ m <= 0) ->
  drain_inv (on_event_pass true (silent_arrivals 0%nat) (PassState (set_event_ 0 h) [] [])).
Proof using no_local_stores.
  intros Hcur Hq Hre Hinc. unfold Hub.on_event_pass, Hub.process_pass.
  apply process_priorities_drain. cbn [ps_hub ps_trace].
  fold (at_initial_count silent_arrivals h).
  unfold Hub.at_initial_count, Hub.pull_pass. cbn [silent_arrivals fst snd].
  destruct (sort_incoming_spec MIN MAX ORD true
              (receive [] (receive [] (set_event_ 0 h))))
    as (Hlen & _ & Hqs & Hc & Hlists).
  split; [by rewrite Hc|]. split; [by rewrite Hqs|]. split; [|done].
  intros i m Hm.
  destruct (decide (i < length (priority_msg_lists_ h))%nat) as [Hi|Hi].
  - rewrite Hlists in Hm by done. apply elem_of_app in Hm as [Hm|Hm]; [by eapply Hre|].
    apply sorted_onto_elem_inv in Hm as (m0 & Hm0 & -> & _).
    rewrite sorted_msg_reloop. apply Hinc. simpl in Hm0.
    by rewrite ?app_nil_r in Hm0.
  - unfold priority_msg_list_at in Hm.
    rewrite lookup_ge_None_2 in Hm by (rewrite Hlen; simpl; lia).
    by apply elem_of_nil in Hm.
Qed.

Lemma drain_next_pass k st :
  incoming_messages_ (ps_hub st) = [] -> drain_inv st ->
  drain_inv (on_event_pass false (silent_arrivals k) st)
  /\ is_woken_up_ (ps_hub (on_event_pass false (silent_arrivals k) st))
     = is_woken_up_ (ps_hub st).
Proof using no_local_stores.
  intros Hinc (Hcur & Hq & Hre & Hdel). unfold Hub.on_event_pass, Hub.process_pass.
  destruct (quiet_next_pull k (ps_hub st) Hinc) as [_ Hpull].
  rewrite Hcur, Hq in Hpull. rewrite Hpull. split.
  - by apply process_priorities_drain.
  - pose proof (process_priorities_wake MIN MAX on_thread_switch
                  (Z.to_nat (MAX - MIN + 1)) (eff_gran (ps_hub st)) MAX
                  (PassState (ps_hub st) (ps_left st) (ps_trace st))) as Hw.
    by injection Hw as Hflag _.
Qed.

Lemma drain_loop init fuel :
  args_ok ->
  forall k st st',
    quiet_inv init st -> drain_inv st -> is_woken_up_ (ps_hub st) = false ->
    on_event_loop fuel silent_arrivals k false st = Some st' ->
    drain_inv st' /\ is_woken_up_ (ps_hub st') = false.
Proof using no_local_stores.
  intros Hargs. induction fuel as [|fuel IH]; intros k st st' Hq Hd Hflag Hrun;
    [discriminate|].
  cbn [Hub.on_event_loop] in Hrun.
  pose proof (quiet_next_pass init k st Hargs Hq) as Hq'.
  destruct (drain_next_pass k st (proj1 Hq) Hd) as [Hd' Hflag'].
  rewrite Hflag in Hflag'.
  destruct (initial_batch_has_been_processed _ _).
  - injection Hrun as <-. split; [exact Hd'|exact Hflag'].
  - eapply IH; [exact Hq'|exact Hd'|exact Hflag'|exact Hrun].
Qed.

Lemma drain_on_event fuel h st :
  args_ok -> hub_ok h ->
  current_thread_ h = cur -> default [] (queues_ h !! cur) = [] ->
  (forall i m, m ∈ plist h i -> reloop_count_ m <= 0) ->
  (forall m, m ∈ incoming_messages_ h -> reloop_count_ m <= 0) ->
  on_event fuel silent_arrivals h = Some st ->
  drain_inv st /\ is_woken_up_ (ps_hub st) = false.
Proof using no_local_stores.
  intros Hargs Hh Hcur Hq Hre Hinc Hrun. unfold Hub.on_event in Hrun.
  destruct fuel as [|fuel]; [discriminate|]. cbn [Hub.on_event_loop] in Hrun.
  pose proof (quiet_first_pass h Hargs Hh) as Hquiet.
  pose proof (drain_first_pass h Hcur Hq Hre Hinc) as Hdrain.
  assert (is_woken_up_ (ps_hub (on_event_pass true (silent_arrivals 0%nat)
                                  (PassState (set_event_ 0 h) [] []))) = false) as Hflag.
  { unfold Hub.on_event_pass.
    pose proof (process_pass_wake MIN MAX NUM GRAN on_thread_switch true
                  (PassState (pull_pass true (silent_arrivals 0%nat) (set_event_ 0 h))
                             [] [])) as Hw.
    cbn [ps_hub ps_left ps_trace] in *.
    destruct (quiet_first_pull h) as [_ Hw1]. rewrite Hw1 in Hw.
    by injection Hw as Hf _. }
  destruct (initial_batch_has_been_processed _ _).
  - injection Hrun as <-. split; [exact Hdrain|exact Hflag].
  - eapply drain_loop; [exact Hargs|exact Hquiet|exact Hdrain|exact Hflag|exact Hrun].
Qed.

End Drain.

(** X18. Woken up with an empty local list for its own thread and with
    callbacks that store nothing for that thread (and nothing arriving from
    other threads meanwhile), [on_event] drains the hub: it runs the
    callback of every message that was on the priority lists or on the
    incoming list, per priority in the order of the lists, and returns with
    the incoming list and all priority lists empty, [is_woken_up_] reset and
    no wake-up pending.  The [guarantee]s of the destructor then hold as
    soon as the local lists are empty. *)
Theorem on_event_drains_the_hub h :
  args_ok -> hub_ok h ->
  default [] (queues_ h !! current_thread_ h) = [] ->
  (forall m c, c ∈ on_thread_switch m -> store_call_thread c <> current_thread_ h) ->
  (forall i m, m ∈ plist h i -> reloop_count_ m <= 0) ->
  (forall m, m ∈ incoming_messages_ h -> reloop_count_ m <= 0) ->
  exists fuel st,
    on_event fuel silent_arrivals h = Some st
    /\ incoming_messages_ (ps_hub st) = []
    /\ (forall i, plist (ps_hub st) i = [])
    /\ is_woken_up_ (ps_hub st) = false
    /\ event_ (ps_hub st) = 0%nat
    /\ (forall p i, index_of p = Some i ->
          processed_at p (ps_trace st)
          = plist h i ++ sorted_onto i (incoming_messages_ h))
    /\ delivered (ps_trace st) = event_msg <$> ps_trace st
    /\ forall n,
         (forall j, (j < n)%nat -> default [] (queues_ (ps_hub st) !! j) = []) ->
         destructor_guarantees MIN MAX n (ps_hub st) = true.
Proof.
  intros Hargs Hh Hq Hcb Hre Hinc.
  destruct (on_event_terminates MIN MAX ORD NUM GRAN on_thread_switch silent_arrivals h
              Hargs Hh) as (fuel & st & Hrun & _ & Hdone).
  pose proof (quiet_on_event fuel h st Hargs Hh Hrun) as Hquiet.
  destruct (drain_on_event (current_thread_ h) Hcb fuel h st Hargs Hh eq_refl Hq Hre Hinc
              Hrun) as [(_ & _ & _ & Hdel) Hflag].
  destruct (quiet_lists_empty _ st Hargs Hquiet Hdone Hflag) as [Hproc Hempty].
  destruct Hquiet as (Hinc' & Hev & _ & _). rewrite Hflag in Hev.
  exists fuel, st. split; [exact Hrun|]. split; [exact Hinc'|]. split; [exact Hempty|].
  split; [exact Hflag|]. split; [exact Hev|]. split; [|split; [exact Hdel|]].
  - intros p i Hp. rewrite (Hproc p i Hp).
    rewrite at_initial_count_lists.
    + simpl. by rewrite !app_nil_r.
    + unfold Hub.hub_ok in Hh. rewrite Hh.
      exact (priority_index_lt MIN MAX ORD NUM GRAN p i Hargs Hp).
  - intros n Hqueues. unfold destructor_guarantees.
    rewrite Hinc'. simpl. rewrite andb_true_r. apply andb_true_iff. split.
    + apply forallb_forall. intros j Hj. apply list_elem_of_In, elem_of_seq in Hj.
      rewrite Hqueues by lia. done.
    + apply forallb_forall. intros k _. unfold get_priority_msg_list.
      destruct (index_of _) as [i|]; [|done].
      by rewrite (Hempty i : default [] _ = []).
Qed.

End Quiet.
End QuietFacts.

(** ** The registry of active snapshots: the interval test *)
Module RegistryFacts.
Import Cache CacheFacts.

Local Open Scope N_scope.

Section Registry.

Implicit Types (m : snapshots_map_t) (c : mc_cache_t) (k : version_id_t).

Lemma bounds_equal_reversed from_version to_version m :
  map_ok m -> to_version < from_version ->
  lower_bound from_version m = upper_bound to_version m
  <-> forall k t, (k, t) ∈ m -> ~ (to_version < k < from_version).
Proof.
  intros Hok Hlt. induction m as [|[k0 t0] m IH]; simpl.
  - split; [|done]. intros _ k t Hin. by apply elem_of_nil in Hin.
  - apply map_ok_cons_inv in Hok as [Hok Hkeys].
    destruct (from_version <=? k0) eqn:E1; destruct (to_version <? k0) eqn:E2;
      try apply N.leb_le in E1; try apply N.leb_gt in E1;
      try apply N.ltb_lt in E2; try apply N.ltb_ge in E2.
    + split; [|done]. intros _ k t Hin.
      apply elem_of_cons in Hin as [Heq|Hin]; [simplify_eq; lia|].
      specialize (Hkeys k t Hin). lia.
    + lia.
    + split; [done|]. intros Hno. exfalso. apply (Hno k0 t0); [by left|lia].
    + specialize (IH Hok). split.
      * intros [= Heq] k t Hin.
        apply elem_of_cons in Hin as [Hin|Hin]; [simplify_eq; lia|].
        by apply (proj1 IH Heq k t).
      * intros Hno. f_equal. apply IH.
        intros k t Hin. apply (Hno k t). by right.
Qed.

(** X19. With its arguments the other way round, [to_version] below
    [from_version], [no_active_snapshots(from_version, to_version)] does not
    hold vacuously: it holds exactly when no registered snapshot version
    lies strictly between [to_version] and [from_version]. *)
Theorem no_active_snapshots_between_reversed from_version to_version c :
  map_ok (active_snapshots c) -> to_version < from_version ->
  no_active_snapshots_between from_version to_version c = true
  <-> forall k t, (k, t) ∈ active_snapshots c ->
                  ~ (to_version < k < from_version).
Proof.
  intros Hok Hlt. unfold no_active_snapshots_between.
  rewrite Nat.eqb_eq. by apply bounds_equal_reversed.
Qed.

Lemma registered_keys_within_bounds d c k t :
  map_ok (active_snapshots c) -> (k, t) ∈ active_snapshots c ->
  get_min_snapshot_version d c <= k <= get_max_snapshot_version d c
  /\ (exists t', (get_min_snapshot_version d c, t') ∈ active_snapshots c)
  /\ (exists t', (get_max_snapshot_version d c, t') ∈ active_snapshots c).
Proof.
  intros Hok Hin. unfold get_min_snapshot_version, get_max_snapshot_version,
    no_active_snapshots.
  destruct (active_snapshots c) as [|[k0 t0] rest] eqn:E;
    [by apply elem_of_nil in Hin|].
  destruct (last ((k0, t0) :: rest)) as [[k1 t1]|] eqn:Hlast;
    [|by apply last_None in Hlast].
  cbn [head]. split; [split|split].
  - apply elem_of_cons in Hin as [Heq|Hin]; [simplify_eq; lia|].
    apply map_ok_cons_inv in Hok as [_ Hlt]. specialize (Hlt k t Hin). lia.
  - by apply (map_ok_last k0 t0 rest k1 t1 Hok Hlast k t).
  - exists t0. by left.
  - exists t1. apply last_Some in Hlast as [l' ->].
    apply elem_of_app. right. by left.
Qed.

(** X20. The three queries of the registry agree.  With no snapshot
    registered the interval test holds for every interval and both bounds
    are the default.  With a snapshot registered, the smallest registered
    version is at most the largest, the test holds for every interval that
    lies below the smallest or above the largest registered version, and
    fails for every interval that contains one of the two. *)
Theorem interval_test_agrees_with_bounds d from_version to_version c :
  map_ok (active_snapshots c) -> from_version <= to_version ->
  (no_active_snapshots c = true ->
   no_active_snapshots_between from_version to_version c = true
   /\ get_min_snapshot_version d c = d /\ get_max_snapshot_version d c = d)
  /\ (no_active_snapshots c = false ->
      get_min_snapshot_version d c <= get_max_snapshot_version d c
      /\ (to_version < get_min_snapshot_version d c
          \/ get_max_snapshot_version d c < from_version ->
          no_active_snapshots_between from_version to_version c = true)
      /\ (from_version <= get_min_snapshot_version d c <= to_version
          \/ from_version <= get_max_snapshot_version d c <= to_version ->
          no_active_snapshots_between from_version to_version c = false)).
Proof.
  intros Hok Hle. split.
  - unfold no_active_snapshots, no_active_snapshots_between,
      get_min_snapshot_version, get_max_snapshot_version, no_active_snapshots.
    by destruct (active_snapshots c).
  - intros Hne.
    assert (exists k t, (k, t) ∈ active_snapshots c) as (k0 & t0 & Hin0).
    { unfold no_active_snapshots in Hne.
      destruct (active_snapshots c) as [|[k0 t0] rest]; [done|].
      exists k0, t0. by left. }
    destruct (registered_keys_within_bounds d c k0 t0 Hok Hin0)
      as (Hrange & [tmin Hmin] & [tmax Hmax]).
    split; [lia|]. split.
    + intros Hout. unfold no_active_snapshots_between. apply Nat.eqb_eq.
      apply bounds_equal_iff; [done|done|].
      intros k t Hin.
      destruct (registered_keys_within_bounds d c k t Hok Hin) as (Hk & _). lia.
    + intros Hinside. apply not_true_iff_false. intros Htrue.
      unfold no_active_snapshots_between in Htrue. apply Nat.eqb_eq in Htrue.
      pose proof (proj1 (bounds_equal_iff from_version to_version _ Hok Hle) Htrue)
        as Hno.
      destruct Hinside as [Hi|Hi]; [by apply (Hno _ _ Hmin)|by apply (Hno _ _ Hmax)].
Qed.

End Registry.
End RegistryFacts.

(** ** The theorems at concrete inputs *)
Module Examples.
Import Hub Cache.

Lemma example_args_ok : scheduler_args_ok (-2) 2 0 5 32.
Proof. unfold scheduler_args_ok. lia. Qed.

Lemma on_event_delivers_initial_batch_witness :
  exists fuel st,
    on_event (-2) 2 0 5 32 example_on_thread_switch fuel example_arrivals example_hub
    = Some st
    /\ Msg 3 (-2) false 0 ∈ delivered (ps_trace st)
    /\ Msg 6 2 false 0 ∈ delivered (ps_trace st)
    /\ forall c, c ∈ ps_left st -> c = 0.
Proof.
  destruct (HubFacts.on_event_delivers_initial_batch
              (-2) 2 0 5 32 example_on_thread_switch example_arrivals example_hub)
    as (fuel & st & Hrun & _ & _ & _ & Hin & Hleft).
  - unfold scheduler_args_ok. lia.
  - reflexivity.
  - exists fuel, st. split; [exact Hrun|]. split; [|split; [|exact Hleft]].
    + apply (Hin (Msg 3 (-2) false 0)).
      * unfold example_hub. simpl. repeat constructor.
      * by exists 0%nat.
      * simpl. lia.
    + apply (Hin (Msg 6 2 true 0)).
      * unfold example_hub. simpl. repeat constructor.
      * by exists 2%nat.
      * simpl. lia.
Defined.

Lemma pass_quota_witness :
  exists tr,
    ps_trace (on_event_pass (-2) 2 0 5 32 example_on_thread_switch true ([], [])
                            (PassState example_hub [] []))
    = [] ++ tr
    /\ Z.of_nat (length (processed_at 2 tr)) <= 7
    /\ to_process_from_priority 2 7 1
       = Z.max 1 (Z.shiftr (to_process_from_priority 2 7 2) (2 - 1)).
Proof.
  destruct (HubFacts.pass_quota (-2) 2 0 5 32 example_on_thread_switch true ([], [])
              (PassState example_hub [] []) 2 4%nat)
    as (tr & Htr & Hlen & Hrel).
  - unfold scheduler_args_ok. lia.
  - reflexivity.
  - exists tr. split; [exact Htr|]. split; [exact Hlen|].
    destruct (Hrel 1) as (Hq & _); [lia|]. exact Hq.
Defined.

(** C3, as stated, fails: with seven messages pending the effective
    granularity is 7, the quota at priority 2 is 7 and the quota at priority
    1 is 3, above the floor of 1, and 7 is not twice 3. *)
Lemma quota_is_not_always_an_exact_multiple :
  let h := pull_pass (-2) 2 0 true ([], []) example_hub in
  let eg := effective_granularity 5 32 h in
  eg = 7
  /\ to_process_from_priority 2 eg 2 = 7
  /\ to_process_from_priority 2 eg 1 = 3
  /\ to_process_from_priority 2 eg 2 <> 2 ^ (2 - 1) * to_process_from_priority 2 eg 1.
Proof. vm_compute. repeat split; discriminate. Qed.

Lemma pass_takes_from_every_nonempty_list_witness :
  exists tr rest,
    ps_trace (on_event_pass (-2) 2 0 5 32 example_on_thread_switch true ([], [])
                            (PassState example_hub [] []))
    = [] ++ tr
    /\ processed_at (-2) tr = Msg 1 (-2) false 0 :: rest.
Proof.
  destruct (HubFacts.pass_takes_from_every_nonempty_list
              (-2) 2 0 5 32 example_on_thread_switch true ([], [])
              (PassState example_hub [] []) (-2) 0%nat
              (Msg 1 (-2) false 0) [Msg 2 (-2) false 0; Msg 3 (-2) false 0])
    as (_ & Htake & _).
  - reflexivity.
  - reflexivity.
  - exact Htake.
Defined.

Lemma example_one_thread_ok : Forall (action_ok 2) example_actions_one_thread.
Proof. repeat constructor. Qed.

Lemma ordered_messages_of_one_thread_stay_in_order_witness :
  occurs_before 1 2
    (switched_on 1
       (snd (run_actions (-2) 2 0 5 32 (fun _ => []) example_actions_one_thread
                         (thread_pool_init 5 2, [])))).
Proof.
  destruct (OrderFacts.ordered_messages_of_one_thread_stay_in_order
              (-2) 2 0 5 32 (fun _ => []) 2 example_actions_one_thread 0 1 1 2)
    as [_ Horder].
  - unfold scheduler_args_ok. lia.
  - intros m c Hc. by apply elem_of_nil in Hc.
  - repeat constructor.
  - by apply (bool_decide_unpack _).
  - apply Horder.
    + exists [], [], []. reflexivity.
    + vm_compute. repeat constructor.
Defined.

(** C4, as stated, fails: thread 0 hands message 1 to
    [store_message_ordered] for thread 1 before thread 1 hands message 2 to
    it for thread 1, and message 2 has its [on_thread_switch] run first. *)
Lemma ordered_messages_of_two_threads_overtake :
  let log := snd (run_actions (-2) 2 0 5 32 (fun _ => []) example_actions_two_threads
                              (thread_pool_init 5 2, [])) in
  Forall (action_ok 2) example_actions_two_threads
  /\ NoDup (handed_over log)
  /\ occurs_before 1 2 (stored_ordered_to 1 log)
  /\ 2%nat ∈ switched_on 1 log
  /\ ~ occurs_before 1 2 (switched_on 1 log).
Proof.
  split; [repeat constructor|]. vm_compute.
  split; [|split; [|split]].
  - by apply (bool_decide_unpack _).
  - exists [], [], []. reflexivity.
  - repeat constructor.
  - intros (l1 & l2 & l3 & Heq).
    destruct l1 as [|x [|y l1]]; simpl in Heq.
    + discriminate.
    + injection Heq as _ Heq. destruct l2; discriminate.
    + injection Heq as _ _ Heq. destruct l1; discriminate.
Qed.

End Examples.

(** ** The cache theorems at concrete inputs *)
Module CacheExamples.
Import Cache.
Local Open Scope N_scope.

Lemma example_cache_map_ok : map_ok (active_snapshots example_cache).
Proof. vm_compute. repeat constructor. Qed.

Lemma snapshot_version_bounds_witness :
  get_min_snapshot_version 0 example_cache = 3
  /\ get_max_snapshot_version 0 example_cache = 7
  /\ forall k t, (k, t) ∈ active_snapshots example_cache ->
                 get_min_snapshot_version 0 example_cache <= k
                 <= get_max_snapshot_version 0 example_cache.
Proof.
  destruct (CacheFacts.snapshot_version_bounds 0 example_cache) as [_ Hne].
  - vm_compute. repeat constructor.
  - destruct Hne as (_ & _ & Hall); [discriminate|].
    split; [reflexivity|]. split; [reflexivity|]. exact Hall.
Defined.

Lemma no_active_snapshots_between_spec_witness :
  no_active_snapshots_between 4 4 example_cache = true
  <-> forall k t, (k, t) ∈ active_snapshots example_cache -> ~ (4 <= k <= 4).
Proof.
  apply (CacheFacts.no_active_snapshots_between_spec 4 4 example_cache).
  - vm_compute. repeat constructor.
  - lia.
Defined.

Lemma idle_clean_buffer_is_safe_to_unload_witness :
  safe_to_unload example_idle_buf = true.
Proof.
  apply (CacheFacts.idle_clean_buffer_is_safe_to_unload example_idle_buf);
    reflexivity.
Defined.



End CacheExamples.

(** ** More theorems at concrete inputs *)
Module MoreExamples.
Import Hub Cache.

Local Abbreviation quiet_callbacks := (fun _ : linux_thread_message_t => @nil store_call).

Lemma quota_grows_with_priority_witness :
  1 <= to_process_from_priority 2 7 1 <= to_process_from_priority 2 7 2
  /\ to_process_from_priority 2 7 2 <= Z.max 1 7.
Proof. apply (PassFacts.quota_grows_with_priority 2 7 1 2); lia. Defined.

Lemma pass_work_is_bounded_witness :
  exists tr,
    ps_trace (on_event_pass (-2) 2 0 5 32 example_on_thread_switch true ([], [])
                            (PassState example_hub [] []))
    = [] ++ tr
    /\ Z.of_nat (length tr) <= 5 + 2 * 32.
Proof.
  destruct (PassFacts.pass_work_is_bounded (-2) 2 0 5 32 example_on_thread_switch
              true ([], []) (PassState example_hub [] []))
    as (tr & Htr & _ & Hlen).
  - unfold scheduler_args_ok. lia.
  - exists tr. split; [exact Htr|exact Hlen].
Defined.

Lemma pass_takes_a_prefix_of_each_list_witness :
  exists tr,
    ps_trace (on_event_pass (-2) 2 0 5 32 example_on_thread_switch true ([], [])
                            (PassState example_hub [] []))
    = [] ++ tr
    /\ processed_at (-2) tr = [Msg 1 (-2) false 0].
Proof.
  destruct (PassFacts.pass_takes_a_prefix_of_each_list (-2) 2 0 5 32
              example_on_thread_switch true ([], []) (PassState example_hub [] [])
              (-2) 0%nat) as (tr & Htr & Htake & _).
  - reflexivity.
  - exists tr. split; [exact Htr|exact Htake].
Defined.

Lemma delivered_messages_are_not_flagged_ordered_witness :
  exists st,
    on_event (-2) 2 0 5 32 example_on_thread_switch 4 example_arrivals example_hub
    = Some st
    /\ forall m, m ∈ delivered (ps_trace st) -> is_ordered m = false.
Proof.
  assert (forall i m, m ∈ priority_msg_list_at example_hub i -> is_ordered m = false)
    as Hlists.
  { intros i m Hm. destruct i as [|[|[|[|[|i]]]]]; by apply elem_of_nil in Hm. }
  assert (exists st,
             on_event (-2) 2 0 5 32 example_on_thread_switch 4 example_arrivals
                      example_hub = Some st) as [st Hrun] by (vm_compute; eauto).
  exists st. split; [exact Hrun|].
  exact (proj1 (PassFacts.delivered_messages_are_not_flagged_ordered (-2) 2 0 5 32
                  example_on_thread_switch 4 example_arrivals example_hub st
                  Hlists Hrun)).
Defined.

Lemma on_event_with_nothing_to_do_witness :
  exists st,
    on_event (-2) 2 0 5 32 example_on_thread_switch 1 silent_arrivals (hub_init 5 2 0)
    = Some st
    /\ ps_trace st = []
    /\ ps_hub st = set_is_woken_up_ false (set_event_ 0 (hub_init 5 2 0)).
Proof.
  apply (PassFacts.on_event_with_nothing_to_do (-2) 2 0 5 32 example_on_thread_switch
           (hub_init 5 2 0)); [|reflexivity].
  intros i. by destruct i as [|[|[|[|[|i]]]]].
Defined.

Lemma priority_lists_are_independent_witness :
  get_priority_msg_list (-2) 2 1
    (update_priority_msg_list (-2) 2 1 (fun l => l ++ [Msg 9 1 false 0]) example_hub)
  = get_priority_msg_list (-2) 2 1 example_hub ++ [Msg 9 1 false 0]
  /\ get_priority_msg_list (-2) 2 2
       (update_priority_msg_list (-2) 2 1 (fun l => l ++ [Msg 9 1 false 0]) example_hub)
     = get_priority_msg_list (-2) 2 2 example_hub.
Proof.
  destruct (PassFacts.priority_lists_are_independent (-2) 2 0 5 32 1 2
              (fun l => l ++ [Msg 9 1 false 0]) example_hub)
    as (_ & _ & Hsame & Hother).
  - unfold scheduler_args_ok. lia.
  - reflexivity.
  - lia.
  - lia.
  - split; [exact Hsame|]. apply Hother. lia.
Defined.

Lemma on_event_iterations_are_bounded_witness :
  exists st,
    on_event (-2) 2 0 5 32 example_on_thread_switch (Nat.max 1 3) example_arrivals
             example_hub = Some st.
Proof.
  apply (PassFacts.on_event_iterations_are_bounded (-2) 2 0 5 32
           example_on_thread_switch example_arrivals example_hub 3).
  - unfold scheduler_args_ok. lia.
  - reflexivity.
  - intros i. destruct i as [|[|[|[|[|i]]]]]; vm_compute; lia.
Defined.

Lemma quiet_constructor_honors_every_priority_witness :
  to_process_from_priority 2 32 (-2) = Z.shiftr 32 (2 - -2)
  /\ 2 <= to_process_from_priority 2 32 (-2).
Proof.
  apply (PassFacts.quiet_constructor_honors_every_priority (-2) 2 0 5 32 (-2)).
  - unfold scheduler_args_ok. lia.
  - reflexivity.
  - lia.
Defined.

Lemma external_messages_wake_once_witness :
  let h' := foldl (fun h m => insert_external_message m h) (hub_init 5 2 0)
                  [Msg 1 0 false 0; Msg 2 1 false 0] in
  incoming_messages_ h' = [] ++ [Msg 1 0 false 0; Msg 2 1 false 0]
  /\ is_woken_up_ h' = true
  /\ event_ h' = 1%nat.
Proof.
  destruct (TransferFacts.external_messages_wake_once
              [Msg 1 0 false 0; Msg 2 1 false 0] (hub_init 5 2 0))
    as (Hinc & Hflag & Hev & _); [discriminate|].
  split; [exact Hinc|]. split; [exact Hflag|exact Hev].
Defined.

Lemma deliver_local_messages_moves_local_list_witness :
  let h := store_message_sometime 0 (Msg 1 0 false 0) (hub_init 5 2 0) in
  incoming_messages_ (deliver_local_messages h) = [] ++ [Msg 1 0 false 0]
  /\ deliver_local_messages (deliver_local_messages h) = deliver_local_messages h.
Proof.
  destruct (TransferFacts.deliver_local_messages_moves_local_list
              (store_message_sometime 0 (Msg 1 0 false 0) (hub_init 5 2 0)))
    as (Hinc & _ & _ & _ & _ & _ & Hidem).
  split; [exact Hinc|exact Hidem].
Defined.

Lemma example_pool_ok : pool_ok 5 2 (thread_pool_init 5 2).
Proof.
  split; [reflexivity|]. intros u h Hu.
  destruct u as [|[|u]]; simpl in Hu; [| |done]; injection Hu as <-; by repeat split.
Qed.

Lemma push_messages_moves_local_lists_witness :
  let pool := alter (store_message_ordered 1 (Msg 1 2 false 0)) 0%nat (thread_pool_init 5 2) in
  content (push_messages 0 pool) (slot_incoming 1)
  = content pool (slot_incoming 1) ++ content pool (slot_queue 0 1)
  /\ content (push_messages 0 pool) (slot_queue 0 1) = [].
Proof.
  destruct (TransferFacts.push_messages_moves_local_lists 5 2 0
              (alter (store_message_ordered 1 (Msg 1 2 false 0)) 0%nat (thread_pool_init 5 2)))
    as [Hcontent _].
  - split; [reflexivity|]. intros u h Hu.
    destruct u as [|[|u]]; simpl in Hu; [| |done]; injection Hu as <-; by repeat split.
  - lia.
  - split; [exact (Hcontent (slot_incoming 1))|exact (Hcontent (slot_queue 0 1))].
Defined.

Lemma push_messages_with_nothing_to_push_witness :
  push_messages 0 (thread_pool_init 5 2) = thread_pool_init 5 2.
Proof.
  apply (proj1 (TransferFacts.push_messages_with_nothing_to_push 5 2 0
                  (thread_pool_init 5 2))).
  intros j. by destruct j as [|[|j]].
Defined.

Lemma sort_incoming_conserves_messages_witness :
  total_pending_msgs 5 (sort_incoming_messages_by_priority (-2) 2 0 true example_hub)
  = total_pending_msgs 5 example_hub + 7
  /\ incoming_messages_ (sort_incoming_messages_by_priority (-2) 2 0 true example_hub)
     = [].
Proof.
  destruct (TransferFacts.sort_incoming_conserves_messages (-2) 2 0 5 32 true example_hub)
    as (Hinc & _ & Htotal & _).
  - unfold scheduler_args_ok. lia.
  - reflexivity.
  - apply Forall_forall. intros m Hm. apply list_elem_of_In in Hm. simpl in Hm.
    repeat (destruct Hm as [<-|Hm]; [unfold effective_priority; simpl; lia|]). done.
  - split; [exact Htotal|exact Hinc].
Defined.

Lemma stored_message_reaches_its_priority_list_witness :
  content (alter (sort_incoming_messages_by_priority (-2) 2 0 true) 1%nat
             (push_messages 0
                (alter (store_message_ordered 1 (Msg 9 2 false 0)) 0%nat
                       (thread_pool_init 5 2))))
          (slot_priority 1 2)
  = [] ++ [] ++ [Msg 9 2 false 0].
Proof.
  apply (TransferFacts.stored_message_reaches_its_priority_list (-2) 2 0 5 32 2
           true true 0 1 (Msg 9 2 false 0) (thread_pool_init 5 2) 2).
  - unfold scheduler_args_ok. lia.
  - split; [reflexivity|]. intros u h Hu.
    destruct u as [|[|u]]; simpl in Hu; [| |done]; injection Hu as <-; by repeat split.
  - lia.
  - lia.
  - reflexivity.
  - reflexivity.
Defined.

Lemma wake_ups_are_written_once_witness :
  Forall wake_ok
    (run_actions (-2) 2 0 5 32 example_on_thread_switch
       [act_store_message_ordered 0 1 (Msg 1 2 false 0);
        act_push_messages 0;
        act_insert_external_message 1 (Msg 2 0 false 0);
        act_sort_incoming_messages_by_priority 1 false;
        act_process_pass 1 false [0; 0; 0; 0; 0]]
       (thread_pool_init 5 2, [])).1.
Proof.
  apply (TransferFacts.wake_ups_are_written_once (-2) 2 0 5 32 example_on_thread_switch).
  - repeat constructor.
  - repeat constructor.
Defined.

Lemma no_wake_up_is_lost_witness :
  exists fuel st,
    on_event (-2) 2 0 5 32 example_on_thread_switch fuel silent_arrivals example_hub
    = Some st
    /\ incoming_messages_ (ps_hub st) = []
    /\ event_ (ps_hub st) = (if is_woken_up_ (ps_hub st) then 1 else 0)%nat.
Proof.
  destruct (QuietFacts.no_wake_up_is_lost (-2) 2 0 5 32 example_on_thread_switch
              example_hub) as (fuel & st & Hrun & Hinc & Hev & _).
  - unfold scheduler_args_ok. lia.
  - reflexivity.
  - exists fuel, st. split; [exact Hrun|]. split; [exact Hinc|exact Hev].
Defined.

Lemma on_event_drains_the_hub_witness :
  exists fuel st,
    on_event (-2) 2 0 5 32 quiet_callbacks fuel silent_arrivals example_hub = Some st
    /\ (forall i, priority_msg_list_at (ps_hub st) i = [])
    /\ is_woken_up_ (ps_hub st) = false
    /\ event_ (ps_hub st) = 0%nat.
Proof.
  destruct (QuietFacts.on_event_drains_the_hub (-2) 2 0 5 32 quiet_callbacks example_hub)
    as (fuel & st & Hrun & _ & Hempty & Hflag & Hev & _).
  - unfold scheduler_args_ok. lia.
  - reflexivity.
  - reflexivity.
  - intros m c Hc. by apply elem_of_nil in Hc.
  - intros i m Hm. destruct i as [|[|[|[|[|i]]]]]; by apply elem_of_nil in Hm.
  - intros m Hm. apply list_elem_of_In in Hm. simpl in Hm.
    repeat (destruct Hm as [<-|Hm]; [simpl; lia|]). done.
  - exists fuel, st. split; [exact Hrun|]. split; [exact Hempty|].
    split; [exact Hflag|exact Hev].
Defined.

Lemma no_active_snapshots_between_reversed_witness :
  no_active_snapshots_between 6 4 example_cache = false
  /\ no_active_snapshots_between 5 4 example_cache = true.
Proof.
  pose proof (RegistryFacts.no_active_snapshots_between_reversed 6 4 example_cache)
    as Hwide.
  pose proof (RegistryFacts.no_active_snapshots_between_reversed 5 4 example_cache)
    as Hnarrow.
  split.
  - destruct (no_active_snapshots_between 6 4 example_cache) eqn:E; [|reflexivity].
    exfalso. apply (proj1 (Hwide ltac:(vm_compute; repeat constructor)
                                 ltac:(reflexivity)) eq_refl 5%N 3%nat).
    + vm_compute. repeat constructor.
    + split; reflexivity.
  - apply Hnarrow.
    + vm_compute. repeat constructor.
    + reflexivity.
    + intros k t _ Hk. lia.
Defined.

Lemma interval_test_agrees_with_bounds_witness :
  (get_min_snapshot_version 0 example_cache
   <= get_max_snapshot_version 0 example_cache)%N
  /\ no_active_snapshots_between 8 9 example_cache = true
  /\ no_active_snapshots_between 2 3 example_cache = false.
Proof.
  destruct (RegistryFacts.interval_test_agrees_with_bounds 0 8 9 example_cache)
    as [_ Habove].
  { vm_compute. repeat constructor. }
  { discriminate. }
  destruct (RegistryFacts.interval_test_agrees_with_bounds 0 2 3 example_cache)
    as [_ Hinside].
  { vm_compute. repeat constructor. }
  { discriminate. }
  destruct (Habove eq_refl) as (Hle & Hout & _).
  destruct (Hinside eq_refl) as (_ & _ & Hin).
  split; [exact Hle|]. split.
  - apply Hout. right. reflexivity.
  - apply Hin. left. split; [discriminate|]. intros H. discriminate H.
Defined.

End MoreExamples.
